(** * Fight Song Genome: the shared store, the sorts and the views' formulas

    A shallow embedding of the parts of the visualisation that carry logic.

    Definitions:
    - [Store]: the publish/subscribe state container ([state.js]), with the
      client code that calls it and the callbacks it calls back;
    - [Utils]: [isPurdue], [sortSchools] and the arrays it copies and sorts
      ([utils.js]);
    - [Binary64]: the doubles of the engine, for the one test that rounding
      decides;
    - [Views]: the similarity graph, the conference filter of every view and
      the marker radii ([network.js], [map.js], [scatter.js], [galaxy.js],
      [matrix.js], [parallel.js], [clock.js], [radar.js]).

    Facts: [StoreFacts], [UtilsFacts], [ViewsFacts].

    JavaScript numbers are IEEE doubles.  Where a formula only places,
    sizes or orders things they are exact rationals here ([Q]) and rounding
    is not modelled; the similarity test of the network, which compares a
    computed score with a constant, is modelled in doubles
    ([Views.NetworkGraph64]). *)

From Stdlib Require Import ZArith QArith Qabs Qminmax Lia Lqa.
From Stdlib Require SpecFloat.
From stdpp Require Import base option list gmap strings sorting.

Local Open Scope string_scope.
Local Open Scope list_scope.

(* ===================================================================== *)
(** * The store ([state.js]) *)
(* ===================================================================== *)

Module Store.

(** ** Values and strict equality *)

(** The store never inspects a value; it only compares two of them with
    [!==].  Objects and arrays are compared by reference ([VRef]), primitives
    by value, and [NaN] is not equal to itself.  The numbers the application
    stores are integral ([currentAct]); [+0] and [-0] are one value, as [===]
    does not tell them apart. *)
Inductive value : Type :=
| VUndefined
| VNull
| VBool (b : bool)
| VNum (n : Z)
| VNaN
| VStr (s : string)
| VRef (a : nat).

#[global] Instance value_eq_dec : EqDecision value.
Proof. solve_decision. Defined.

(** [a === b] *)
Definition strict_eq (a b : value) : bool :=
  match a, b with
  | VNaN, _ | _, VNaN => false
  | _, _ => bool_decide (a = b)
  end.

(** [a !== b] *)
Definition strict_neq (a b : value) : bool := negb (strict_eq a b).

(** ** The store *)

(** A callback is a function object; the [Set] of listeners compares them by
    identity, which is all the store sees of them. *)
Definition cbid := nat.

(** What the instrumented store records: every call [callback(value, state)]
    made by [notify], with the value [state[key]] held at that moment, and
    every [console.error] of its [catch]. *)
Inductive event : Type :=
| Called (c : cbid) (k : string) (arg stored : value)
| Logged (k : string).

(** [state] is the module's object, [listeners] its [Map] from key to [Set].
    A [Set] iterates in insertion order over a list of entries in which
    [delete] leaves a hole ([None]) and [add] appends unless the element is
    already there: this is what makes [forEach] see the additions and
    removals that happen while it runs. *)
Record store : Type := Store {
  state : gmap string value;
  listeners : gmap string (list (option cbid));
  trace : list event
}.

(** The object literal [state] starts from; [VRef 0] is its empty array and
    [VRef 1] its empty object. *)
Definition initial_state : gmap string value :=
  list_to_map
    [("schools", VRef 0); ("conferences", VRef 1);
     ("selectedSchool", VNull); ("hoveredSchool", VNull);
     ("activeConference", VStr "all");
     ("matrixSort", VStr "conference"); ("currentAct", VNum 1);
     ("galaxy", VNull); ("map", VNull); ("radar", VNull);
     ("scatter", VNull); ("matrix", VNull)].

Definition initial_store : store := Store initial_state ∅ [].

(** [state[key]]: a missing property reads as [undefined]. *)
Definition getState (k : string) (s : store) : value :=
  default VUndefined (state s !! k).

(** [state[key] = value] *)
Definition write (k : string) (v : value) (s : store) : store :=
  Store (<[k := v]> (state s)) (listeners s) (trace s).

Definition record (e : event) (s : store) : store :=
  Store (state s) (listeners s) (trace s ++ [e]).

(** [Set.prototype.add] *)
Definition set_add (c : cbid) (es : list (option cbid)) : list (option cbid) :=
  if bool_decide (Some c ∈ es) then es else es ++ [Some c].

(** [Set.prototype.delete] *)
Definition set_delete (c : cbid) (es : list (option cbid)) : list (option cbid) :=
  (λ e, if bool_decide (e = Some c) then None else e) <$> es.

(** The elements of a [Set], in iteration order. *)
Definition members (es : list (option cbid)) : list cbid := omap id es.

(** The callbacks registered for [k]. *)
Definition subscribers (k : string) (s : store) : list cbid :=
  members (default [] (listeners s !! k)).

Inductive outcome : Type :=
| Normal      (* returned *)
| Thrown      (* raised an exception *)
| OutOfFuel.  (* still running when the budget ended *)

#[global] Instance outcome_eq_dec : EqDecision outcome.
Proof. solve_decision. Defined.

(** The closure [() => { listeners.get(key).delete(callback); }] returned by
    [subscribe].  It exists only once [subscribe] has created the [Set] of
    [key]; on a missing [Set] the call would be a [TypeError]. *)
Definition unsubscribe (k : string) (c : cbid) (s : store) : outcome * store :=
  match listeners s !! k with
  | Some es => (Normal, Store (state s) (<[k := set_delete c es]> (listeners s)) (trace s))
  | None => (Thrown, s)
  end.

(** [if (!listeners.has(key)) listeners.set(key, new Set());
    listeners.get(key).add(callback);] *)
Definition add_listener (k : string) (c : cbid) (s : store) : store :=
  let es := default [] (listeners s !! k) in
  Store (state s) (<[k := set_add c es]> (listeners s)) (trace s).

(** [subscribe(key, callback)]: the new store and the unsubscribe closure. *)
Definition subscribe (k : string) (c : cbid) (s : store)
  : store * (store -> outcome * store) :=
  (add_listener k c s, unsubscribe k c).

(** ** Client code *)

(** What a piece of client code (the body of a callback, an event handler)
    does to the store: a tree of calls to the exported functions.  Reading
    the live [state] object passed to a callback is [GetState]. *)
Inductive prog : Type :=
| Ret
| Throw
| GetState (k : string) (cont : value -> prog)
| SetState (k : string) (v : value) (next : prog)
| Subscribe (k : string) (c : cbid) (next : prog)
| Unsubscribe (k : string) (c : cbid) (next : prog)
| InitializeState (schools conferences : value) (next : prog)
| RegisterModule (name : string) (instance : value) (next : prog).

(** [setState], over the notification function it calls. *)
Definition setState_with (nf : string -> value -> store -> outcome * store)
    (k : string) (v : value) (s : store) : outcome * store :=
  let oldValue := getState k s in
  if strict_neq oldValue v then nf k v (write k v s) else (Normal, s).

(** [initializeState] *)
Definition initializeState_with (nf : string -> value -> store -> outcome * store)
    (schools conferences : value) (s : store) : outcome * store :=
  let s1 := write "conferences" conferences (write "schools" schools s) in
  match nf "schools" schools s1 with
  | (Normal, s2) => nf "conferences" conferences s2
  | r => r
  end.

(** [registerModule]: a plain assignment, nobody is notified. *)
Definition registerModule (name : string) (instance : value) (s : store) : store :=
  write name instance s.

Section Run.
Variable nf : string -> value -> store -> outcome * store.

(** Running client code; an exception ends it. *)
Fixpoint run (p : prog) (s : store) : outcome * store :=
  match p with
  | Ret => (Normal, s)
  | Throw => (Thrown, s)
  | GetState k cont => run (cont (getState k s)) s
  | SetState k v next =>
      match setState_with nf k v s with
      | (Normal, s') => run next s'
      | r => r
      end
  | Subscribe k c next => run next (fst (subscribe k c s))
  | Unsubscribe k c next =>
      match unsubscribe k c s with
      | (Normal, s') => run next s'
      | r => r
      end
  | InitializeState schools conferences next =>
      match initializeState_with nf schools conferences s with
      | (Normal, s') => run next s'
      | r => r
      end
  | RegisterModule name instance next => run next (registerModule name instance s)
  end.
End Run.

Section Notify.
(** The code of every callback, as a function of the value it is called
    with. *)
Variable body : cbid -> value -> prog.

(** [listeners.get(key).forEach(callback => { try { callback(value, state) }
    catch (error) { console.error(...) } })], from entry [i] on.  The [Set]
    of a key is created once and never replaced, so looking it up at each
    step reads the same object.  Callbacks may call [setState] again, and
    may subscribe for ever: [fuel] bounds the steps of [forEach] along any
    chain of nested notifications. *)
Fixpoint notify_from (fuel : nat) (k : string) (v : value) (i : nat) (s : store)
  : outcome * store :=
  match fuel with
  | O => (OutOfFuel, s)
  | S fuel' =>
      match listeners s !! k with
      | None => (Normal, s)
      | Some es =>
          match es !! i with
          | None => (Normal, s)
          | Some None => notify_from fuel' k v (S i) s
          | Some (Some c) =>
              let s0 := record (Called c k v (getState k s)) s in
              match run (λ k' v' s', notify_from fuel' k' v' 0 s') (body c v) s0 with
              | (Normal, s') => notify_from fuel' k v (S i) s'
              | (Thrown, s') => notify_from fuel' k v (S i) (record (Logged k) s')
              | (OutOfFuel, s') => (OutOfFuel, s')
              end
          end
      end
  end.

(** [notify(key, value)] *)
Definition notify (fuel : nat) (k : string) (v : value) (s : store) : outcome * store :=
  notify_from fuel k v 0 s.

(** Client code at the top level: an event handler of a view, or [main.js]. *)
Definition exec (fuel : nat) (p : prog) (s : store) : outcome * store :=
  run (notify fuel) p s.

(** [setState(key, value)] *)
Definition setState (fuel : nat) (k : string) (v : value) (s : store) : outcome * store :=
  setState_with (notify fuel) k v s.

(** [initializeState(schools, conferences)] *)
Definition initializeState (fuel : nat) (schools conferences : value) (s : store)
  : outcome * store :=
  initializeState_with (notify fuel) schools conferences s.

(** [setMultipleState(updates)]: [Object.entries(updates)] in order. *)
Fixpoint setMultipleState (fuel : nat) (updates : list (string * value)) (s : store)
  : outcome * store :=
  match updates with
  | [] => (Normal, s)
  | (k, v) :: rest =>
      match setState fuel k v s with
      | (Normal, s') => setMultipleState fuel rest s'
      | r => r
      end
  end.

(** The named mutators. *)
Definition selectSchool (fuel : nat) (school : value) := setState fuel "selectedSchool" school.
Definition hoverSchool (fuel : nat) (school : value) := setState fuel "hoveredSchool" school.
Definition setConferenceFilter (fuel : nat) (conference : value) :=
  setState fuel "activeConference" conference.
Definition setMatrixSort (fuel : nat) (sortBy : value) := setState fuel "matrixSort" sortBy.
Definition setCurrentAct (fuel : nat) (act : value) := setState fuel "currentAct" act.
End Notify.

Arguments getState : simpl never.
Arguments write : simpl never.
Arguments record : simpl never.
Arguments add_listener : simpl never.


(** ** Vocabulary of the statements *)

(** Client code that never assigns [state[K]]: no [setState], no
    [initializeState] and no [registerModule] on [K]. *)
Fixpoint never_writes (K : string) (p : prog) : Prop :=
  match p with
  | Ret | Throw => True
  | GetState _ cont => ∀ v, never_writes K (cont v)
  | SetState k _ next => k ≠ K ∧ never_writes K next
  | Subscribe _ _ next | Unsubscribe _ _ next => never_writes K next
  | InitializeState _ _ next =>
      K ≠ "schools" ∧ K ≠ "conferences" ∧ never_writes K next
  | RegisterModule name _ next => name ≠ K ∧ never_writes K next
  end.

(** Client code that never calls [subscribe(K, C)]. *)
Fixpoint never_subscribes (K : string) (C : cbid) (p : prog) : Prop :=
  match p with
  | Ret | Throw => True
  | GetState _ cont => ∀ v, never_subscribes K C (cont v)
  | Subscribe k c next => ¬ (k = K ∧ c = C) ∧ never_subscribes K C next
  | SetState _ _ next | Unsubscribe _ _ next
  | InitializeState _ _ next | RegisterModule _ _ next => never_subscribes K C next
  end.

(** Client code that only reads the store, and may fail: what the callbacks
    of the views do, which redraw and call no exported function of the store
    but [getState]. *)
Fixpoint passive (p : prog) : Prop :=
  match p with
  | Ret | Throw => True
  | GetState _ cont => ∀ v, passive (cont v)
  | _ => False
  end.

(** Whether passive code ends in an exception, given what it reads. *)
Fixpoint throws (p : prog) (st : gmap string value) : bool :=
  match p with
  | Throw => true
  | GetState k cont => throws (cont (default VUndefined (st !! k))) st
  | _ => false
  end.

(** Every call for key [K] was given the value stored for [K] at that time. *)
Definition current (K : string) (tr : list event) : Prop :=
  ∀ c arg stored, Called c K arg stored ∈ tr → arg = stored.

Definition is_call (C : cbid) (K : string) (e : event) : bool :=
  match e with
  | Called c k _ _ => bool_decide (c = C ∧ k = K)
  | Logged _ => false
  end.

(** The notifications callback [C] received for key [K]. *)
Definition calls_to (C : cbid) (K : string) (tr : list event) : list event :=
  filter (λ e, is_call C K e = true) tr.

(** What one pass of [notify(k, v)] over the callbacks [cs] records when they
    are passive: each is called once, in order, and each failure is logged
    before the next call. *)
Definition pass_events (body : cbid → value → prog) (k : string) (v : value)
    (st : gmap string value) (cs : list cbid) : list event :=
  cs ≫= (λ c, Called c k v (default VUndefined (st !! k))
               :: if throws (body c v) st then [Logged k] else []).

(** No [Set] holds a callback twice. *)
Definition wf_listeners (s : store) : Prop :=
  ∀ k es, listeners s !! k = Some es → NoDup (members es).

(** What a notification function must guarantee for [current K] to be kept. *)
Definition keeps_current (K : string)
    (nf : string → value → store → outcome * store) : Prop :=
  ∀ k v s,
    (k = K → getState K s = v) → current K (trace s) →
    current K (trace (nf k v s).2) ∧ getState K (nf k v s).2 = getState K s.

(** From [s] to [s'], callback [C], if it was not registered for [K], is
    still not registered and was not called for [K]. *)
Definition silent (K : string) (C : cbid) (s s' : store) : Prop :=
  C ∉ subscribers K s →
  (C ∉ subscribers K s') ∧ calls_to C K (trace s') = calls_to C K (trace s).

(** ** Scenarios *)

(** A view's callback that reads the store and redraws. *)
Definition redraw (c : cbid) (v : value) : prog :=
  GetState "activeConference" (λ _, GetState "hoveredSchool" (λ _, Ret)).

(** Callback 0 moves on to act 3 as soon as it is told act 2; the others
    do nothing. *)
Definition hasty (c : cbid) (v : value) : prog :=
  match c with
  | 0 => if bool_decide (v = VNum 2) then SetState "currentAct" (VNum 3) Ret else Ret
  | _ => Ret
  end.

(** Callback 0 fails whenever it is called; the others redraw. *)
Definition faulty (c : cbid) (v : value) : prog :=
  match c with
  | 0 => Throw
  | _ => redraw c v
  end.

(** Callbacks 0, 1 and 2 subscribed to [k], in this order. *)
Definition three_on (k : string) : store :=
  (subscribe k 2 (subscribe k 1 (subscribe k 0 initial_store).1).1).1.

End Store.

(* ===================================================================== *)
(** * Shared helpers ([utils.js]) *)
(* ===================================================================== *)

Module Utils.

Local Open Scope Q_scope.

(** A school record of the dataset: the fields the functions below read.
    [year] is [null] for an unknown founding year. *)
Record School : Type := {
  school : string;
  conference : string;
  bpm : Q;
  sec_duration : Q;
  year : option Q;
  trope_count : Q
}.

(** [school.school === 'Purdue'] *)
Definition isPurdue (s : School) : bool := String.eqb (school s) "Purdue".

(** [q < 0], on the representation: the denominator is positive. *)
Definition negative (q : Q) : bool := (Qnum q <? 0)%Z.

(** [calculateEnergyScore] *)
Definition calculateEnergyScore (s : School) : Q :=
  let bpmNorm := bpm s / 180 in
  let tropeNorm := trope_count s / 8 in
  (bpmNorm * 0.5) + (tropeNorm * 0.5).

(** ** [Array.prototype.sort] *)

(** The engine's sort is not part of the repository.  ECMAScript asks for a
    stable sort and leaves the order open when the comparator is not
    consistent; the model is the insertion sort engines use on short arrays:
    each element in turn is the pivot, put into the sorted prefix in front of
    the first element it has to precede ([comparefn(pivot, x) < 0]). *)
Section ArraySort.
Context {A : Type}.
Variable comparefn : A → A → Q.

Fixpoint insert (pivot : A) (l : list A) : list A :=
  match l with
  | [] => [pivot]
  | x :: l' =>
      if negative (comparefn pivot x) then pivot :: x :: l' else x :: insert pivot l'
  end.

Definition array_sort (l : list A) : list A :=
  fold_left (λ sorted pivot, insert pivot sorted) l [].
End ArraySort.

(** ** Arrays are objects *)

(** Arrays of school records live in a heap and are passed by reference:
    [sort] works in place, [[...a]] allocates. *)
Abbreviation heap := (gmap nat (list School)).

(** [a[...]], the elements of the array at [a]. *)
Definition array_at (h : heap) (a : nat) : list School := default [] (h !! a).

(** [[...a]] *)
Definition array_copy (h : heap) (a : nat) : heap * nat :=
  let a' := fresh (dom h) in
  (<[a' := array_at h a]> h, a').

(** [a.sort(comparefn)] *)
Definition sort_in_place (comparefn : School → School → Q) (h : heap) (a : nat) : heap :=
  alter (array_sort comparefn) a h.

(** ** [sortSchools] *)

(** The comparators of the four criteria. *)
Definition by_trope_count (a b : School) : Q := trope_count b - trope_count a.

Definition by_year (a b : School) : Q :=
  match year a, year b with
  | None, _ => 1
  | _, None => -1
  | Some ya, Some yb => ya - yb
  end.

Definition by_bpm (a b : School) : Q := bpm b - bpm a.

Section SortSchools.
(** [String.prototype.localeCompare] depends on the locale of the browser. *)
Variable localeCompare : string → string → Q.

Definition by_conference (a b : School) : Q :=
  let confCompare := localeCompare (conference a) (conference b) in
  if negb (Qeq_bool confCompare 0) then confCompare
  else localeCompare (school a) (school b).

Definition sortSchools (h : heap) (schools : nat) (sortBy : string) : heap * nat :=
  let '(h1, sorted) := array_copy h schools in
  let h2 :=
    if String.eqb sortBy "conference" then sort_in_place by_conference h1 sorted
    else if String.eqb sortBy "trope_count" then sort_in_place by_trope_count h1 sorted
    else if String.eqb sortBy "year" then sort_in_place by_year h1 sorted
    else if String.eqb sortBy "bpm" then sort_in_place by_bpm h1 sorted
    else h1 in
  (h2, sorted).
End SortSchools.

(** The comparator of the views that draw Purdue last, on top. *)
Definition purdue_last (a b : School) : Q :=
  if isPurdue a then 1 else if isPurdue b then -1 else 0.

(** ** Vocabulary of the statements *)

(** [a] may stand before [b] in tempo order, fastest first. *)
Definition faster_first (a b : School) : Prop := bpm b <= bpm a.

(** [a] may stand before [b] in year order, unknown years last. *)
Definition older_first (a b : School) : Prop :=
  match year a, year b with
  | _, None => True
  | None, Some _ => False
  | Some ya, Some yb => ya <= yb
  end.

End Utils.

(* ===================================================================== *)
(** * JavaScript numbers where rounding decides ([binary64]) *)
(* ===================================================================== *)

(** The similarity test of the network compares a computed score with a
    constant, and the outcome can hinge on the last bit: there the numbers
    are the IEEE 754 doubles of the engine, with the operations of the
    Standard Library's [SpecFloat] at precision 53 and maximal exponent
    1024, rounding to nearest, ties to even. *)
Module Binary64.

Definition float64 : Type := SpecFloat.spec_float.

Definition prec : Z := 53.
Definition emax : Z := 1024.

(** The double of an integer (exact below [2^53]). *)
Definition of_Z (z : Z) : float64 := SpecFloat.binary_normalize prec emax z 0 false.

Definition add : float64 → float64 → float64 := SpecFloat.SFadd prec emax.
Definition sub : float64 → float64 → float64 := SpecFloat.SFsub prec emax.
Definition mul : float64 → float64 → float64 := SpecFloat.SFmul prec emax.
Definition div : float64 → float64 → float64 := SpecFloat.SFdiv prec emax.

(** The double nearest to a rational whose numerator and denominator are
    below [2^53]: the value of a decimal literal of the code, and of a number
    of the dataset as [JSON.parse] reads it. *)
Definition of_Q (q : Q) : float64 := div (of_Z (Qnum q)) (of_Z (Zpos (Qden q))).

(** [Math.abs] *)
Definition abs : float64 → float64 := SpecFloat.SFabs.

(** [Math.min(a, b)]: [NaN] if either is, and [-0] below [+0]. *)
Definition min (a b : float64) : float64 :=
  match a, b with
  | SpecFloat.S754_nan, _ | _, SpecFloat.S754_nan => SpecFloat.S754_nan
  | SpecFloat.S754_zero sa, SpecFloat.S754_zero sb => SpecFloat.S754_zero (sa || sb)
  | _, _ => if SpecFloat.SFltb b a then b else a
  end.

(** [a > b] *)
Definition gt (a b : float64) : bool := SpecFloat.SFltb b a.

(** [Number.isFinite] *)
Definition finite (x : float64) : bool :=
  match x with
  | SpecFloat.S754_zero _ | SpecFloat.S754_finite _ _ _ => true
  | _ => false
  end.

End Binary64.

(* ===================================================================== *)
(** * The views *)
(* ===================================================================== *)

Module Views.
Import Utils.

Local Open Scope Q_scope.

(** [conference === 'all' || d.conference === conference], the test every
    filter makes. *)
Definition matches (conference : string) (d : School) : bool :=
  String.eqb conference "all" || String.eqb (Utils.conference d) conference.

(** ** The similarity network ([network.js]) *)

Module NetworkGraph.

Definition similarityThreshold : Q := 0.7.
Definition nodeRadius : Q := 6.
Definition purdueRadius : Q := 10.

Record Link : Type := {
  source : string;
  target : string;
  similarity : Q
}.

(** The four terms of [calculateSimilarity] and its result, as exact
    numbers; [NetworkGraph64] below has them as the engine computes them. *)
Definition bpmSim (s1 s2 : School) : Q :=
  let bpmDiff := Qabs (bpm s1 - bpm s2) in
  1 - Qmin (bpmDiff / 100) 1.

Definition durationSim (s1 s2 : School) : Q :=
  let durationDiff := Qabs (sec_duration s1 - sec_duration s2) in
  1 - Qmin (durationDiff / 60) 1.

Definition tropeSim (s1 s2 : School) : Q :=
  let tropeDiff := Qabs (trope_count s1 - trope_count s2) in
  1 - Qmin (tropeDiff / 10) 1.

Definition confSim (s1 s2 : School) : Q :=
  if String.eqb (conference s1) (conference s2) then 0.3 else 0.

Definition calculateSimilarity (s1 s2 : School) : Q :=
  (bpmSim s1 s2 * 0.3 + durationSim s1 s2 * 0.2 + tropeSim s1 s2 * 0.2 + confSim s1 s2)
  / 0.7.

(** [similarity > this.config.similarityThreshold] *)
Definition similar_enough (similarity : Q) : bool :=
  negb (Qle_bool similarity similarityThreshold).

(** Node opacity set by [filterByConference]. *)
Definition filterByConference (conference : string) (d : School) : Q :=
  if matches conference d then 0.9 else 0.2.

(** Link opacity set by [filterByConference]. *)
Definition filterLinks (conference : string) (s t : School) (l : Link) : Q :=
  let sourceMatch := matches conference s in
  let targetMatch := matches conference t in
  if sourceMatch && targetMatch then similarity l * 0.3 else 0.05.

End NetworkGraph.

(** ** The similarity network as the engine computes it *)

(** [calculateSimilarity] and [prepareData] in doubles.  The definitions of
    [NetworkGraph] above give the exact value of the same expressions. *)
Module NetworkGraph64.
Import Binary64.

(** [this.config.similarityThreshold] *)
Definition similarityThreshold : float64 := of_Q 0.7.

Record Link : Type := {
  source : string;
  target : string;
  similarity : float64
}.

Definition bpmSim (s1 s2 : School) : float64 :=
  let bpmDiff := abs (sub (of_Q (bpm s1)) (of_Q (bpm s2))) in
  sub (of_Z 1) (min (div bpmDiff (of_Z 100)) (of_Z 1)).

Definition durationSim (s1 s2 : School) : float64 :=
  let durationDiff := abs (sub (of_Q (sec_duration s1)) (of_Q (sec_duration s2))) in
  sub (of_Z 1) (min (div durationDiff (of_Z 60)) (of_Z 1)).

Definition tropeSim (s1 s2 : School) : float64 :=
  let tropeDiff := abs (sub (of_Q (trope_count s1)) (of_Q (trope_count s2))) in
  sub (of_Z 1) (min (div tropeDiff (of_Z 10)) (of_Z 1)).

Definition confSim (s1 s2 : School) : float64 :=
  if String.eqb (conference s1) (conference s2) then of_Q 0.3 else of_Z 0.

Definition calculateSimilarity (s1 s2 : School) : float64 :=
  div (add (add (add (mul (bpmSim s1 s2) (of_Q 0.3))
                     (mul (durationSim s1 s2) (of_Q 0.2)))
                (mul (tropeSim s1 s2) (of_Q 0.2)))
           (confSim s1 s2))
      (of_Q 0.7).

(** The inner loop of [prepareData]: [schools[i]] against every later
    school. *)
Fixpoint links_from (si : School) (later : list School) : list Link :=
  match later with
  | [] => []
  | sj :: later' =>
      let similarity := calculateSimilarity si sj in
      (if gt similarity similarityThreshold
       then [{| source := school si; target := school sj; similarity := similarity |}]
       else [])
      ++ links_from si later'
  end.

(** The links [prepareData] builds, in the order it pushes them. *)
Fixpoint prepareData (schools : list School) : list Link :=
  match schools with
  | [] => []
  | si :: later => links_from si later ++ prepareData later
  end.

End NetworkGraph64.

(** ** The map ([map.js]) *)

Module USAMap.

Definition baseRadius : Q := 5.
Definition radiusMultiplier : Q := 1.5.
Definition purdueRadius : Q := 12.

Definition getRadius (s : School) : Q :=
  if isPurdue s then purdueRadius
  else baseRadius + trope_count s * radiusMultiplier.

(** The markers in drawing order, with their radius. *)
Definition drawSchools (schools : list School) : list (School * Q) :=
  (λ d, (d, getRadius d)) <$> array_sort purdue_last schools.

Definition filterByConference (conference : string) (d : School) : Q :=
  if matches conference d then 1 else 0.15.

End USAMap.

(** ** The scatter plot ([scatter.js]) *)

Module ScatterPlot.

Definition baseRadius : Q := 4.
Definition radiusMultiplier : Q := 1.
Definition purdueRadius : Q := 10.

Definition getRadius (s : School) : Q :=
  if isPurdue s then purdueRadius
  else baseRadius + trope_count s * radiusMultiplier.

Definition drawPoints (schools : list School) : list (School * Q) :=
  (λ d, (d, getRadius d)) <$> array_sort purdue_last schools.

Definition filterByConference (conference : string) (d : School) : Q :=
  if matches conference d then 0.85 else 0.15.

End ScatterPlot.

(** ** The hero map ([galaxy.js]) *)

Module EnergyGalaxy.

Definition purdueRadius : Q := 29.
Definition baseRadius : Q := 6.
Definition radiusMultiplier : Q := 1.2.

(** A marker, without its screen position and colours. *)
Record Marker : Type := {
  marker_school : School;
  size : Q;
  pulseSpeed : Q;
  energy : Q;
  marker_isPurdue : bool
}.

Definition marker_of (s : School) : Marker :=
  {| marker_school := s;
     size := if isPurdue s then purdueRadius
             else baseRadius + trope_count s * radiusMultiplier;
     pulseSpeed := bpm s / 60;
     energy := calculateEnergyScore s;
     marker_isPurdue := isPurdue s |}.

Definition createMarkers (schools : list School) : list Marker :=
  array_sort (λ a b, if marker_isPurdue a then 1
                     else if marker_isPurdue b then -1 else 0)
             (marker_of <$> schools).

(** [this.activeConference || 'all']: unset and empty both mean all. *)
Definition activeConf (activeConference : option string) : string :=
  match activeConference with
  | None => "all"
  | Some c => if String.eqb c EmptyString then "all" else c
  end.

(** The [alpha] with which [drawMarkers] paints a marker that is not
    Purdue's, which [drawPurdueSpotlight] paints whatever the filter. *)
Definition markerAlpha (activeConference : option string) (isHovered : bool)
    (m : Marker) : Q :=
  let isActive := matches (activeConf activeConference) (marker_school m) in
  if isActive then (if isHovered then 1 else 0.85) else 0.15.

End EnergyGalaxy.

(** ** The trope matrix ([matrix.js]) *)

Module TropeMatrix.

Definition cellGap : Q := 2.
Definition minCellWidth : Q := 12.
Definition margin_left : Q := 80.
Definition margin_right : Q := 20.

Record t : Type := {
  schools : nat;
  sortedSchools : nat;
  currentSort : string;
  cellWidth : Q
}.

(** The width [init] gives a cell, for a container [width] wide. *)
Definition init_cellWidth (width : Q) (n : nat) : Q :=
  let innerWidth := width - margin_left - margin_right in
  Qmax minCellWidth (innerWidth / inject_Z (Z.of_nat n) - cellGap).

Section Resort.
Variable localeCompare : string → string → Q.

(** [resort(sortBy)]: the matrix remembers the criterion and the new array. *)
Definition resort (h : heap) (m : t) (sortBy : string) : heap * t :=
  let '(h', sorted) := sortSchools localeCompare h (schools m) sortBy in
  (h', {| schools := schools m; sortedSchools := sorted;
          currentSort := sortBy; cellWidth := cellWidth m |}).
End Resort.

(** The columns from left to right: column [i] shows [sortedSchools[i]] and
    is moved to [x = i * (cellWidth + cellGap)]. *)
Definition columns (h : heap) (m : t) : list (School * Q) :=
  imap (λ i d, (d, inject_Z (Z.of_nat i) * (cellWidth m + cellGap)))
       (array_at h (sortedSchools m)).

Definition filterByConference (conference : string) (d : School) : Q :=
  if matches conference d then 1 else 0.2.

End TropeMatrix.

(** ** Parallel coordinates ([parallel.js]) *)

Module ParallelCoordinates.

Definition lineOpacity : Q := 0.3.
Definition lineOpacityHover : Q := 0.8.

Definition filterByConference (conference : string) (d : School) : Q :=
  if isPurdue d then 0.8
  else if matches conference d then lineOpacity
  else 0.1.

End ParallelCoordinates.

(** ** The rose chart ([clock.js]) *)

Module FightSongClock.

Definition conferences : list string :=
  ["ACC"; "Big 12"; "Big Ten"; "Pac-12"; "SEC"; "Independent"].

(** Opacity of a school's arc. *)
Definition filterByConference (conference : string) (d : School) : Q :=
  if isPurdue d then 1
  else if matches conference d then 0.75
  else 0.15.

(** Opacity of the background of the sector of [conf]. *)
Definition filterSectors (conference conf : string) : Q :=
  if String.eqb conference "all" || String.eqb conf conference then 0.5 else 0.15.

End FightSongClock.

(** ** The radar charts ([radar.js]) *)

Module RadarChart.

(** The listener of [activeConference]: [unhighlightRadar] for ['all'],
    [highlightRadar] otherwise; the opacity it gives the chart of [conf]. *)
Definition onActiveConference (conference conf : string) : Q :=
  if String.eqb conference "all" then 1
  else if String.eqb conf conference then 1
  else 0.4.

End RadarChart.

(** ** Vocabulary of the statements *)

(** A view follows the filter with opacities [full] and [dimmed] on the
    elements [only] selects. *)
Definition follows_filter (full dimmed : Q) (only : School → Prop)
    (opacity : string → School → Q) : Prop :=
  ∀ F d, only d →
    opacity F d = if String.eqb F "all" || String.eqb (conference d) F
                  then full else dimmed.

(** ** Scenarios *)

Definition purdue : School :=
  {| school := "Purdue"; conference := "Big Ten"; bpm := 150; sec_duration := 65;
     year := Some 1912; trope_count := 4 |}.

Definition indiana : School :=
  {| school := "Indiana"; conference := "Big Ten"; bpm := 150; sec_duration := 65;
     year := None; trope_count := 4 |}.

Definition alabama : School :=
  {| school := "Alabama"; conference := "SEC"; bpm := 70; sec_duration := 140;
     year := Some 1926; trope_count := 8 |}.

Definition army : School :=
  {| school := "Army"; conference := "Independent"; bpm := 120; sec_duration := 60;
     year := None; trope_count := 5 |}.

(** A school of another conference, 70 bpm slower than Purdue, with Purdue's
    duration and trope count. *)
Definition tigers : School :=
  {| school := "Tigers"; conference := "SEC"; bpm := 80; sec_duration := 65;
     year := Some 1920; trope_count := 4 |}.

(** The array [[army, alabama, indiana, purdue]] at address 0. *)
Definition four_schools : heap :=
  {[ 0%nat := [army; alabama; indiana; purdue] ]}.

(** The matrix over it, in a container 1000 wide. *)
Definition matrix_of_four : TropeMatrix.t :=
  {| TropeMatrix.schools := 0; TropeMatrix.sortedSchools := 0;
     TropeMatrix.currentSort := "conference";
     TropeMatrix.cellWidth := TropeMatrix.init_cellWidth 1000 4 |}.

Definition localeCompare_ascii (a b : string) : Q :=
  match String.compare a b with
  | Lt => -1
  | Eq => 0
  | Gt => 1
  end.

End Views.

(* ===================================================================== *)
(** * The rest of the store's interface ([state.js]) *)
(* ===================================================================== *)

Module Queries.
Import Store Utils.

(** [getModule(name)] *)
Definition getModule (name : string) (s : store) : value := getState name s.

(** [getFilteredSchools()], over the two fields of [state] it reads.  A
    filter value that is not a string is strictly equal to no conference. *)
Definition getFilteredSchools (activeConference : value) (schools : list School)
  : list School :=
  if strict_eq activeConference (VStr "all") then schools
  else filter (λ s, strict_eq (VStr (conference s)) activeConference = true) schools.

(** [findSchool(name)], over [state.schools]: [Array.prototype.find]. *)
Definition findSchool (name : string) (schools : list School) : option School :=
  List.find (λ s, String.eqb (school s) name) schools.

(** [getPurdue()] *)
Definition getPurdue (schools : list School) : option School :=
  findSchool "Purdue" schools.

(** ** Scenarios *)

Definition successor (v : value) : value :=
  match v with
  | VNum n => VNum (n + 1)
  | _ => VNum 0
  end.

(** A callback that answers every act with the next one. *)
Definition count_up (c : cbid) (v : value) : prog :=
  SetState "currentAct" (successor v) Ret.

(** Callback 0 unsubscribes callback 1; the others redraw. *)
Definition jealous (c : cbid) (v : value) : prog :=
  match c with
  | 0 => Unsubscribe "hoveredSchool" 1 Ret
  | _ => redraw c v
  end.

(** Callback 0 subscribes callback 1; the others redraw. *)
Definition recruiting (c : cbid) (v : value) : prog :=
  match c with
  | 0 => Subscribe "hoveredSchool" 1 Ret
  | _ => redraw c v
  end.

End Queries.

(* ===================================================================== *)
(** * More of the helpers ([utils.js]) *)
(* ===================================================================== *)

Module Helpers.
Import Utils.

Local Open Scope Q_scope.

(** [lerp] *)
Definition lerp (a b t : Q) : Q := a + (b - a) * t.

(** [clamp]: [Math.min(Math.max(value, min), max)] *)
Definition clamp (value min max : Q) : Q := Qmin (Qmax value min) max.

(** [mapRange].  With [inMin = inMax] JavaScript divides by zero and gives
    [NaN] or an infinity; the facts below are about [inMin ≠ inMax]. *)
Definition mapRange (value inMin inMax outMin outMax : Q) : Q :=
  outMin + ((value - inMin) / (inMax - inMin)) * (outMax - outMin).

(** The size [createParticles] of the poster gives the star of a school. *)
Definition starMinSize : Q := 1.
Definition starMaxSize : Q := 4.
Definition particleSize (s : School) : Q :=
  let energy := calculateEnergyScore s in
  starMinSize + energy * (starMaxSize - starMinSize).

(** The comparator with which the views put the featured element last. *)
Definition featured_last {A : Type} (featured : A → bool) (a b : A) : Q :=
  if featured a then 1 else if featured b then -1 else 0.

(** [s] has tempo [v]. *)
Definition same_bpm (v : Q) (s : School) : Prop := Qeq_bool (bpm s) v = true.

#[global] Instance same_bpm_dec v s : Decision (same_bpm v s).
Proof. unfold same_bpm. apply _. Defined.

End Helpers.

Module Stats.
Import Utils.

Local Open Scope Q_scope.

(** A record of the dataset with the flags [generateConferenceStats] and the
    parallel coordinates read, next to the fields of [School]. *)
Record FullSchool : Type := {
  base : School;
  fight : bool;
  victory : bool;
  win_won : bool;
  rah : bool;
  spelling : bool;
  student_writer : bool
}.

(** What the first loop of [generateConferenceStats] keeps for a
    conference. *)
Record Totals : Type := {
  t_schools : list FullSchool;
  totalBpm : Q;
  totalDuration : Q;
  fightCount : Q;
  victoryCount : Q;
  totalTropes : Q;
  studentWriterCount : Q;
  spellingCount : Q;
  winWonCount : Q;
  rahCount : Q
}.

(** The object of a conference after the second loop. *)
Record ConferenceStats : Type := {
  totals : Totals;
  avgBpm : Q;
  avgDuration : Q;
  fightRate : Q;
  victoryRate : Q;
  avgTropes : Q;
  studentWriterRate : Q;
  spellingRate : Q;
  winWonRate : Q;
  rahRate : Q;
  count : Q
}.

(** The object a conference starts with. *)
Definition no_totals : Totals :=
  {| t_schools := []; totalBpm := 0; totalDuration := 0; fightCount := 0;
     victoryCount := 0; totalTropes := 0; studentWriterCount := 0;
     spellingCount := 0; winWonCount := 0; rahCount := 0 |}.

(** [flag ? 1 : 0] *)
Definition one_if (flag : bool) : Q := if flag then 1 else 0.

(** The body of the first loop, on the object of the school's conference. *)
Definition add_school (t : Totals) (s : FullSchool) : Totals :=
  {| t_schools := t_schools t ++ [s];
     totalBpm := totalBpm t + bpm (base s);
     totalDuration := totalDuration t + sec_duration (base s);
     fightCount := fightCount t + one_if (fight s);
     victoryCount := victoryCount t + one_if (victory s || win_won s);
     totalTropes := totalTropes t + trope_count (base s);
     studentWriterCount := studentWriterCount t + one_if (student_writer s);
     spellingCount := spellingCount t + one_if (spelling s);
     winWonCount := winWonCount t + one_if (win_won s);
     rahCount := rahCount t + one_if (rah s) |}.

(** One round of the first loop. *)
Definition tally (conferences : gmap string Totals) (s : FullSchool)
  : gmap string Totals :=
  let conf := conference (base s) in
  let c := default no_totals (conferences !! conf) in
  <[conf := add_school c s]> conferences.

(** The body of the second loop. *)
Definition averages (c : Totals) : ConferenceStats :=
  let count := inject_Z (Z.of_nat (length (t_schools c))) in
  {| totals := c;
     avgBpm := totalBpm c / count;
     avgDuration := totalDuration c / count;
     fightRate := fightCount c / count;
     victoryRate := victoryCount c / count;
     avgTropes := totalTropes c / count;
     studentWriterRate := studentWriterCount c / count;
     spellingRate := spellingCount c / count;
     winWonRate := winWonCount c / count;
     rahRate := rahCount c / count;
     count := count |}.

(** [generateConferenceStats] *)
Definition generateConferenceStats (schools : list FullSchool)
  : gmap string ConferenceStats :=
  averages <$> fold_left tally schools ∅.

(** The schools of a conference, in the order of the dataset. *)
Definition of_conference (conf : string) (schools : list FullSchool) : list FullSchool :=
  filter (λ s, conference (base s) = conf) schools.

(** The sum of a field over some schools. *)
Definition total (field : FullSchool → Q) (schools : list FullSchool) : Q :=
  fold_left (λ sum s, sum + field s) schools 0.

(** What the first loop has summed up, field by field. *)
Record tallied (t0 t : Totals) (l : list FullSchool) : Prop := {
  tallied_schools : t_schools t = t_schools t0 ++ l;
  tallied_bpm : totalBpm t == totalBpm t0 + total (λ s, bpm (base s)) l;
  tallied_duration :
    totalDuration t == totalDuration t0 + total (λ s, sec_duration (base s)) l;
  tallied_tropes :
    totalTropes t == totalTropes t0 + total (λ s, trope_count (base s)) l;
  tallied_fight : fightCount t == fightCount t0 + total (λ s, one_if (fight s)) l;
  tallied_victory :
    victoryCount t == victoryCount t0 + total (λ s, one_if (victory s || win_won s)) l;
  tallied_writer :
    studentWriterCount t
    == studentWriterCount t0 + total (λ s, one_if (student_writer s)) l;
  tallied_spelling :
    spellingCount t == spellingCount t0 + total (λ s, one_if (spelling s)) l;
  tallied_winwon : winWonCount t == winWonCount t0 + total (λ s, one_if (win_won s)) l;
  tallied_rah : rahCount t == rahCount t0 + total (λ s, one_if (rah s)) l
}.

End Stats.

(* ===================================================================== *)
(** * Layout of the tooltip and of the views *)
(* ===================================================================== *)

Module Layout.
Import Utils Views Helpers Stats.

Local Open Scope Q_scope.

(** [a > b] and [a < b] on numbers. *)
Definition gtb (a b : Q) : bool := negb (Qle_bool a b).
Definition ltb (a b : Q) : bool := negb (Qle_bool b a).

(** [value || fallback] for a number: zero is falsy. *)
Definition or_else (value fallback : Q) : Q :=
  if Qeq_bool value 0 then fallback else value.

(** ** The tooltip ([tooltip.js]) *)

Module Tooltip.

Definition padding : Q := 15.

(** [move(x, y)], over the size of the tooltip and of the viewport it reads
    from the page: the [left] and [top] it sets. *)
Definition move (x y width height viewportWidth viewportHeight : Q) : Q * Q :=
  let left := x + padding in
  let top := y + padding in
  let left := if gtb (left + width) (viewportWidth - padding)
              then x - width - padding else left in
  let top := if gtb (top + height) (viewportHeight - padding)
             then y - height - padding else top in
  let left := if ltb left padding then padding else left in
  let top := if ltb top padding then padding else top in
  (left, top).

End Tooltip.

(** ** The rose chart ([clock.js]) *)

Module Clock.

Definition sectorGap : Q := 3.
Definition innerRadiusFraction : Q := 0.15.
Definition minOuterRadius : Q := 0.5.

Record Sector : Type := {
  sector_conf : string;
  start : Q;
  stop : Q;
  mid : Q
}.

Section Angles.
(** [Math.PI] *)
Variable PI : Q.

(** The loop of [getSectorAngles], from [currentAngle] on. *)
Fixpoint sectors_from (sectorRad gapRad : Q) (conferences : list string)
    (currentAngle : Q) : list Sector :=
  match conferences with
  | [] => []
  | conf :: rest =>
      {| sector_conf := conf; start := currentAngle; stop := currentAngle + sectorRad;
         mid := currentAngle + sectorRad / 2 |}
      :: sectors_from sectorRad gapRad rest (currentAngle + (sectorRad + gapRad))
  end.

Definition gapRad : Q := (sectorGap * PI) / 180.

Definition sectorRad (conferences : list string) : Q :=
  let n := inject_Z (Z.of_nat (length conferences)) in
  let totalGap := sectorGap * n in
  let availableAngle := 360 - totalGap in
  let sectorAngle := availableAngle / n in
  (sectorAngle * PI) / 180.

(** [getSectorAngles()], in the order of [this.conferences]. *)
Definition getSectorAngles (conferences : list string) : list Sector :=
  sectors_from (sectorRad conferences) gapRad conferences (- PI / 2).
End Angles.

(** [d3.extent] of the school counts: the smallest and the largest. *)
Definition counts (conferences : list string) (schools : list School) : list nat :=
  (λ conf, length (filter (λ s, conference s = conf) schools)) <$> conferences.

Definition extent (ns : list nat) : nat * nat :=
  (foldr Nat.min (default 0%nat (head ns)) ns, foldr Nat.max 0%nat ns).

(** [this.maxRadius] and [this.innerRadius] *)
Definition maxRadius (width height : Q) : Q := Qmin width height / 2 * 1.3 - 35.
Definition innerRadius (maxRadius : Q) : Q := maxRadius * innerRadiusFraction.

(** The [outerRadius] [calculateConferenceStats] gives the sector of [conf]. *)
Definition outerRadius (maxRadius : Q) (conferences : list string)
    (schools : list School) (conf : string) : Q :=
  let countExtent := extent (counts conferences schools) in
  let schoolCount := length (filter (λ s, conference s = conf) schools) in
  if (0 <? schoolCount)%nat then
    let normalizedRadius :=
      mapRange (inject_Z (Z.of_nat schoolCount))
               (inject_Z (Z.of_nat countExtent.1)) (inject_Z (Z.of_nat countExtent.2))
               minOuterRadius 1.0 in
    maxRadius * normalizedRadius
  else maxRadius * minOuterRadius.

(** The radius [drawSchoolArcs] gives the arc of a school, for the tempo
    extent [bpmMin, bpmMax] of the dataset. *)
Definition schoolRadius (innerRadius sectorOuterRadius bpmMin bpmMax : Q) (s : School) : Q :=
  mapRange (bpm s) bpmMin bpmMax (innerRadius + 10) (sectorOuterRadius - 5).

End Clock.

(** ** The matrix ([matrix.js]) *)

Module Matrix.

(** [findIndex]: [-1] when nothing is found. *)
Fixpoint findIndex {A : Type} (p : A → bool) (l : list A) : Z :=
  match l with
  | [] => -1
  | x :: l' => if p x then 0 else
                 let i := findIndex p l' in if (i <? 0)%Z then -1 else (i + 1)%Z
  end.

(** The [x] [resort] (and [drawPurdueHighlight]) gives the box around
    Purdue's column. *)
Definition highlight_x (cellWidth : Q) (sortedSchools : list School) : Q :=
  let purdueIndex := findIndex isPurdue sortedSchools in
  inject_Z purdueIndex * (cellWidth + TropeMatrix.cellGap) - 3.

End Matrix.

(** ** The radar charts ([radar.js]) *)

Module Radar.

(** [createRadar]: the side of the chart and the radius of its axes, from
    the size of the container. *)
Definition size (width height : Q) : Q :=
  Qmax (Qmin (or_else width 100) (or_else height 100)) 80.

Definition radius (width height : Q) : Q := Qmax (size width height / 2 - 20) 20.

(** The distance from the centre at which a value is drawn on an axis with
    maximum [max], normalised or not. *)
Definition dataRadius (radius : Q) (normalize : bool) (max value : Q) : Q :=
  let value := if normalize then value / max else value in
  let value := Qmin (Qmax value 0) 1 in
  radius * value.

(** [this.config.dimensions]: the property read, [max] and [normalize]. *)
Definition dimensions : list ((ConferenceStats → Q) * Q * bool) :=
  [(studentWriterRate, 1, false); (spellingRate, 1, false); (winWonRate, 1, false);
   (rahRate, 1, false); (avgTropes, 8, true)].

(** [createRadar(container, conference)]: the distance from the centre of
    the corners of the data polygon, axis by axis.  [None] is the
    [TypeError] of reading a property of [undefined], when
    [this.conferenceStats] has no entry for the conference. *)
Definition createRadar (conferenceStats : gmap string ConferenceStats)
    (width height : Q) (conference : string) : option (list Q) :=
  match conferenceStats !! conference with
  | None => None
  | Some data =>
      Some ((λ dim : (ConferenceStats → Q) * Q * bool,
               dataRadius (radius width height) dim.2 dim.1.2 (dim.1.1 data))
            <$> dimensions)
  end.

(** Corner [i] of the polygon lies [q] from the centre. *)
Definition corner_at (corners : list Q) (i : nat) (q : Q) : Prop :=
  ∃ r, corners !! i = Some r ∧ r == q.

End Radar.

End Layout.

(* ===================================================================== *)
(** * Hovering: the handlers of the views and the school card *)
(* ===================================================================== *)

Module Hover.
Import Utils Views.

Local Open Scope Q_scope.

(** The school objects of the dataset are compared by reference
    ([school !== this.hoveredSchool], [oldValue !== value]); two objects of
    the dataset are the same object when they are the same record. *)
#[export] Instance Q_eq_dec : EqDecision Q.
Proof. solve_decision. Defined.

#[export] Instance School_eq_dec : EqDecision School.
Proof. solve_decision. Defined.

(** The views whose elements call [hoverSchool] from [mouseenter] and
    [mouseleave] and whose opacity follows [hoveredSchool]. *)
Inductive view : Type := Map | Scatter | Matrix | Parallel | Clock.

#[export] Instance view_eq_dec : EqDecision view.
Proof. solve_decision. Defined.

(** What hovering reads and writes: the two keys of the store, the
    [this.hoveredSchool] of the views that have one (map, scatter plot and
    matrix), and the opacity each view last gave the element of every
    school.  [None] is [null]. *)
Record page : Type := Page {
  hoveredSchool : option School;
  activeConference : string;
  own : view → option School;
  opacity : view → School → Q
}.

(** [f] with the entry of [v] replaced. *)
Definition update {A : Type} (v : view) (x : A) (f : view → A) : view → A :=
  λ w, if decide (w = v) then x else f w.

Definition set_hoveredSchool (school : option School) (p : page) : page :=
  Page school (activeConference p) (own p) (opacity p).

Definition set_own (v : view) (school : option School) (p : page) : page :=
  Page (hoveredSchool p) (activeConference p) (update v school (own p)) (opacity p).

Definition set_opacity (v : view) (o : School → Q) (p : page) : page :=
  Page (hoveredSchool p) (activeConference p) (own p) (update v o (opacity p)).

(** [getState('activeConference') || 'all'] *)
Definition current_filter (p : page) : string :=
  if String.eqb (activeConference p) EmptyString then "all" else activeConference p.

(** [d.school === school.school] *)
Definition same (school d : School) : bool :=
  String.eqb (Utils.school d) (Utils.school school).

(** [highlightSchool], [highlightPoint], the dimming of [handleMouseEnter]
    in the matrix, [highlightLine] and [highlightArc]: the opacities after
    the view has put [school] forward, from those [before]. *)
Definition highlight (v : view) (school : School) (before : School → Q) : School → Q :=
  match v with
  | Map => λ d, if same school d then before d else 0.3
  | Scatter => λ d, if same school d then 1 else 0.2
  | Matrix => λ d, if same school d then before d else 0.3
  | Parallel => λ d, if same school d then ParallelCoordinates.lineOpacityHover
                     else if isPurdue d then 0.3 else 0.1
  | Clock => λ d, if same school d then 1 else if isPurdue d then 0.5 else 0.15
  end.

(** [unhighlightSchool], [unhighlightPoint], the restoring of
    [handleMouseLeave] in the matrix, [unhighlightLine] and
    [unhighlightArc], for the filter they read from the store. *)
Definition unhighlight (v : view) (conference : string) : School → Q :=
  match v with
  | Map => λ _, 1
  | Scatter => λ d,
      if String.eqb conference "all" || String.eqb (Utils.conference d) conference
      then 0.85 else 0.15
  | Matrix => λ _, 1
  | Parallel => λ d,
      if isPurdue d then 0.8
      else if String.eqb conference "all" || String.eqb (Utils.conference d) conference
           then ParallelCoordinates.lineOpacity
           else 0.1
  | Clock => λ d,
      if isPurdue d then 1
      else if String.eqb conference "all" || String.eqb (Utils.conference d) conference
           then 0.75
           else 0.15
  end.

(** [externalHighlight] of the map, the scatter plot and the matrix. *)
Definition externalHighlight (v : view) (school : School) : School → Q :=
  match v with
  | Scatter => λ d, if same school d then 1 else 0.2
  | _ => λ d, if same school d then 1 else 0.3
  end.

(** [filterByConference] of the view *)
Definition filterByConference (v : view) (conference : string) : School → Q :=
  match v with
  | Map => USAMap.filterByConference conference
  | Scatter => ScatterPlot.filterByConference conference
  | Matrix => TropeMatrix.filterByConference conference
  | Parallel => ParallelCoordinates.filterByConference conference
  | Clock => FightSongClock.filterByConference conference
  end.

(** [externalUnhighlight] *)
Definition externalUnhighlight (v : view) (p : page) : page :=
  let conference := current_filter p in
  set_opacity v (filterByConference v conference) p.

(** The callback the view subscribes to [hoveredSchool]. *)
Definition listener (v : view) (school : option School) (p : page) : page :=
  match v with
  | Map | Scatter =>
      match school with
      | Some s =>
          if decide (Some s ≠ own p v) then set_opacity v (externalHighlight v s) p else p
      | None =>
          match own p v with
          | Some _ => externalUnhighlight v p
          | None => p
          end
      end
  | Matrix =>
      match school with
      | Some s =>
          if decide (Some s ≠ own p v) then set_opacity v (externalHighlight v s) p else p
      | None =>
          match own p v with
          | None => externalUnhighlight v p
          | Some _ => p
          end
      end
  | Parallel | Clock =>
      match school with
      | Some s => set_opacity v (highlight v s (opacity p v)) p
      | None => p
      end
  end.

(** The views in the order in which [main.js] creates them, which is the
    order of their callbacks in the [Set] of [hoveredSchool]. *)
Definition subscribers : list view := [Map; Scatter; Matrix; Parallel; Clock].

(** [hoverSchool(school)]: [setState('hoveredSchool', school)] with these
    callbacks, none of which writes the store. *)
Definition hoverSchool (school : option School) (p : page) : page :=
  if decide (hoveredSchool p = school) then p
  else foldl (λ p v, listener v school p) (set_hoveredSchool school p) subscribers.

(** Whether the view keeps a [this.hoveredSchool]. *)
Definition keeps_hovered (v : view) : bool :=
  match v with
  | Map | Scatter | Matrix => true
  | Parallel | Clock => false
  end.

(** [handleMouseEnter(event, school)] *)
Definition handleMouseEnter (v : view) (school : School) (p : page) : page :=
  let p := if keeps_hovered v then set_own v (Some school) p else p in
  let p := hoverSchool (Some school) p in
  set_opacity v (highlight v school (opacity p v)) p.

(** [handleMouseLeave(event, school)] *)
Definition handleMouseLeave (v : view) (school : School) (p : page) : page :=
  let p := if keeps_hovered v then set_own v None p else p in
  let p := hoverSchool None p in
  set_opacity v (unhighlight v (current_filter p)) p.

(** Nothing is hovered: the state in which the page starts. *)
Definition quiet (p : page) : Prop :=
  hoveredSchool p = None ∧ ∀ v, keeps_hovered v = true → own p v = None.

(** ** The school card ([main.js]) *)

(** The two variables of the closure of [setupSchoolCardSubscription];
    [currentDisplayedSchool] is the school last given to
    [populateSchoolCard]. *)
Record card : Type := Card {
  currentDisplayedSchool : option School;
  selectedSchool : option School
}.

(** [this.schools.find(s => s.school === 'Purdue') || this.schools[0]] *)
Definition defaultSchool (schools : list School) : option School :=
  match List.find isPurdue schools with
  | Some s => Some s
  | None => head schools
  end.

(** The card before any notification. *)
Definition setupSchoolCardSubscription (schools : list School) : card :=
  match defaultSchool schools with
  | Some s => Card (Some s) None
  | None => Card None None
  end.

Inductive notification : Type :=
| Hovered (school : option School)
| Selected (school : option School).

(** The two callbacks. *)
Definition notified (defaultSchool : option School) (c : card) (n : notification) : card :=
  match n with
  | Hovered school =>
      match school with
      | Some s => Card (Some s) (selectedSchool c)
      | None =>
          match selectedSchool c with
          | None => Card defaultSchool (selectedSchool c)
          | Some sel => Card (Some sel) (selectedSchool c)
          end
      end
  | Selected school =>
      match school with
      | Some s => Card (Some s) school
      | None =>
          match currentDisplayedSchool c with
          | Some _ => Card defaultSchool school
          | None => Card (currentDisplayedSchool c) school
          end
      end
  end.

(** The card after the notifications [ns], in the order received. *)
Definition card_after (schools : list School) (ns : list notification) : card :=
  foldl (notified (defaultSchool schools)) (setupSchoolCardSubscription schools) ns.

(** The selection the notifications leave. *)
Definition selection_after (ns : list notification) : option School :=
  foldl (λ sel n, match n with Selected school => school | Hovered _ => sel end) None ns.

(** A page on which nothing has been hovered yet, with the filter [F]. *)
Definition fresh_page (F : string) : page :=
  Page None F (λ _, None) (λ v, filterByConference v F).

End Hover.

(* ===================================================================== *)
(** * Pointing, brushing and ranking *)
(* ===================================================================== *)

Module Interaction.
Import Utils Views Helpers Stats Queries Layout.

Local Open Scope Q_scope.

(** ** The hover of the hero map ([galaxy.js]) *)

Section HandleHover.
(** [Math.hypot(x - marker.x, y - marker.y)], the distance of the pointer
    from a marker. *)
Variable dist : EnergyGalaxy.Marker → Q.

(** [dist < hitRadius] *)
Definition hit (marker : EnergyGalaxy.Marker) : bool :=
  ltb (dist marker) (EnergyGalaxy.size marker + 8).

(** The loop of [handleHover]: from the last marker to the first, until one
    is hit. *)
Definition found (markers : list EnergyGalaxy.Marker) : option EnergyGalaxy.Marker :=
  List.find hit (rev markers).
End HandleHover.

(** ** The brushes of the parallel coordinates ([parallel.js]) *)

Inductive dimension : Type := Bpm | SecDuration | Year | Fight | Victory.

#[export] Instance dimension_eq_dec : EqDecision dimension.
Proof. solve_decision. Defined.

Definition dimensions : list dimension := [Bpm; SecDuration; Year; Fight; Victory].

(** The value of a school on an axis, as [path] and [filterLines] compute
    it: 1 or 0 for a flag, 1930 for an unknown year. *)
Definition value_on (dim : dimension) (d : FullSchool) : Q :=
  match dim with
  | Bpm => or_else (bpm (base d)) 0
  | SecDuration => or_else (sec_duration (base d)) 0
  | Year => match year (base d) with Some y => y | None => 1930 end
  | Fight => if fight d then 1 else 0
  | Victory => if victory d then 1 else 0
  end.

Section FilterLines.
(** [this.scales]: the vertical position of a value on each axis. *)
Variable scales : dimension → Q → Q.

(** [this.brushes]: the selection [[y0, y1]] of the axes that have one. *)
Definition brushes := dimension → option (Q * Q).

Definition no_brushes : brushes := λ _, None.

(** The listener of a brush: a selection is stored, an empty one deletes
    the entry. *)
Definition on_brush (dimKey : dimension) (selection : option (Q * Q)) (b : brushes)
  : brushes :=
  λ dim, if decide (dim = dimKey) then selection else b dim.

(** [yPos >= y0 && yPos <= y1] *)
Definition within (b : brushes) (d : FullSchool) (dimKey : dimension) : bool :=
  match b dimKey with
  | None => true
  | Some (y0, y1) =>
      let yPos := scales dimKey (value_on dimKey d) in
      Qle_bool y0 yPos && Qle_bool yPos y1
  end.

(** [activeFilters.every(...)] *)
Definition isVisible (b : brushes) (d : FullSchool) : bool :=
  forallb (within b d) dimensions.

(** The opacity [filterLines] gives the line of [d]. *)
Definition filterLines (b : brushes) (d : FullSchool) : Q :=
  if isPurdue (base d) then 0.8
  else if isVisible b d then ParallelCoordinates.lineOpacity
  else 0.05.
End FilterLines.

(** ** The ranks of the poster ([main.js]) *)

(** [s.bpm > purdue.bpm] and [s.trope_count > purdue.trope_count] *)
Definition faster (purdue s : School) : Prop := gtb (bpm s) (bpm purdue) = true.
Definition more_tropes (purdue s : School) : Prop :=
  gtb (trope_count s) (trope_count purdue) = true.

#[export] Instance faster_dec purdue s : Decision (faster purdue s).
Proof. unfold faster. apply _. Defined.

#[export] Instance more_tropes_dec purdue s : Decision (more_tropes purdue s).
Proof. unfold more_tropes. apply _. Defined.

Record Ranks : Type := {
  bpmRank : nat;
  tropeRank : nat;
  bigTenBpmRank : nat
}.

(** [populatePosterStats]: the three ranks it prints, [None] when
    [getPurdue()] finds nothing and it returns at once. *)
Definition populatePosterStats (schools : list School) : option Ranks :=
  match getPurdue schools with
  | None => None
  | Some purdue =>
      let bigTenSchools := filter (λ s, conference s = "Big Ten") schools in
      Some {| bpmRank := length (filter (faster purdue) schools) + 1;
              tropeRank := length (filter (more_tropes purdue) schools) + 1;
              bigTenBpmRank := length (filter (faster purdue) bigTenSchools) + 1 |}
  end.

End Interaction.

(* ===================================================================== *)
(** * [debounce] and [throttle] ([utils.js]) *)
(* ===================================================================== *)

Module Timers.

Section Timers.
(** The arguments of a call. *)
Context {Args : Type}.

(** What happens to the function [debounce] or [throttle] returns: it is
    called, or the timer it has set fires. *)
Inductive event : Type :=
| Call (args : Args)
| Fire.

(** [debounce(func, wait)]: [timeout] is the pending timer with the
    arguments its closure [later] holds, [None] when none is pending;
    [d_calls] are the calls of [func] so far. *)
Record debounced : Type := {
  timeout : option Args;
  d_calls : list Args
}.

Definition debounce_step (s : debounced) (e : event) : debounced :=
  match e with
  | Call args => {| timeout := Some args; d_calls := d_calls s |}
  | Fire =>
      match timeout s with
      | Some args => {| timeout := None; d_calls := d_calls s ++ [args] |}
      | None => s
      end
  end.

Definition debounce (events : list event) : debounced :=
  foldl debounce_step {| timeout := None; d_calls := [] |} events.

(** [throttle(func, limit)]: [inThrottle] and the calls of [func] so far. *)
Record throttled : Type := {
  inThrottle : bool;
  t_calls : list Args
}.

Definition throttle_step (s : throttled) (e : event) : throttled :=
  match e with
  | Call args =>
      if inThrottle s then s
      else {| inThrottle := true; t_calls := t_calls s ++ [args] |}
  | Fire => {| inThrottle := false; t_calls := t_calls s |}
  end.

Definition throttle (events : list event) : throttled :=
  foldl throttle_step {| inThrottle := false; t_calls := [] |} events.
End Timers.

End Timers.
(* ===================================================================== *)
(** * Facts about the store *)
(* ===================================================================== *)

Module StoreFacts.
Import Store.

Lemma getState_write k k' v s :
  getState k (write k' v s) = if decide (k' = k) then v else getState k s.
Proof.
  unfold getState, write; simpl. rewrite lookup_insert. by destruct (decide (k' = k)).
Qed.

Lemma getState_write_eq k v s : getState k (write k v s) = v.
Proof. unfold getState, write; simpl. by rewrite lookup_insert_eq. Qed.

Lemma getState_write_ne k k' v s : k' ≠ k → getState k (write k' v s) = getState k s.
Proof. intros. unfold getState, write; simpl. by rewrite lookup_insert_ne. Qed.

Lemma getState_record k e s : getState k (record e s) = getState k s.
Proof. done. Qed.

Lemma current_record K e tr :
  current K tr →
  (∀ c arg stored, e = Called c K arg stored → arg = stored) →
  current K (tr ++ [e]).
Proof.
  intros Htr He c arg stored [Hin | Hin%list_elem_of_singleton]%elem_of_app; eauto.
Qed.

Section NotThrown.
Variable body : cbid -> value -> prog.

Lemma notify_from_not_thrown fuel k v i s :
  (notify_from body fuel k v i s).1 ≠ Thrown.
Proof.
  revert i s. induction fuel as [|fuel IH]; intros i s; simpl; [done|].
  destruct (listeners s !! k) as [es|]; [|done].
  destruct (es !! i) as [[c|]|]; [|by apply IH|done].
  destruct (run _ _ _) as [[] s']; [apply IH|apply IH|done].
Qed.

Lemma setState_not_thrown fuel k v s : (setState body fuel k v s).1 ≠ Thrown.
Proof.
  unfold setState, setState_with. destruct (strict_neq _ _); [|done].
  apply notify_from_not_thrown.
Qed.
End NotThrown.

Section Current.
Variable body : cbid -> value -> prog.
Variable K : string.
Hypothesis body_never_writes : ∀ c v, never_writes K (body c v).

Lemma run_keeps_current nf p s :
  keeps_current K nf →
  current K (trace s) →
  current K (trace (run nf p s).2) ∧
  (never_writes K p → getState K (run nf p s).2 = getState K s).
Proof.
  intros Hnf. revert s.
  induction p as [| |k cont IH|k v next IH|k c next IH|k c next IH
                 |sch conf next IH|name inst next IH]; intros s Hs; simpl.
  - done.
  - done.
  - destruct (IH (getState k s) s Hs) as [H1 H2]. split; [done|]. intros Hnw. by apply H2.
  - unfold setState_with.
    destruct (strict_neq (getState k s) v).
    + destruct (Hnf k v (write k v s)) as [H1 H2].
      { intros ->. by rewrite getState_write_eq. }
      { done. }
      destruct (nf k v (write k v s)) as [[] s'] eqn:E; simpl in *.
      * destruct (IH s' H1) as [H3 H4]. split; [done|].
        intros [Hk Hnw]. rewrite H4, H2 by done.
        by rewrite getState_write_ne.
      * split; [done|]. intros [Hk Hnw]. rewrite H2. by rewrite getState_write_ne.
      * split; [done|]. intros [Hk Hnw]. rewrite H2. by rewrite getState_write_ne.
    + destruct (IH s Hs) as [H3 H4]. split; [done|]. intros [_ Hnw]; auto.
  - destruct (IH (add_listener k c s) Hs) as [H1 H2]. split; [done|]. intros Hnw. by rewrite H2.
  - unfold unsubscribe. destruct (listeners s !! k) as [es|]; simpl; [|done].
    match goal with |- context [run nf next ?s1] => destruct (IH s1 Hs) as [H1 H2] end.
    split; [done|]. intros Hnw. by rewrite H2.
  - unfold initializeState_with.
    set (s1 := write "conferences" conf (write "schools" sch s)).
    assert (Hs1 : current K (trace s1)) by done.
    destruct (Hnf "schools" sch s1) as [H1 H2]; [|done|].
    { intros <-. unfold s1. by rewrite getState_write_ne, getState_write_eq. }
    destruct (nf "schools" sch s1) as [[] s2] eqn:E2; simpl in *.
    + destruct (Hnf "conferences" conf s2) as [H3 H4]; [|done|].
      { intros <-. rewrite H2. unfold s1. by rewrite getState_write_eq. }
      destruct (nf "conferences" conf s2) as [[] s3] eqn:E3; simpl in *.
      * destruct (IH s3 H3) as [H5 H6]. split; [done|].
        intros (Hk1 & Hk2 & Hnw). rewrite H6, H4, H2 by done. unfold s1.
        by rewrite !getState_write_ne.
      * split; [done|]. intros (Hk1 & Hk2 & Hnw). rewrite H4, H2. unfold s1.
        by rewrite !getState_write_ne.
      * split; [done|]. intros (Hk1 & Hk2 & Hnw). rewrite H4, H2. unfold s1.
        by rewrite !getState_write_ne.
    + split; [done|]. intros (Hk1 & Hk2 & Hnw). rewrite H2. unfold s1.
      by rewrite !getState_write_ne.
    + split; [done|]. intros (Hk1 & Hk2 & Hnw). rewrite H2. unfold s1.
      by rewrite !getState_write_ne.
  - unfold registerModule.
    destruct (IH (write name inst s) Hs) as [H1 H2]. split; [done|].
    intros [Hk Hnw]. rewrite H2 by done. by rewrite getState_write_ne.
Qed.

Lemma notify_from_keeps_current fuel i :
  ∀ k v s,
    (k = K → getState K s = v) → current K (trace s) →
    current K (trace (notify_from body fuel k v i s).2) ∧
    getState K (notify_from body fuel k v i s).2 = getState K s.
Proof.
  revert i. induction fuel as [|fuel IH]; intros i k v s Hkv Hs; simpl; [done|].
  destruct (listeners s !! k) as [es|]; [|done].
  destruct (es !! i) as [[c|]|]; [|by apply IH|done].
  set (s0 := record (Called c k v (getState k s)) s).
  assert (Hs0 : current K (trace s0)).
  { apply current_record; [done|]. intros c' a st ?; simplify_eq. symmetry; auto. }
  destruct (run_keeps_current (λ k' v' s', notify_from body fuel k' v' 0 s') (body c v) s0)
    as [H1 H2]; [intros k' v' s' ??; by apply IH|done|].
  specialize (H2 (body_never_writes c v)).
  change (getState K s0) with (getState K s) in H2.
  destruct (run _ (body c v) s0) as [[] s'] eqn:E; simpl in *.
  - destruct (IH (S i) k v s') as [H3 H4]; [by rewrite H2; auto|done|].
    split; [done|]. by rewrite H4, H2.
  - destruct (IH (S i) k v (record (Logged k) s')) as [H3 H4].
    { rewrite getState_record, H2. auto. }
    { apply current_record; [done|]. by intros. }
    split; [done|]. by rewrite H4, getState_record, H2.
  - done.
Qed.

Lemma exec_keeps_current fuel p s :
  current K (trace s) → current K (trace (exec body fuel p s).2).
Proof.
  intros Hs. apply run_keeps_current; [|done].
  intros k v s' ??. by apply notify_from_keeps_current.
Qed.
End Current.


(** ** The listener sets *)

Lemma elem_of_members c es : c ∈ members es ↔ Some c ∈ es.
Proof.
  unfold members. rewrite list_elem_of_omap. split.
  - intros ([c'|] & Hin & Heq); simplify_eq/=. done.
  - intros Hin. by exists (Some c).
Qed.

Lemma members_app es1 es2 : members (es1 ++ es2) = members es1 ++ members es2.
Proof. apply omap_app. Qed.

Lemma members_set_add c es :
  members (set_add c es) = if bool_decide (c ∈ members es) then members es else members es ++ [c].
Proof.
  unfold set_add. rewrite (bool_decide_ext (Some c ∈ es) (c ∈ members es))
    by (by rewrite elem_of_members).
  destruct (bool_decide (c ∈ members es)); [done|]. by rewrite members_app.
Qed.

Lemma members_set_delete c es :
  members (set_delete c es) = filter (λ c', c' ≠ c) (members es).
Proof.
  induction es as [|[c'|] es IH]; simpl; [done| |done].
  unfold members in *. simpl. rewrite filter_cons.
  destruct (decide (c' = c)) as [->|Hne].
  - rewrite bool_decide_true by done. simpl. by rewrite decide_False by (intros ?; done).
  - rewrite bool_decide_false by congruence. simpl. rewrite decide_True by done.
    by rewrite IH.
Qed.

Lemma subscribers_write K k v s : subscribers K (write k v s) = subscribers K s.
Proof. done. Qed.

Lemma subscribers_record K e s : subscribers K (record e s) = subscribers K s.
Proof. done. Qed.

Lemma subscribers_add_listener K k c s :
  subscribers K (add_listener k c s) =
  if decide (k = K)
  then (if bool_decide (c ∈ subscribers K s) then subscribers K s else subscribers K s ++ [c])
  else subscribers K s.
Proof.
  unfold subscribers, add_listener; simpl. destruct (decide (k = K)) as [->|Hne].
  - rewrite lookup_insert_eq. simpl. by rewrite members_set_add.
  - by rewrite lookup_insert_ne.
Qed.

Lemma unsubscribe_spec K C s es :
  listeners s !! K = Some es →
  ∃ s', unsubscribe K C s = (Normal, s') ∧
        state s' = state s ∧ trace s' = trace s ∧
        subscribers K s' = filter (λ c, c ≠ C) (subscribers K s) ∧
        (∀ k, k ≠ K → listeners s' !! k = listeners s !! k).
Proof.
  intros Hes. unfold unsubscribe. rewrite Hes. eexists; split; [done|]. simpl.
  split_and!; [done|done| |].
  - unfold subscribers; simpl. rewrite lookup_insert_eq, Hes. simpl. by rewrite members_set_delete.
  - intros k Hk. by rewrite lookup_insert_ne.
Qed.

Lemma subscribers_unsubscribe K k c s :
  subscribers K (unsubscribe k c s).2 =
  if decide (k = K) then filter (λ c', c' ≠ c) (subscribers K s) else subscribers K s.
Proof.
  unfold unsubscribe. destruct (listeners s !! k) as [es|] eqn:Hes; simpl.
  - unfold subscribers; simpl. destruct (decide (k = K)) as [->|Hne].
    + rewrite lookup_insert_eq, Hes. simpl. by rewrite members_set_delete.
    + by rewrite lookup_insert_ne.
  - destruct (decide (k = K)) as [->|Hne]; [|done].
    unfold subscribers. by rewrite Hes.
Qed.

(** ** Relations every run preserves *)

Section Preserved.
Variable body : cbid → value → prog.
Variable R : store → store → Prop.
Hypothesis R_refl : ∀ s, R s s.
Hypothesis R_trans : ∀ s1 s2 s3, R s1 s2 → R s2 s3 → R s1 s3.
Hypothesis R_write : ∀ k v s, R s (write k v s).
Hypothesis R_record : ∀ e s, R s (record e s).
Hypothesis R_add : ∀ k c s, R s (add_listener k c s).
Hypothesis R_unsubscribe : ∀ k c s, R s (unsubscribe k c s).2.

Lemma run_preserved nf p s :
  (∀ k v s', R s' (nf k v s').2) → R s (run nf p s).2.
Proof.
  intros Hnf. revert s.
  induction p as [| |k cont IH|k v next IH|k c next IH|k c next IH
                 |sch conf next IH|name inst next IH]; intros s; simpl; eauto.
  - unfold setState_with. destruct (strict_neq _ _); [|by eauto].
    pose proof (Hnf k v (write k v s)) as H.
    destruct (nf k v (write k v s)) as [[] s']; simpl in *; eauto.
  - pose proof (R_unsubscribe k c s) as H.
    destruct (unsubscribe k c s) as [[] s']; simpl in *; eauto.
  - unfold initializeState_with.
    set (s1 := write "conferences" conf (write "schools" sch s)).
    assert (R s s1) by (unfold s1; eauto).
    pose proof (Hnf "schools" sch s1) as H1.
    destruct (nf "schools" sch s1) as [[] s2]; simpl in *; eauto.
    pose proof (Hnf "conferences" conf s2) as H2.
    destruct (nf "conferences" conf s2) as [[] s3]; simpl in *; eauto 6.
Qed.

Lemma notify_from_preserved fuel k v i s : R s (notify_from body fuel k v i s).2.
Proof.
  revert k v i s. induction fuel as [|fuel IH]; intros k v i s; simpl; [done|].
  destruct (listeners s !! k) as [es|]; [|done].
  destruct (es !! i) as [[c|]|]; [|by apply IH|done].
  match goal with |- context [run ?nf ?p ?s0] =>
    pose proof (run_preserved nf p s0 (λ k' v' s', IH k' v' 0 s')) as H;
    destruct (run nf p s0) as [[] s'] end; simpl in *; eauto 6.
Qed.

Lemma exec_preserved fuel p s : R s (exec body fuel p s).2.
Proof. apply run_preserved. intros. apply notify_from_preserved. Qed.
End Preserved.

(** The [Set] of a key, once created, stays in the [Map]. *)
Lemma exec_listeners_persist body fuel p s K :
  is_Some (listeners s !! K) → is_Some (listeners (exec body fuel p s).2 !! K).
Proof.
  apply (exec_preserved body (λ s s', is_Some (listeners s !! K) → is_Some (listeners s' !! K)));
    clear; try (by auto).
  - intros k c s [es Hes]. unfold add_listener; simpl.
    destruct (decide (k = K)) as [->|]; [rewrite lookup_insert_eq|rewrite lookup_insert_ne]; eauto.
  - intros k c s [es Hes]. unfold unsubscribe.
    destruct (listeners s !! k) as [es'|] eqn:E; simpl; [|by eauto].
    destruct (decide (k = K)) as [->|]; [rewrite lookup_insert_eq|rewrite lookup_insert_ne]; eauto.
Qed.

(** ** After unsubscribing *)

Lemma calls_to_app C K tr1 tr2 : calls_to C K (tr1 ++ tr2) = calls_to C K tr1 ++ calls_to C K tr2.
Proof. apply filter_app. Qed.

Section Unsubscribed.
Variable body : cbid → value → prog.
Variables (K : string) (C : cbid).
Hypothesis body_never_subscribes : ∀ c v, never_subscribes K C (body c v).

Lemma silent_refl s : silent K C s s.
Proof. by intros ?. Qed.

Lemma silent_trans s1 s2 s3 : silent K C s1 s2 → silent K C s2 s3 → silent K C s1 s3.
Proof.
  intros H12 H23 H1. destruct (H12 H1) as [H2 E2]. destruct (H23 H2) as [H3 E3].
  split; [done|]. by rewrite E3.
Qed.

Lemma silent_write k v s : silent K C s (write k v s).
Proof. by intros ?. Qed.

Lemma silent_unsubscribe k c s : silent K C s (unsubscribe k c s).2.
Proof.
  intros HC. split.
  - rewrite subscribers_unsubscribe. destruct (decide (k = K)); [|done].
    rewrite list_elem_of_filter. tauto.
  - unfold unsubscribe. by destruct (listeners s !! k).
Qed.

Lemma silent_add k c s : ¬ (k = K ∧ c = C) → silent K C s (add_listener k c s).
Proof.
  intros Hne HC. split; [|done].
  rewrite subscribers_add_listener. destruct (decide (k = K)) as [->|]; [|done].
  destruct (bool_decide _); [done|].
  rewrite elem_of_app, list_elem_of_singleton. intros [?| ->]; tauto.
Qed.

Lemma run_silent nf p s :
  (∀ k v s', silent K C s' (nf k v s').2) →
  never_subscribes K C p → silent K C s (run nf p s).2.
Proof.
  intros Hnf. revert s.
  induction p as [| |k cont IH|k v next IH|k c next IH|k c next IH
                 |sch conf next IH|name inst next IH]; intros s Hp; simpl in *;
    try apply silent_refl.
  - by apply IH.
  - unfold setState_with. destruct (strict_neq _ _); [|by auto].
    pose proof (Hnf k v (write k v s)) as H.
    pose proof (silent_write k v s) as Hw.
    destruct (nf k v (write k v s)) as [[] s']; simpl in *; eauto using silent_trans.
  - destruct Hp as [Hne Hp]. eapply silent_trans; [by apply silent_add|by apply IH].
  - pose proof (silent_unsubscribe k c s) as H.
    destruct (unsubscribe k c s) as [[] s']; simpl in *; eauto using silent_trans.
  - unfold initializeState_with.
    set (s1 := write "conferences" conf (write "schools" sch s)).
    assert (silent K C s s1) by (by intros ?).
    pose proof (Hnf "schools" sch s1) as H1.
    destruct (nf "schools" sch s1) as [[] s2]; simpl in *; eauto using silent_trans.
    pose proof (Hnf "conferences" conf s2) as H2.
    destruct (nf "conferences" conf s2) as [[] s3]; simpl in *; eauto 6 using silent_trans.
  - unfold registerModule. eapply silent_trans; [apply silent_write|by apply IH].
Qed.

Lemma notify_from_silent fuel k v i s : silent K C s (notify_from body fuel k v i s).2.
Proof.
  revert k v i s. induction fuel as [|fuel IH]; intros k v i s; simpl;
    [apply silent_refl|].
  destruct (listeners s !! k) as [es|] eqn:Hes; [|apply silent_refl].
  destruct (es !! i) as [[c|]|] eqn:Hi; [|by apply IH|apply silent_refl].
  set (s0 := record (Called c k v (getState k s)) s).
  assert (H0 : silent K C s s0).
  { intros HC. split; [done|]. unfold s0, record; simpl.
    rewrite calls_to_app. simpl. unfold calls_to at 2. rewrite filter_cons. simpl.
    rewrite decide_False; [by rewrite filter_nil, app_nil_r|].
    rewrite bool_decide_eq_true. intros [-> ->]. apply HC.
    unfold subscribers. rewrite Hes. simpl. apply elem_of_members.
    by eapply list_elem_of_lookup_2. }
  assert (Hlog : ∀ s', silent K C s' (record (Logged k) s')).
  { intros s' HC. split; [done|]. unfold record; simpl.
    by rewrite calls_to_app, app_nil_r. }
  pose proof (run_silent (λ k' v' s', notify_from body fuel k' v' 0 s') (body c v) s0
                (λ k' v' s', IH k' v' 0 s') (body_never_subscribes c v)) as H.
  destruct (run _ (body c v) s0) as [[] s']; simpl in *;
    eauto 6 using silent_trans.
Qed.

Lemma exec_silent fuel p s :
  never_subscribes K C p → silent K C s (exec body fuel p s).2.
Proof. apply run_silent. intros. apply notify_from_silent. Qed.
End Unsubscribed.



Section Passive.
Variable body : cbid → value → prog.
Hypothesis body_passive : ∀ c v, passive (body c v).

Lemma run_passive nf p s :
  passive p → run nf p s = (if throws p (state s) then Thrown else Normal, s).
Proof.
  induction p as [| |k cont IH| | | | |]; simpl; try done.
  intros Hp. by apply IH.
Qed.

Lemma pass_events_cons k v st c cs :
  pass_events body k v st (c :: cs) =
  (Called c k v (default VUndefined (st !! k))
     :: if throws (body c v) st then [Logged k] else []) ++ pass_events body k v st cs.
Proof. done. Qed.

(** One pass of [forEach] over the entries from [i] on calls every member
    once, in order, whatever the earlier ones did. *)
Lemma notify_from_passive fuel k v i s es :
  listeners s !! k = Some es →
  length es - i < fuel →
  notify_from body fuel k v i s =
  (Normal, Store (state s) (listeners s)
             (trace s ++ pass_events body k v (state s) (members (drop i es)))).
Proof.
  revert i s. induction fuel as [|fuel IH]; intros i s Hes Hfuel; [lia|].
  simpl. rewrite Hes.
  destruct (es !! i) as [e|] eqn:Hi.
  - rewrite (drop_S _ _ _ Hi).
    assert (i < length es) by (by eapply lookup_lt_Some).
    destruct e as [c|].
    + rewrite run_passive by done.
      change (members (Some c :: drop (S i) es)) with (c :: members (drop (S i) es)).
      rewrite pass_events_cons.
      change (state (record (Called c k v (getState k s)) s)) with (state s).
      destruct (throws (body c v) (state s)) eqn:Hthrow;
        rewrite IH by (done || lia); unfold record, getState; simpl;
        f_equal; f_equal; by rewrite <- !app_assoc.
    + rewrite IH by (done || lia). done.
  - apply lookup_ge_None in Hi. rewrite drop_ge by done. simpl.
    unfold pass_events. simpl. rewrite app_nil_r. by destruct s.
Qed.

Lemma notify_passive fuel k v s :
  length (default [] (listeners s !! k)) < fuel →
  notify body fuel k v s =
  (Normal, Store (state s) (listeners s)
             (trace s ++ pass_events body k v (state s) (subscribers k s))).
Proof.
  intros Hfuel. unfold notify, subscribers.
  destruct (listeners s !! k) as [es|] eqn:Hes; simpl in *.
  - rewrite (notify_from_passive fuel k v 0 s es) by (done || lia). by rewrite drop_0.
  - destruct fuel; [lia|]. simpl. rewrite Hes. unfold pass_events. simpl.
    rewrite app_nil_r. by destruct s.
Qed.

Lemma setState_passive fuel k v s :
  strict_neq (getState k s) v = true →
  length (default [] (listeners s !! k)) < fuel →
  setState body fuel k v s =
  (Normal, Store (<[k := v]> (state s)) (listeners s)
             (trace s ++ pass_events body k v (<[k := v]> (state s)) (subscribers k s))).
Proof.
  intros Hne Hfuel. unfold setState, setState_with. rewrite Hne.
  by rewrite notify_passive.
Qed.

Lemma elem_of_pass_events e k v st cs :
  e ∈ pass_events body k v st cs ↔
  ∃ c, c ∈ cs ∧ (e = Called c k v (default VUndefined (st !! k)) ∨
                 (e = Logged k ∧ throws (body c v) st = true)).
Proof.
  unfold pass_events. rewrite list_elem_of_bind. split.
  - intros (c & He & Hc). exists c. split; [done|].
    apply elem_of_cons in He as [->|He]; [by left|].
    destruct (throws _ _); [|by apply elem_of_nil in He].
    apply list_elem_of_singleton in He as ->. by right.
  - intros (c & Hc & [->|[-> Ht]]); exists c; (split; [|done]).
    + apply elem_of_cons; by left.
    + rewrite Ht. apply elem_of_cons; right. by apply list_elem_of_singleton.
Qed.
End Passive.

Lemma setState_same body fuel k v s :
  strict_eq (getState k s) v = true → setState body fuel k v s = (Normal, s).
Proof.
  intros Heq. unfold setState, setState_with, strict_neq. by rewrite Heq.
Qed.

Lemma strict_eq_refl v : v ≠ VNaN → strict_eq v v = true.
Proof. intros Hv. destruct v; try done; simpl; by rewrite bool_decide_true. Qed.

Lemma strict_eq_true a b : strict_eq a b = true ↔ a = b ∧ a ≠ VNaN.
Proof.
  split.
  - destruct a, b; simpl; try done; intros ?%bool_decide_eq_true; by simplify_eq.
  - intros [-> Hb]. by apply strict_eq_refl.
Qed.


Lemma wf_subscribers k s : wf_listeners s → NoDup (subscribers k s).
Proof.
  intros Hwf. unfold subscribers. destruct (listeners s !! k) as [es|] eqn:E; simpl.
  - by eapply Hwf.
  - constructor.
Qed.

Lemma exec_wf_listeners body fuel p s :
  wf_listeners s → wf_listeners (exec body fuel p s).2.
Proof.
  apply (exec_preserved body (λ s s', wf_listeners s → wf_listeners s')); clear; try (by auto).
  - intros k c s Hwf k' es. unfold add_listener; simpl.
    destruct (decide (k = k')) as [->|]; [rewrite lookup_insert_eq|rewrite lookup_insert_ne by done];
      [|by apply Hwf].
    intros [= <-]. rewrite members_set_add.
    pose proof (wf_subscribers k' s Hwf) as Hnd. unfold subscribers in Hnd.
    destruct (bool_decide _) eqn:E; [done|].
    apply bool_decide_eq_false in E.
    apply NoDup_app. split_and!; [done| |apply NoDup_singleton].
    intros x Hx ->%list_elem_of_singleton. done.
  - intros k c s Hwf k' es. unfold unsubscribe.
    destruct (listeners s !! k) as [es'|] eqn:E; simpl; [|by apply Hwf].
    destruct (decide (k = k')) as [->|]; [rewrite lookup_insert_eq|rewrite lookup_insert_ne by done];
      [|by apply Hwf].
    intros [= <-]. rewrite members_set_delete. apply NoDup_filter. by eapply Hwf.
Qed.

Lemma initial_store_wf : wf_listeners initial_store.
Proof. intros k es. unfold initial_store; simpl. by rewrite lookup_empty. Qed.

Lemma calls_to_pass_events_notin body C K v st cs :
  C ∉ cs → calls_to C K (pass_events body K v st cs) = [].
Proof.
  induction cs as [|c cs IH]; intros Hnin; [done|].
  apply not_elem_of_cons in Hnin as [Hne Hnin].
  rewrite pass_events_cons, calls_to_app.
  rewrite IH, app_nil_r by done.
  unfold calls_to. rewrite filter_cons. simpl.
  rewrite decide_False by (rewrite bool_decide_eq_true; intros [? _]; congruence).
  by destruct (throws _ _).
Qed.

Lemma calls_to_pass_events body C K v st cs :
  NoDup cs → C ∈ cs →
  calls_to C K (pass_events body K v st cs) = [Called C K v (default VUndefined (st !! K))].
Proof.
  induction cs as [|c cs IH]; intros Hnd Hin; [by apply elem_of_nil in Hin|].
  apply NoDup_cons in Hnd as [Hnin Hnd].
  rewrite pass_events_cons, calls_to_app.
  destruct (decide (c = C)) as [->|Hne].
  - rewrite calls_to_pass_events_notin, app_nil_r by done.
    unfold calls_to. rewrite filter_cons. simpl.
    rewrite decide_True by (by rewrite bool_decide_eq_true).
    by destruct (throws _ _).
  - apply elem_of_cons in Hin as [?|Hin]; [congruence|].
    rewrite IH by done.
    unfold calls_to. rewrite filter_cons. simpl.
    rewrite decide_False by (rewrite bool_decide_eq_true; intros [? _]; congruence).
    by destruct (throws _ _).
Qed.

Lemma exec_SetState body fuel k v s :
  exec body fuel (SetState k v Ret) s = setState body fuel k v s.
Proof.
  unfold exec, setState; simpl. by destruct (setState_with _ k v s) as [[] s'].
Qed.

Lemma exec_InitializeState body fuel schools conferences s :
  exec body fuel (InitializeState schools conferences Ret) s
  = initializeState body fuel schools conferences s.
Proof.
  unfold exec, initializeState; simpl.
  by destruct (initializeState_with _ schools conferences s) as [[] s'].
Qed.

(** C1, as stated, fails: with callbacks 0, 1 and 2 on [currentAct] and
    callback 0 re-entering [setState], the outer pass goes on to call
    callback 1 with 2 while 3 is stored. *)
Lemma stale_value_after_reentrant_setState :
  ¬ current "currentAct"
      (trace (setCurrentAct hasty 10 (VNum 2) (three_on "currentAct")).2).
Proof.
  intros H. specialize (H 1 (VNum 2) (VNum 3)).
  assert (VNum 2 = VNum 3) as [=]. apply H.
  vm_compute. do 4 apply list_elem_of_further. apply list_elem_of_here.
Qed.

(** C1 (amended): for every key K, as long as no callback writes K while a
    notification runs, every call a notification makes to a callback for K
    passes the value stored for K at that moment: in [setState], in
    [initializeState] and in any client code calling them. *)
Theorem notify_passes_stored_value body K s :
  (∀ c v, never_writes K (body c v)) →
  current K (trace s) →
  (∀ fuel k v, current K (trace (setState body fuel k v s).2)) ∧
  (∀ fuel schools conferences,
     current K (trace (initializeState body fuel schools conferences s).2)) ∧
  (∀ fuel p, current K (trace (exec body fuel p s).2)).
Proof.
  intros Hbody Hs. split_and!.
  - intros fuel k v. rewrite <- exec_SetState. by apply exec_keeps_current.
  - intros fuel schools conferences. rewrite <- exec_InitializeState.
    by apply exec_keeps_current.
  - intros fuel p. by apply exec_keeps_current.
Qed.

Lemma notify_passes_stored_value_witness :
  current "activeConference"
    (trace (setConferenceFilter redraw 5 (VStr "SEC") (three_on "activeConference")).2).
Proof.
  destruct (notify_passes_stored_value redraw "activeConference"
              (three_on "activeConference")) as (Hset & _).
  - intros c v. simpl. done.
  - intros c arg stored Hin. vm_compute in Hin. inversion Hin.
  - apply Hset.
Defined.

(** Away from [NaN] the second [setState] is the no-op its comment promises:
    for every key K and every value V1 other than [NaN], with subscribers
    that do not call back into the store and a stored value [!==] V1,
    [setState(K, V1)] calls each subscriber of K exactly once, with V1, and a
    second [setState(K, V1)] leaves the store as it is and calls nobody. *)
Theorem setState_twice_notifies_once body fuel K V1 s :
  (∀ c v, passive (body c v)) →
  V1 ≠ VNaN →
  strict_neq (getState K s) V1 = true →
  NoDup (subscribers K s) →
  length (default [] (listeners s !! K)) < fuel →
  ∃ s1,
    setState body fuel K V1 s = (Normal, s1) ∧
    getState K s1 = V1 ∧
    (∀ c, c ∈ subscribers K s →
          calls_to c K (trace s1) = calls_to c K (trace s) ++ [Called c K V1 V1]) ∧
    (∀ c, c ∉ subscribers K s → calls_to c K (trace s1) = calls_to c K (trace s)) ∧
    setState body fuel K V1 s1 = (Normal, s1).
Proof.
  intros Hbody HV1 Hne Hnd Hfuel. eexists. split; [by apply setState_passive|].
  assert (Hget : default VUndefined (<[K:=V1]> (state s) !! K) = V1)
    by (by rewrite lookup_insert_eq).
  split_and!.
  - unfold getState; simpl. done.
  - intros c Hc. simpl. rewrite calls_to_app, calls_to_pass_events by done. by rewrite Hget.
  - intros c Hc. simpl. by rewrite calls_to_app, calls_to_pass_events_notin, app_nil_r.
  - apply setState_same. unfold getState; simpl. rewrite Hget. by apply strict_eq_refl.
Qed.

Lemma setState_twice_notifies_once_witness :
  ∃ s1,
    setState redraw 5 "activeConference" (VStr "SEC") (three_on "activeConference")
      = (Normal, s1) ∧
    getState "activeConference" s1 = VStr "SEC" ∧
    (∀ c, c ∈ subscribers "activeConference" (three_on "activeConference") →
          calls_to c "activeConference" (trace s1)
          = calls_to c "activeConference" (trace (three_on "activeConference"))
            ++ [Called c "activeConference" (VStr "SEC") (VStr "SEC")]) ∧
    (∀ c, c ∉ subscribers "activeConference" (three_on "activeConference") →
          calls_to c "activeConference" (trace s1)
          = calls_to c "activeConference" (trace (three_on "activeConference"))) ∧
    setState redraw 5 "activeConference" (VStr "SEC") s1 = (Normal, s1).
Proof.
  apply setState_twice_notifies_once.
  - intros c v. simpl. done.
  - discriminate.
  - reflexivity.
  - apply (bool_decide_unpack _). vm_compute. exact I.
  - vm_compute. lia.
Defined.

(** C2: the code breaks the claim, and its own comment "Only update and
    notify if value actually changed", at [V1 = NaN].  With 1 stored for
    [currentAct] and three subscribers, [setState('currentAct', NaN)] stores
    [NaN] and calls the three; the guard [oldValue !== value] then holds
    again, because [NaN !== NaN], and a second [setState('currentAct', NaN)]
    notifies once more: every subscriber is called twice. *)
Lemma setState_NaN_twice_notifies_twice :
  let s := three_on "currentAct" in
  let s1 := (setState redraw 5 "currentAct" VNaN s).2 in
  let s2 := (setState redraw 5 "currentAct" VNaN s1).2 in
  getState "currentAct" s = VNum 1 ∧
  getState "currentAct" s1 = VNaN ∧
  trace s1 = [Called 0 "currentAct" VNaN VNaN; Called 1 "currentAct" VNaN VNaN;
              Called 2 "currentAct" VNaN VNaN] ∧
  trace s2 = trace s1 ++ trace s1 ∧
  calls_to 0 "currentAct" (trace s2)
  = [Called 0 "currentAct" VNaN VNaN; Called 0 "currentAct" VNaN VNaN].
Proof. split_and!; reflexivity. Qed.



(** C4: an exception raised by a callback never leaves [setState]; [notify]
    logs it and goes on with the next entry of the [Set], keeping whatever
    the failed callback had done; and with callbacks that only read the
    store, whichever of them fail, [setState(K, v)] returns normally with v
    stored for K, every callback registered for K called once with v, in
    order, and every failure logged. *)
Theorem callback_failures_are_contained body K v :
  (∀ fuel s, (setState body fuel K v s).1 ≠ Thrown) ∧
  (∀ fuel i s es c s',
     listeners s !! K = Some es → es !! i = Some (Some c) →
     run (λ k' v' s0, notify_from body fuel k' v' 0 s0) (body c v)
         (record (Called c K v (getState K s)) s) = (Thrown, s') →
     notify_from body (S fuel) K v i s
     = notify_from body fuel K v (S i) (record (Logged K) s')) ∧
  ((∀ c w, passive (body c w)) →
   ∀ fuel s,
     strict_neq (getState K s) v = true →
     length (default [] (listeners s !! K)) < fuel →
     ∃ s',
       setState body fuel K v s = (Normal, s') ∧
       state s' = <[K := v]> (state s) ∧ getState K s' = v ∧
       listeners s' = listeners s ∧
       trace s' = trace s ++ pass_events body K v (state s') (subscribers K s) ∧
       (∀ c, c ∈ subscribers K s → Called c K v v ∈ trace s') ∧
       (∀ c, c ∈ subscribers K s → throws (body c v) (state s') = true →
             Logged K ∈ trace s')).
Proof.
  split_and!.
  - intros fuel s. apply setState_not_thrown.
  - intros fuel i s es c s' Hes Hi Hrun. simpl. by rewrite Hes, Hi, Hrun.
  - intros Hpassive fuel s Hne Hfuel. eexists. split; [by apply setState_passive|].
    simpl. split_and!; try done.
    + unfold getState; simpl. by rewrite lookup_insert_eq.
    + intros c Hc. apply elem_of_app. right. apply elem_of_pass_events.
      exists c. split; [done|]. left. by rewrite lookup_insert_eq.
    + intros c Hc Hthrows. apply elem_of_app. right. apply elem_of_pass_events.
      exists c. split; [done|]. by right.
Qed.

Lemma callback_failures_are_contained_witness :
  ∃ s',
    setConferenceFilter faulty 4 (VStr "SEC") (three_on "activeConference") = (Normal, s') ∧
    getState "activeConference" s' = VStr "SEC" ∧
    trace s' = [Called 0 "activeConference" (VStr "SEC") (VStr "SEC");
                Logged "activeConference";
                Called 1 "activeConference" (VStr "SEC") (VStr "SEC");
                Called 2 "activeConference" (VStr "SEC") (VStr "SEC")].
Proof.
  destruct (callback_failures_are_contained faulty "activeConference" (VStr "SEC"))
    as (_ & _ & Hpass).
  destruct (Hpass (λ c w, match c with 0 => I | S _ => λ _ _, I end) 4
              (three_on "activeConference"))
    as (s' & Hset & _ & Hget & _ & Htr & _).
  - reflexivity.
  - vm_compute. lia.
  - exists s'. split; [exact Hset|]. split; [exact Hget|].
    rewrite Htr. inversion Hset. reflexivity.
Defined.

End StoreFacts.

(* ===================================================================== *)
(** * Facts about the sorts *)
(* ===================================================================== *)

Module UtilsFacts.
Import Utils.

Local Open Scope Q_scope.

Lemma negative_lt q : negative q = true ↔ q < 0.
Proof.
  unfold negative, Qlt. destruct q as [n d]; simpl.
  rewrite Z.ltb_lt. lia.
Qed.

Lemma not_negative_le q : negative q = false ↔ 0 <= q.
Proof.
  unfold negative, Qle. destruct q as [n d]; simpl.
  rewrite Z.ltb_ge. lia.
Qed.

(** ** The sort returns the same elements *)

Section Permutation.
Context {A : Type}.
Variable comparefn : A → A → Q.

Lemma insert_Permutation pivot l : insert comparefn pivot l ≡ₚ pivot :: l.
Proof.
  induction l as [|x l IH]; simpl; [done|].
  destruct (negative _); [done|]. rewrite IH. apply Permutation_swap.
Qed.

Lemma fold_insert_Permutation l sorted :
  fold_left (λ sorted pivot, insert comparefn pivot sorted) l sorted ≡ₚ sorted ++ l.
Proof.
  revert sorted. induction l as [|x l IH]; intros sorted; simpl.
  - by rewrite app_nil_r.
  - rewrite IH, insert_Permutation. by rewrite <- Permutation_middle.
Qed.

Lemma array_sort_Permutation l : array_sort comparefn l ≡ₚ l.
Proof. unfold array_sort. by rewrite fold_insert_Permutation. Qed.
End Permutation.

(** ** The sort orders, for an order the comparator decides *)

Section Sorted.
Context {A : Type}.
Variable comparefn : A → A → Q.
Variable R : A → A → Prop.
Hypothesis R_trans : ∀ a b c, R a b → R b c → R a c.
Hypothesis precedes : ∀ pivot x, negative (comparefn pivot x) = true → R pivot x.
Hypothesis follows : ∀ pivot x, negative (comparefn pivot x) = false → R x pivot.

Lemma insert_StronglySorted pivot l :
  StronglySorted R l → StronglySorted R (insert comparefn pivot l).
Proof.
  induction l as [|x l IH]; simpl; intros Hl.
  - repeat constructor.
  - apply StronglySorted_cons in Hl as [Hx Hl].
    destruct (negative (comparefn pivot x)) eqn:E.
    + apply StronglySorted_cons. split; [|by apply StronglySorted_cons].
      constructor; [by apply precedes|].
      eapply Forall_impl; [exact Hx|]. intros y Hy. simpl.
      eapply R_trans; [by apply precedes|done].
    + apply StronglySorted_cons. split; [|by apply IH].
      rewrite insert_Permutation. constructor; [by apply follows|done].
Qed.

Lemma array_sort_StronglySorted l : StronglySorted R (array_sort comparefn l).
Proof.
  unfold array_sort.
  assert (H : StronglySorted R (@nil A)) by constructor.
  revert H. generalize (@nil A).
  induction l as [|x l IH]; intros sorted Hs; simpl; [done|].
  apply IH. by apply insert_StronglySorted.
Qed.
End Sorted.

Lemma StronglySorted_lookup {A} (R : A → A → Prop) (l : list A) (i j : nat) a b :
  StronglySorted R l → (i < j)%nat → l !! i = Some a → l !! j = Some b → R a b.
Proof.
  intros Hl. revert i j. induction Hl as [|x l Hl IH Hx]; intros i j Hij Hi Hj.
  - by rewrite lookup_nil in Hi.
  - destruct j as [|j]; [lia|]. simpl in Hj. destruct i as [|i]; simpl in Hi.
    + simplify_eq. eapply Forall_forall in Hx; [done|]. by eapply list_elem_of_lookup_2.
    + apply (IH i j); [lia|done..].
Qed.

(** ** The two orders *)

Lemma faster_first_trans a b c : faster_first a b → faster_first b c → faster_first a c.
Proof. unfold faster_first. lra. Qed.

Lemma by_bpm_precedes pivot x : negative (by_bpm pivot x) = true → faster_first pivot x.
Proof. rewrite negative_lt. unfold by_bpm, faster_first. lra. Qed.

Lemma by_bpm_follows pivot x : negative (by_bpm pivot x) = false → faster_first x pivot.
Proof. rewrite not_negative_le. unfold by_bpm, faster_first. lra. Qed.

Lemma older_first_trans a b c : older_first a b → older_first b c → older_first a c.
Proof.
  unfold older_first. destruct (year a), (year b), (year c); try done. lra.
Qed.

Lemma by_year_precedes pivot x : negative (by_year pivot x) = true → older_first pivot x.
Proof.
  unfold by_year, older_first. destruct (year pivot), (year x); try done.
  rewrite negative_lt. lra.
Qed.

Lemma by_year_follows pivot x : negative (by_year pivot x) = false → older_first x pivot.
Proof.
  unfold by_year, older_first. destruct (year pivot), (year x); try done.
  rewrite not_negative_le. lra.
Qed.

(** ** [sortSchools] allocates, and sorts the copy *)

Lemma sortSchools_copy localeCompare (h : heap) (schools : nat) (sortBy : string) :
  is_Some (h !! schools) →
  ∃ h' sorted,
    sortSchools localeCompare h schools sortBy = (h', sorted) ∧
    sorted = fresh (dom h) ∧ sorted ≠ schools ∧ h !! sorted = None ∧
    (∀ a, a ≠ sorted → h' !! a = h !! a) ∧
    is_Some (h' !! sorted).
Proof.
  intros Hsome. unfold sortSchools, array_copy.
  set (sorted := fresh (dom h)). set (h1 := <[sorted := array_at h schools]> h).
  assert (Hfresh : sorted ∉ dom h) by apply is_fresh.
  assert (Hh1 : ∀ f a, a ≠ sorted → alter f sorted h1 !! a = h !! a).
  { intros f a Ha. unfold h1. by rewrite lookup_alter_ne, lookup_insert_ne. }
  assert (Hh1' : ∀ f, is_Some (alter f sorted h1 !! sorted)).
  { intros f. unfold h1. rewrite lookup_alter_eq, lookup_insert_eq. simpl. eauto. }
  eexists _, sorted. split; [reflexivity|].
  split_and!; [done| | | |].
  - intros Heq. apply Hfresh. rewrite Heq. by apply elem_of_dom.
  - by apply not_elem_of_dom.
  - intros a Ha. unfold sort_in_place.
    repeat (destruct (String.eqb sortBy _)); rewrite ?Hh1 by done; try done.
    unfold h1. by rewrite lookup_insert_ne.
  - unfold sort_in_place.
    repeat (destruct (String.eqb sortBy _)); try apply Hh1'.
    unfold h1. rewrite lookup_insert_eq. eauto.
Qed.

Lemma sortSchools_year localeCompare (h : heap) (schools : nat) :
  array_at (sortSchools localeCompare h schools "year").1
           (sortSchools localeCompare h schools "year").2
  = array_sort by_year (array_at h schools).
Proof.
  unfold sortSchools, array_copy, sort_in_place, array_at; simpl.
  by rewrite lookup_alter_eq, lookup_insert_eq.
Qed.

Lemma sortSchools_bpm localeCompare (h : heap) (schools : nat) :
  array_at (sortSchools localeCompare h schools "bpm").1
           (sortSchools localeCompare h schools "bpm").2
  = array_sort by_bpm (array_at h schools).
Proof.
  unfold sortSchools, array_copy, sort_in_place, array_at; simpl.
  by rewrite lookup_alter_eq, lookup_insert_eq.
Qed.

(** C10: [sortSchools(schools, 'year')] returns a new array and leaves every
    other array, [schools] among them, as it was; the new array holds the
    same records, no record with a [null] year stands before one with a
    year, and the records with a year stand in non-decreasing year order. *)
Theorem sortSchools_year_sorted localeCompare (h : heap) (schools : nat) (l : list School) :
  h !! schools = Some l →
  ∃ h' sorted,
    sortSchools localeCompare h schools "year" = (h', sorted) ∧
    sorted ≠ schools ∧ h !! sorted = None ∧
    (∀ a, a ≠ sorted → h' !! a = h !! a) ∧
    h' !! schools = Some l ∧
    array_at h' sorted ≡ₚ l ∧
    ∀ i j a b,
      (i < j)%nat → array_at h' sorted !! i = Some a → array_at h' sorted !! j = Some b →
      (year a = None → year b = None) ∧
      (∀ ya yb, year a = Some ya → year b = Some yb → ya <= yb).
Proof.
  intros Hl.
  destruct (sortSchools_copy localeCompare h schools "year")
    as (h' & sorted & Hsort & _ & Hne & Hnew & Hother & _); [by eauto|].
  exists h', sorted.
  assert (Harr : array_at h' sorted = array_sort by_year l).
  { pose proof (sortSchools_year localeCompare h schools) as H.
    rewrite Hsort in H. simpl in H. rewrite H. unfold array_at. by rewrite Hl. }
  split_and!; try done.
  - rewrite Hother by done. done.
  - rewrite Harr. apply array_sort_Permutation.
  - intros i j a b Hij Ha Hb. rewrite Harr in Ha, Hb.
    assert (Hab : older_first a b).
    { eapply (StronglySorted_lookup older_first); [|exact Hij|exact Ha|exact Hb].
      apply array_sort_StronglySorted;
        eauto using older_first_trans, by_year_precedes, by_year_follows. }
    unfold older_first in Hab. split.
    + intros Hya. rewrite Hya in Hab. by destruct (year b).
    + intros ya yb Hya Hyb. by rewrite Hya, Hyb in Hab.
Qed.

Lemma sortSchools_year_sorted_witness :
  ∃ h' sorted,
    sortSchools Views.localeCompare_ascii Views.four_schools 0 "year" = (h', sorted) ∧
    sorted ≠ 0%nat ∧
    h' !! 0%nat = Some [Views.army; Views.alabama; Views.indiana; Views.purdue].
Proof.
  destruct (sortSchools_year_sorted Views.localeCompare_ascii Views.four_schools 0
              [Views.army; Views.alabama; Views.indiana; Views.purdue])
    as (h' & sorted & Hsort & Hne & _ & _ & Hsame & _).
  - reflexivity.
  - exists h', sorted. split; [exact Hsort|]. split; [exact Hne|exact Hsame].
Defined.

End UtilsFacts.

(* ===================================================================== *)
(** * Facts about the views *)
(* ===================================================================== *)

Module ViewsFacts.
Import Utils Views UtilsFacts.

Local Open Scope Q_scope.

(** ** The matrix *)

Lemma columns_lookup (h : heap) (m : TropeMatrix.t) (i : nat) d x :
  TropeMatrix.columns h m !! i = Some (d, x) ↔
  array_at h (TropeMatrix.sortedSchools m) !! i = Some d ∧
  x = inject_Z (Z.of_nat i) * (TropeMatrix.cellWidth m + TropeMatrix.cellGap).
Proof.
  unfold TropeMatrix.columns. rewrite list_lookup_imap.
  destruct (array_at h (TropeMatrix.sortedSchools m) !! i) as [d'|]; simpl.
  - split; [by intros [= -> ->]|by intros [[= ->] ->]].
  - split; [done|by intros [? _]].
Qed.

Lemma columns_schools (h : heap) (m : TropeMatrix.t) :
  (TropeMatrix.columns h m).*1 = array_at h (TropeMatrix.sortedSchools m).
Proof.
  unfold TropeMatrix.columns. apply list_eq. intros i.
  rewrite list_lookup_fmap, list_lookup_imap.
  by destruct (array_at h (TropeMatrix.sortedSchools m) !! i).
Qed.

(** C8: after [resort('bpm')] the columns, from left to right, show the
    records of [schools] with every column's tempo at least that of the
    column to its right. *)
Theorem resort_bpm_non_increasing localeCompare (h : heap) (m : TropeMatrix.t)
    (l : list School) :
  h !! TropeMatrix.schools m = Some l →
  ∃ h' m',
    TropeMatrix.resort localeCompare h m "bpm" = (h', m') ∧
    TropeMatrix.currentSort m' = "bpm" ∧
    (TropeMatrix.columns h' m').*1 ≡ₚ l ∧
    ∀ i a xa b xb,
      TropeMatrix.columns h' m' !! i = Some (a, xa) →
      TropeMatrix.columns h' m' !! S i = Some (b, xb) →
      bpm b <= bpm a ∧
      (TropeMatrix.minCellWidth <= TropeMatrix.cellWidth m → xa < xb).
Proof.
  intros Hl. unfold TropeMatrix.resort.
  pose proof (sortSchools_bpm localeCompare h (TropeMatrix.schools m)) as Harr.
  destruct (sortSchools localeCompare h (TropeMatrix.schools m) "bpm") as [h' sorted].
  simpl in Harr. unfold array_at at 2 in Harr. rewrite Hl in Harr. simpl in Harr.
  eexists _, _. split; [reflexivity|]. split; [done|]. split.
  - rewrite columns_schools. simpl. rewrite Harr. apply array_sort_Permutation.
  - intros i a xa b xb [Ha ->]%columns_lookup [Hb ->]%columns_lookup. simpl in *.
    rewrite Harr in Ha, Hb. split.
    + eapply (StronglySorted_lookup faster_first _ i (S i)); [|lia|done..].
      apply array_sort_StronglySorted;
        eauto using faster_first_trans, by_bpm_precedes, by_bpm_follows.
    + intros Hw. unfold TropeMatrix.minCellWidth, TropeMatrix.cellGap in *.
      apply Qmult_lt_compat_r; [lra|].
      rewrite <- Zlt_Qlt. lia.
Qed.

Lemma resort_bpm_non_increasing_witness :
  ∃ h' m',
    TropeMatrix.resort localeCompare_ascii four_schools matrix_of_four "bpm" = (h', m') ∧
    (TropeMatrix.columns h' m').*1 ≡ₚ [army; alabama; indiana; purdue].
Proof.
  destruct (resort_bpm_non_increasing localeCompare_ascii four_schools matrix_of_four
              [army; alabama; indiana; purdue])
    as (h' & m' & Hresort & _ & Hperm & _).
  - reflexivity.
  - exists h', m'. split; [exact Hresort|exact Hperm].
Defined.

(** ** The similarity network *)

Import NetworkGraph.

Lemma similar_enough_gt (similarity : Q) :
  similar_enough similarity = true ↔ similarityThreshold < similarity.
Proof.
  unfold similar_enough. rewrite negb_true_iff, <- not_true_iff_false, Qle_bool_iff.
  split; [apply Qnot_le_lt|apply Qlt_not_le].
Qed.

Local Opaque NetworkGraph64.calculateSimilarity NetworkGraph64.similarityThreshold Binary64.gt.

Lemma elem_of_links_from (si : School) (later : list School) (l : NetworkGraph64.Link) :
  l ∈ NetworkGraph64.links_from si later ↔
  ∃ j sj, later !! j = Some sj ∧
          l = {| NetworkGraph64.source := school si; NetworkGraph64.target := school sj;
                 NetworkGraph64.similarity := NetworkGraph64.calculateSimilarity si sj |} ∧
          Binary64.gt (NetworkGraph64.calculateSimilarity si sj)
                      NetworkGraph64.similarityThreshold = true.
Proof.
  induction later as [|s later IH]; cbn [NetworkGraph64.links_from].
  - split; [intros H; by apply elem_of_nil in H|].
    intros (j & sj & Hj & _). by rewrite lookup_nil in Hj.
  - rewrite elem_of_app, IH. split.
    + intros [Hl|(j & sj & Hj & Hl & Hsim)].
      * destruct (Binary64.gt _ _) eqn:E; [|by apply elem_of_nil in Hl].
        apply list_elem_of_singleton in Hl. exists 0%nat, s.
        split; [reflexivity|]. split; [exact Hl|exact E].
      * exists (S j), sj. split; [exact Hj|]. split; [exact Hl|exact Hsim].
    + intros ([|j] & sj & Hj & Hl & Hsim); cbn [lookup list_lookup] in Hj.
      * left. injection Hj as ->. rewrite Hsim. apply list_elem_of_singleton. exact Hl.
      * right. exists j, sj. split; [exact Hj|]. split; [exact Hl|exact Hsim].
Qed.

Lemma elem_of_prepareData (schools : list School) (l : NetworkGraph64.Link) :
  l ∈ NetworkGraph64.prepareData schools ↔
  ∃ i j si sj, (i < j)%nat ∧ schools !! i = Some si ∧ schools !! j = Some sj ∧
               l = {| NetworkGraph64.source := school si; NetworkGraph64.target := school sj;
                      NetworkGraph64.similarity := NetworkGraph64.calculateSimilarity si sj |} ∧
               Binary64.gt (NetworkGraph64.calculateSimilarity si sj)
                           NetworkGraph64.similarityThreshold = true.
Proof.
  induction schools as [|s schools IH]; cbn [NetworkGraph64.prepareData].
  - split; [intros H; by apply elem_of_nil in H|].
    intros (i & j & si & sj & _ & Hi & _). by rewrite lookup_nil in Hi.
  - rewrite elem_of_app, IH, elem_of_links_from. split.
    + intros [(j & sj & Hj & Hl & Hsim)|(i & j & si & sj & Hij & Hi & Hj & Hl & Hsim)].
      * exists 0%nat, (S j), s, sj.
        split; [lia|]. split; [reflexivity|]. split; [exact Hj|]. split; [exact Hl|exact Hsim].
      * exists (S i), (S j), si, sj.
        split; [lia|]. split; [exact Hi|]. split; [exact Hj|]. split; [exact Hl|exact Hsim].
    + intros (i & j & si & sj & Hij & Hi & Hj & Hl & Hsim).
      destruct j as [|j]; [lia|]. destruct i as [|i]; cbn [lookup list_lookup] in Hi, Hj.
      * left. injection Hi as ->. exists j, sj.
        split; [exact Hj|]. split; [exact Hl|exact Hsim].
      * right. exists i, j, si, sj.
        split; [lia|]. split; [exact Hi|]. split; [exact Hj|]. split; [exact Hl|exact Hsim].
Qed.

Local Transparent NetworkGraph64.calculateSimilarity NetworkGraph64.similarityThreshold Binary64.gt.

Lemma closeness_range (diff scale : Q) :
  0 <= diff → 0 < scale → 0 <= 1 - Qmin (diff / scale) 1 <= 1.
Proof.
  intros Hd Hs.
  assert (0 <= diff / scale) by (apply Qle_shift_div_l; lra).
  pose proof (Q.le_min_r (diff / scale) 1).
  assert (0 <= Qmin (diff / scale) 1) by (apply Q.min_glb; lra).
  split; lra.
Qed.

Lemma closeness_same (diff scale : Q) :
  diff == 0 → 1 - Qmin (diff / scale) 1 == 1.
Proof.
  intros Hd. rewrite Hd.
  assert (H0 : 0 / scale == 0) by (unfold Qdiv; ring).
  rewrite H0. rewrite Q.min_l by lra. ring.
Qed.

Lemma Qabs_same (x y : Q) : x == y → Qabs (x - y) == 0.
Proof.
  intros Hxy. assert (H0 : x - y == 0) by lra. rewrite H0. reflexivity.
Qed.

Lemma sims_range (s1 s2 : School) :
  0 <= bpmSim s1 s2 <= 1 ∧ 0 <= durationSim s1 s2 <= 1 ∧ 0 <= tropeSim s1 s2 <= 1.
Proof.
  unfold bpmSim, durationSim, tropeSim.
  split_and!; apply closeness_range; (apply Qabs_nonneg || reflexivity).
Qed.

Lemma confSim_cases (s1 s2 : School) :
  confSim s1 s2 = if decide (conference s1 = conference s2) then 0.3 else 0.
Proof.
  unfold confSim. destruct (decide _) as [->|Hne].
  - by rewrite String.eqb_refl.
  - by apply String.eqb_neq in Hne as ->.
Qed.

Lemma calculateSimilarity_sym (s1 s2 : School) :
  calculateSimilarity s1 s2 = calculateSimilarity s2 s1.
Proof.
  unfold calculateSimilarity, bpmSim, durationSim, tropeSim, confSim.
  rewrite (Qabs_Qminus (bpm s1)), (Qabs_Qminus (sec_duration s1)),
    (Qabs_Qminus (trope_count s1)), (String.eqb_sym (conference s1)). done.
Qed.

Lemma calculateSimilarity_max (s1 s2 : School) : calculateSimilarity s1 s2 <= 10 # 7.
Proof.
  destruct (sims_range s1 s2) as (Hb & Hd & Ht).
  assert (confSim s1 s2 <= 0.3) by (rewrite confSim_cases; destruct (decide _); lra).
  unfold calculateSimilarity. apply Qle_shift_div_r; lra.
Qed.

(** C5, as stated, fails where the exact score is the threshold.  Purdue
    and a school of another conference that is 70 bpm slower and has the same
    duration and trope count score exactly 7/10, which does not exceed 0.7;
    [prepareData] links them all the same: in doubles [1 - 0.7] is
    0.30000000000000004 and the score comes out as 0.7000000000000001, one
    unit in the last place above the double 0.7. *)
Lemma edge_at_the_exact_threshold :
  NetworkGraph.calculateSimilarity purdue tigers == 0.7 ∧
  ¬ 0.7 < NetworkGraph.calculateSimilarity purdue tigers ∧
  NetworkGraph64.similarityThreshold = SpecFloat.S754_finite false 6305039478318694 (-53) ∧
  NetworkGraph64.prepareData [purdue; tigers]
  = [ {| NetworkGraph64.source := "Purdue"; NetworkGraph64.target := "Tigers";
         NetworkGraph64.similarity :=
           SpecFloat.S754_finite false 6305039478318695 (-53) |} ].
Proof.
  split_and!.
  - reflexivity.
  - intros H. vm_compute in H. discriminate.
  - vm_compute. reflexivity.
  - vm_compute. reflexivity.
Qed.

(** C5 (amended): [prepareData] creates a link for the schools at two
    positions [i < j] exactly when their score, computed in doubles in the
    order the code writes it, exceeds the double 0.7; the score is
    [(bpmSim*0.3 + durationSim*0.2 + tropeSim*0.2 + confSim)/0.7], the three
    terms are [1 - min(|difference|/scale, 1)] with scales 100, 60 and 10,
    [confSim] is 0.3 for one conference and 0 otherwise, and as exact numbers
    the three terms lie in [0, 1]. *)
Theorem edge_iff_similar_enough (schools : list School) :
  (∀ l, l ∈ NetworkGraph64.prepareData schools ↔
        ∃ i j si sj, (i < j)%nat ∧ schools !! i = Some si ∧ schools !! j = Some sj ∧
                     l = {| NetworkGraph64.source := school si;
                            NetworkGraph64.target := school sj;
                            NetworkGraph64.similarity :=
                              NetworkGraph64.calculateSimilarity si sj |} ∧
                     Binary64.gt (NetworkGraph64.calculateSimilarity si sj)
                                 NetworkGraph64.similarityThreshold = true) ∧
  NetworkGraph64.similarityThreshold = Binary64.of_Q 0.7 ∧
  ∀ s1 s2,
    NetworkGraph64.calculateSimilarity s1 s2
    = Binary64.div
        (Binary64.add
           (Binary64.add
              (Binary64.add
                 (Binary64.mul (NetworkGraph64.bpmSim s1 s2) (Binary64.of_Q 0.3))
                 (Binary64.mul (NetworkGraph64.durationSim s1 s2) (Binary64.of_Q 0.2)))
              (Binary64.mul (NetworkGraph64.tropeSim s1 s2) (Binary64.of_Q 0.2)))
           (NetworkGraph64.confSim s1 s2))
        (Binary64.of_Q 0.7) ∧
    NetworkGraph64.bpmSim s1 s2
    = Binary64.sub (Binary64.of_Z 1)
        (Binary64.min
           (Binary64.div
              (Binary64.abs (Binary64.sub (Binary64.of_Q (bpm s1)) (Binary64.of_Q (bpm s2))))
              (Binary64.of_Z 100))
           (Binary64.of_Z 1)) ∧
    NetworkGraph64.durationSim s1 s2
    = Binary64.sub (Binary64.of_Z 1)
        (Binary64.min
           (Binary64.div
              (Binary64.abs (Binary64.sub (Binary64.of_Q (sec_duration s1))
                                          (Binary64.of_Q (sec_duration s2))))
              (Binary64.of_Z 60))
           (Binary64.of_Z 1)) ∧
    NetworkGraph64.tropeSim s1 s2
    = Binary64.sub (Binary64.of_Z 1)
        (Binary64.min
           (Binary64.div
              (Binary64.abs (Binary64.sub (Binary64.of_Q (trope_count s1))
                                          (Binary64.of_Q (trope_count s2))))
              (Binary64.of_Z 10))
           (Binary64.of_Z 1)) ∧
    NetworkGraph64.confSim s1 s2
    = (if decide (conference s1 = conference s2)
       then Binary64.of_Q 0.3 else Binary64.of_Z 0) ∧
    0 <= bpmSim s1 s2 <= 1 ∧ 0 <= durationSim s1 s2 <= 1 ∧ 0 <= tropeSim s1 s2 <= 1.
Proof.
  split; [apply elem_of_prepareData|]. split; [reflexivity|]. intros s1 s2.
  destruct (sims_range s1 s2) as (Hb & Hd & Ht).
  split_and!; first [reflexivity | apply Hb | apply Hd | apply Ht | idtac].
  unfold NetworkGraph64.confSim. destruct (decide _) as [->|Hne].
  - by rewrite String.eqb_refl.
  - by apply String.eqb_neq in Hne as ->.
Qed.

(** C6: two records with the same tempo, duration, trope count and
    conference, and so a record and itself, score [10/7]: the three
    difference terms are 1 and the conference bonus is 0.3; no pair of
    records scores more, and [10/7] is above the threshold. *)
Theorem identical_records_score_highest (s1 s2 : School) :
  bpm s1 == bpm s2 →
  sec_duration s1 == sec_duration s2 →
  trope_count s1 == trope_count s2 →
  conference s1 = conference s2 →
  bpmSim s1 s2 == 1 ∧ durationSim s1 s2 == 1 ∧ tropeSim s1 s2 == 1 ∧
  confSim s1 s2 = 0.3 ∧
  calculateSimilarity s1 s2 == (0.3 + 0.2 + 0.2 + 0.3) / 0.7 ∧
  calculateSimilarity s1 s2 == 10 # 7 ∧
  calculateSimilarity s1 s1 == 10 # 7 ∧
  (∀ t1 t2, calculateSimilarity t1 t2 <= calculateSimilarity s1 s2) ∧
  similar_enough (calculateSimilarity s1 s2) = true.
Proof.
  assert (Hsame : ∀ t1 t2,
    bpm t1 == bpm t2 → sec_duration t1 == sec_duration t2 →
    trope_count t1 == trope_count t2 → conference t1 = conference t2 →
    bpmSim t1 t2 == 1 ∧ durationSim t1 t2 == 1 ∧ tropeSim t1 t2 == 1 ∧
    confSim t1 t2 = 0.3 ∧ calculateSimilarity t1 t2 == 10 # 7).
  { intros t1 t2 Hb Hd Ht Hc.
    assert (H1 : bpmSim t1 t2 == 1) by (by apply closeness_same, Qabs_same).
    assert (H2 : durationSim t1 t2 == 1) by (by apply closeness_same, Qabs_same).
    assert (H3 : tropeSim t1 t2 == 1) by (by apply closeness_same, Qabs_same).
    assert (H4 : confSim t1 t2 = 0.3) by (by rewrite confSim_cases, decide_True).
    split_and!; try done.
    unfold calculateSimilarity. rewrite H1, H2, H3, H4. reflexivity. }
  intros Hb Hd Ht Hc.
  destruct (Hsame s1 s2 Hb Hd Ht Hc) as (H1 & H2 & H3 & H4 & H5).
  split_and!; try done.
  - rewrite H5. reflexivity.
  - by apply Hsame.
  - intros t1 t2. rewrite H5. apply calculateSimilarity_max.
  - apply similar_enough_gt. rewrite H5. reflexivity.
Qed.

Lemma identical_records_score_highest_witness :
  calculateSimilarity purdue indiana == 10 # 7 ∧
  similar_enough (calculateSimilarity purdue indiana) = true.
Proof.
  destruct (identical_records_score_highest purdue indiana)
    as (_ & _ & _ & _ & _ & Hscore & _ & _ & Hedge);
    [reflexivity|reflexivity|reflexivity|reflexivity|].
  split; [exact Hscore|exact Hedge].
Defined.

(** ** The conference filter *)

Lemma matches_eq (F : string) (d : School) :
  matches F d = (String.eqb F "all" || String.eqb (conference d) F).
Proof. done. Qed.

(** C7, as stated, fails for the parallel coordinates: with the filter on
    [SEC], the lines of Purdue (Big Ten) and of Army (Independent), both
    outside the conference, get 0.8 and 0.1, so no single dimmed opacity
    describes the view. *)
Lemma parallel_filter_spares_purdue :
  ¬ ∃ full dimmed,
      follows_filter full dimmed (λ _, True) ParallelCoordinates.filterByConference.
Proof.
  intros (full & dimmed & H).
  pose proof (H "SEC" purdue I) as H1. pose proof (H "SEC" army I) as H2.
  vm_compute in H1, H2. congruence.
Qed.

(** C7 (amended): with the filter on F, an element is shown at the view's
    full opacity when F is ['all'] or its conference is F, and at the view's
    dimmed opacity otherwise: for every element of the map (1, 0.15), the
    scatter plot (0.85, 0.15), the matrix (1, 0.2) and the network's nodes
    (0.9, 0.2); for every element but Purdue's of the parallel coordinates
    (0.3, 0.1), the rose chart (0.75, 0.15) and the hero map (0.85, 0.15 for
    a marker that is not hovered); and for every conference chart of the
    radar view (1, 0.4).  Purdue's line and arc keep 0.8 and 1 whatever the
    filter. *)
Theorem conference_filter_opacity :
  follows_filter 1 0.15 (λ _, True) USAMap.filterByConference ∧
  follows_filter 0.85 0.15 (λ _, True) ScatterPlot.filterByConference ∧
  follows_filter 1 0.2 (λ _, True) TropeMatrix.filterByConference ∧
  follows_filter 0.9 0.2 (λ _, True) NetworkGraph.filterByConference ∧
  follows_filter 0.3 0.1 (λ d, isPurdue d = false) ParallelCoordinates.filterByConference ∧
  follows_filter 0.75 0.15 (λ d, isPurdue d = false) FightSongClock.filterByConference ∧
  (∀ F d, isPurdue d = true →
          ParallelCoordinates.filterByConference F d = 0.8 ∧
          FightSongClock.filterByConference F d = 1) ∧
  (∀ F d, F ≠ EmptyString →
          EnergyGalaxy.markerAlpha (Some F) false (EnergyGalaxy.marker_of d)
          = if String.eqb F "all" || String.eqb (conference d) F then 0.85 else 0.15) ∧
  (∀ F conf, RadarChart.onActiveConference F conf
             = if String.eqb F "all" || String.eqb conf F then 1 else 0.4).
Proof.
  split_and!.
  - intros F d _. unfold USAMap.filterByConference. by rewrite matches_eq.
  - intros F d _. unfold ScatterPlot.filterByConference. by rewrite matches_eq.
  - intros F d _. unfold TropeMatrix.filterByConference. by rewrite matches_eq.
  - intros F d _. unfold NetworkGraph.filterByConference. by rewrite matches_eq.
  - intros F d Hd. unfold ParallelCoordinates.filterByConference.
    by rewrite Hd, matches_eq.
  - intros F d Hd. unfold FightSongClock.filterByConference. by rewrite Hd, matches_eq.
  - intros F d Hd.
    unfold ParallelCoordinates.filterByConference, FightSongClock.filterByConference.
    by rewrite Hd.
  - intros F d HF. unfold EnergyGalaxy.markerAlpha, EnergyGalaxy.activeConf.
    apply String.eqb_neq in HF as ->. simpl. by rewrite matches_eq.
  - intros F conf. unfold RadarChart.onActiveConference.
    by destruct (String.eqb F "all"), (String.eqb conf F).
Qed.

(** ** The marker radii *)

Lemma elem_of_drawSchools (schools : list School) (d : School) (r : Q) :
  (d, r) ∈ USAMap.drawSchools schools ↔ d ∈ schools ∧ r = USAMap.getRadius d.
Proof.
  unfold USAMap.drawSchools. rewrite list_elem_of_fmap. split.
  - intros (d' & [= -> ->] & Hd). split; [|done].
    by rewrite <- (array_sort_Permutation purdue_last schools).
  - intros [Hd ->]. exists d. split; [done|].
    by rewrite (array_sort_Permutation purdue_last schools).
Qed.

(** C9, as stated, fails on the map: next to Purdue (radius 12) a school
    with five tropes is drawn with radius 12.5. *)
Lemma map_marker_larger_than_purdue :
  (∀ d, d ∈ [purdue; army] → 0 <= trope_count d) ∧
  ¬ ∀ d r, (d, r) ∈ USAMap.drawSchools [purdue; army] → r <= USAMap.getRadius purdue.
Proof.
  split.
  - intros d [->|[->|[]%elem_of_nil]%elem_of_cons]%elem_of_cons; by vm_compute.
  - intros H. specialize (H army 12.5).
    assert (Hle : 12.5 <= USAMap.getRadius purdue).
    { apply H. apply elem_of_drawSchools. split; [|reflexivity].
      apply elem_of_cons. right. apply list_elem_of_here. }
    vm_compute in Hle. by apply Hle.
Qed.

(** C9 (amended): in the map, the scatter plot and the hero map the marker
    of a school other than Purdue has radius [5 + trope_count * 1.5],
    [4 + trope_count * 1] and [6 + trope_count * 1.2], Purdue's marker has
    radius 12, 10 and 29, and Purdue's marker is at least as large as the
    other one exactly when that school's trope count is at most 14/3, 6 and
    115/6. *)
Theorem marker_radii (d : School) :
  isPurdue d = false →
  (USAMap.getRadius d = 5 + trope_count d * 1.5 ∧
   ScatterPlot.getRadius d = 4 + trope_count d * 1 ∧
   EnergyGalaxy.size (EnergyGalaxy.marker_of d) = 6 + trope_count d * 1.2) ∧
  (∀ p, isPurdue p = true →
        USAMap.getRadius p = 12 ∧ ScatterPlot.getRadius p = 10 ∧
        EnergyGalaxy.size (EnergyGalaxy.marker_of p) = 29) ∧
  (∀ p, isPurdue p = true →
        (USAMap.getRadius d <= USAMap.getRadius p ↔ trope_count d <= 14 # 3) ∧
        (ScatterPlot.getRadius d <= ScatterPlot.getRadius p ↔ trope_count d <= 6) ∧
        (EnergyGalaxy.size (EnergyGalaxy.marker_of d)
           <= EnergyGalaxy.size (EnergyGalaxy.marker_of p) ↔ trope_count d <= 115 # 6)) ∧
  (∀ schools d' r, (d', r) ∈ USAMap.drawSchools schools ↔
                   d' ∈ schools ∧ r = USAMap.getRadius d').
Proof.
  intros Hd.
  unfold USAMap.getRadius, ScatterPlot.getRadius, EnergyGalaxy.marker_of; simpl.
  rewrite Hd.
  unfold USAMap.baseRadius, USAMap.radiusMultiplier, USAMap.purdueRadius,
    ScatterPlot.baseRadius, ScatterPlot.radiusMultiplier, ScatterPlot.purdueRadius,
    EnergyGalaxy.baseRadius, EnergyGalaxy.radiusMultiplier, EnergyGalaxy.purdueRadius.
  split_and!; try done.
  - intros p Hp. by rewrite Hp.
  - intros p Hp. rewrite Hp. split_and!; split; lra.
  - apply elem_of_drawSchools.
Qed.

Lemma marker_radii_witness :
  USAMap.getRadius army = 5 + 5 * 1.5 ∧
  (USAMap.getRadius army <= USAMap.getRadius purdue ↔ trope_count army <= 14 # 3).
Proof.
  destruct (marker_radii army) as ((Hmap & _) & _ & Hlargest & _); [reflexivity|].
  destruct (Hlargest purdue) as (Hiff & _); [reflexivity|].
  split; [exact Hmap|exact Hiff].
Defined.

End ViewsFacts.

(* ===================================================================== *)
(** * More facts about the store *)
(* ===================================================================== *)

Module StoreMore.
Import Store StoreFacts Queries.

(** ** Subscribing *)

Lemma store_eq (s1 s2 : store) :
  state s1 = state s2 → listeners s1 = listeners s2 → trace s1 = trace s2 → s1 = s2.
Proof. destruct s1, s2; simpl. by intros -> -> ->. Qed.

Lemma filter_all {A} (P : A → Prop) `{!∀ x, Decision (P x)} (l : list A) :
  Forall P l → filter P l = l.
Proof.
  induction 1 as [|x l Hx Hl IH]; [done|]. by rewrite filter_cons_True, IH.
Qed.

(** X1: subscribing a callback that is already registered for the key
    changes nothing at all: the [Set] holds it once, so it is still called
    once per notification and one call of either closure removes it. *)
Theorem subscribe_registered_is_noop (K : string) (C : cbid) (s : store) :
  C ∈ subscribers K s →
  (subscribe K C s).1 = s ∧
  (∀ s', (subscribe K C s).2 s' = unsubscribe K C s').
Proof.
  intros HC. split; [|done].
  unfold subscribe, add_listener, subscribers in *; simpl.
  destruct (listeners s !! K) as [es|] eqn:Hes; simpl in *.
  - apply store_eq; simpl; try done.
    unfold set_add. rewrite bool_decide_true by (by apply elem_of_members).
    by apply insert_id.
  - by apply elem_of_nil in HC.
Qed.

Lemma subscribe_registered_is_noop_witness :
  (subscribe "activeConference" 1 (three_on "activeConference")).1
  = three_on "activeConference".
Proof.
  apply (subscribe_registered_is_noop "activeConference" 1 (three_on "activeConference")).
  apply (bool_decide_unpack _). vm_compute. exact I.
Defined.

(** X2: a callback that was not registered for the key is appended to the
    key's subscribers, so it is notified last, and nothing else changes;
    calling the returned closure right away gives the former subscribers
    back. *)
Theorem subscribe_appends_unsubscribe_restores (K : string) (C : cbid) (s : store) :
  C ∉ subscribers K s →
  let s1 := (subscribe K C s).1 in
  subscribers K s1 = subscribers K s ++ [C] ∧
  (∀ k, k ≠ K → listeners s1 !! k = listeners s !! k) ∧
  state s1 = state s ∧ trace s1 = trace s ∧
  ∃ s2, (subscribe K C s).2 s1 = (Normal, s2) ∧
        subscribers K s2 = subscribers K s ∧
        (∀ k, k ≠ K → listeners s2 !! k = listeners s !! k) ∧
        state s2 = state s ∧ trace s2 = trace s.
Proof.
  intros HC s1.
  assert (Hsub : subscribers K s1 = subscribers K s ++ [C]).
  { unfold s1. simpl. rewrite subscribers_add_listener, decide_True by done.
    by rewrite bool_decide_false. }
  assert (Hother : ∀ k, k ≠ K → listeners s1 !! k = listeners s !! k).
  { intros k Hk. unfold s1, subscribe, add_listener; simpl. by rewrite lookup_insert_ne. }
  split_and!; try done.
  assert (Hset : is_Some (listeners s1 !! K)).
  { unfold s1, subscribe, add_listener; simpl. rewrite lookup_insert_eq. eauto. }
  destruct Hset as [es Hes].
  destruct (unsubscribe_spec K C s1 es Hes) as (s2 & Hun & Hst & Htr & Hsub2 & Hother2).
  exists s2. split_and!; try done.
  - rewrite Hsub2, Hsub, filter_app, filter_cons, decide_False, filter_nil, app_nil_r by tauto.
    apply filter_all. apply Forall_forall. intros c Hc ->. done.
  - intros k Hk. by rewrite Hother2, Hother.
Qed.

Lemma subscribe_appends_unsubscribe_restores_witness :
  subscribers "activeConference" (subscribe "activeConference" 7 (three_on "activeConference")).1
  = [0; 1; 2; 7].
Proof.
  destruct (subscribe_appends_unsubscribe_restores "activeConference" 7
              (three_on "activeConference")) as (Hsub & _).
  - apply (bool_decide_unpack _). vm_compute. exact I.
  - rewrite Hsub. reflexivity.
Defined.

(** ** Writing without notifying *)

(** X3: [registerModule] stores the instance, which [getModule] reads back,
    and tells nobody; a [setState] of the same value afterwards finds nothing
    changed, so no subscriber of that key ever hears of it. *)
Theorem registerModule_is_silent body fuel (name : string) (instance : value) (s : store) :
  instance ≠ VNaN →
  let s1 := registerModule name instance s in
  getModule name s1 = instance ∧
  (∀ k, k ≠ name → getState k s1 = getState k s) ∧
  trace s1 = trace s ∧ listeners s1 = listeners s ∧
  setState body fuel name instance s1 = (Normal, s1).
Proof.
  intros Hv s1. unfold s1, registerModule, getModule.
  split_and!; try done.
  - apply getState_write_eq.
  - intros k Hk. by apply getState_write_ne.
  - apply setState_same. rewrite getState_write_eq. by apply strict_eq_refl.
Qed.

Lemma registerModule_is_silent_witness :
  setState redraw 3 "map" (VRef 5) (registerModule "map" (VRef 5) (three_on "map"))
  = (Normal, registerModule "map" (VRef 5) (three_on "map")).
Proof.
  destruct (registerModule_is_silent redraw 3 "map" (VRef 5) (three_on "map"))
    as (_ & _ & _ & _ & Hset); [discriminate|exact Hset].
Defined.

(** ** [initializeState] *)

(** X4: [initializeState] notifies whether or not anything changed: with
    callbacks that only read the store it returns normally, having called
    every subscriber of [schools] and then every subscriber of [conferences],
    each once with the new value; both values are stored before the first
    call, so the subscribers of [schools] already read the new
    [conferences]. *)
Theorem initializeState_always_notifies body fuel (schools conferences : value) (s : store) :
  (∀ c v, passive (body c v)) →
  length (default [] (listeners s !! "schools")) < fuel →
  length (default [] (listeners s !! "conferences")) < fuel →
  let st := <["conferences" := conferences]> (<["schools" := schools]> (state s)) in
  initializeState body fuel schools conferences s
  = (Normal, Store st (listeners s)
               (trace s
                ++ pass_events body "schools" schools st (subscribers "schools" s)
                ++ pass_events body "conferences" conferences st
                     (subscribers "conferences" s))) ∧
  (∀ c, c ∈ subscribers "schools" s → Called c "schools" schools schools ∈
        pass_events body "schools" schools st (subscribers "schools" s)) ∧
  st !! "conferences" = Some conferences.
Proof.
  intros Hbody Hf1 Hf2 st. split_and!.
  - unfold initializeState, initializeState_with, write; simpl.
    rewrite notify_passive by done. simpl.
    rewrite notify_passive by done. simpl.
    unfold subscribers; simpl. by rewrite <- app_assoc.
  - intros c Hc. apply elem_of_pass_events. exists c. split; [done|]. left.
    unfold st. by rewrite lookup_insert_ne, lookup_insert_eq.
  - unfold st. by rewrite lookup_insert_eq.
Qed.

Lemma initializeState_always_notifies_witness :
  trace (initializeState redraw 4 (VRef 0) (VRef 1) (three_on "schools")).2
  = [Called 0 "schools" (VRef 0) (VRef 0); Called 1 "schools" (VRef 0) (VRef 0);
     Called 2 "schools" (VRef 0) (VRef 0)].
Proof.
  destruct (initializeState_always_notifies redraw 4 (VRef 0) (VRef 1) (three_on "schools"))
    as (Hinit & _).
  - intros c v. simpl. done.
  - vm_compute. lia.
  - vm_compute. lia.
  - rewrite Hinit. reflexivity.
Defined.

(** ** [setMultipleState] *)

(** X5: with callbacks that only read the store, [setMultipleState] returns
    normally, leaves the subscriptions alone, and every key ends with the
    value of its last entry, or with its old value if it has none. *)
Theorem setMultipleState_last_entry_wins body fuel (updates : list (string * value))
    (s : store) :
  (∀ c v, passive (body c v)) →
  (∀ k, length (default [] (listeners s !! k)) < fuel) →
  ∃ s',
    setMultipleState body fuel updates s = (Normal, s') ∧
    listeners s' = listeners s ∧
    ∀ k, getState k s'
         = default (getState k s) (snd <$> last (filter (λ kv, kv.1 = k) updates)).
Proof.
  intros Hbody. revert s.
  induction updates as [|[k0 v0] updates IH]; intros s Hfuel.
  - exists s. by split_and!.
  - simpl.
    assert (Hstep : ∃ s1, setState body fuel k0 v0 s = (Normal, s1) ∧
                          listeners s1 = listeners s ∧
                          ∀ k, getState k s1 = if decide (k0 = k) then v0 else getState k s).
    { destruct (strict_neq (getState k0 s) v0) eqn:Hne.
      - eexists. split; [by apply setState_passive|]. split; [done|].
        intros k. unfold getState; simpl. rewrite lookup_insert.
        by destruct (decide (k0 = k)).
      - exists s. split; [apply setState_same; by apply negb_false_iff|].
        split; [done|]. intros k. destruct (decide (k0 = k)) as [<-|]; [|done].
        apply negb_false_iff, strict_eq_true in Hne. by destruct Hne. }
    destruct Hstep as (s1 & -> & Hl1 & Hget1).
    destruct (IH s1) as (s' & Hrun & Hl' & Hget').
    { intros k. by rewrite Hl1. }
    exists s'. split; [done|]. split; [by rewrite Hl'|].
    intros k. rewrite Hget', Hget1, filter_cons. simpl.
    destruct (decide (k0 = k)) as [->|Hne].
    + destruct (filter (λ kv, kv.1 = k) updates) as [|kv l]; [done|].
      rewrite last_cons_cons. destruct (last (kv :: l)) eqn:Hlast; [done|].
      by apply last_None in Hlast.
    + done.
Qed.

Lemma setMultipleState_last_entry_wins_witness :
  ∃ s', setMultipleState redraw 4
          [("currentAct", VNum 2); ("matrixSort", VStr "bpm"); ("currentAct", VNum 3)]
          (three_on "currentAct") = (Normal, s') ∧
        getState "currentAct" s' = VNum 3.
Proof.
  destruct (setMultipleState_last_entry_wins redraw 4
              [("currentAct", VNum 2); ("matrixSort", VStr "bpm"); ("currentAct", VNum 3)]
              (three_on "currentAct")) as (s' & Hrun & _ & Hget).
  - intros c v. simpl. done.
  - intros k. unfold three_on, subscribe, add_listener; simpl.
    destruct (decide (k = "currentAct")) as [->|Hne].
    + vm_compute. lia.
    + rewrite !lookup_insert_ne by done. rewrite lookup_empty. simpl. lia.
  - exists s'. split; [exact Hrun|]. rewrite Hget. reflexivity.
Defined.

(** ** Re-entrant callbacks *)

Lemma trace_record e s : trace (record e s) = trace s ++ [e].
Proof. done. Qed.

Lemma calls_along (c : cbid) (K : string) (f : value → value) (v : value) (n : nat) :
  Called c K v v :: ((λ i, Called c K (Nat.iter i f (f v)) (Nat.iter i f (f v))) <$> seq 0 n)
  = (λ i, Called c K (Nat.iter i f v) (Nat.iter i f v)) <$> seq 0 (S n).
Proof.
  cbn [seq fmap list_fmap Nat.iter]. f_equal. rewrite <- seq_shift, <- list_fmap_compose.
  apply list_fmap_ext. intros _ i _. cbn. by rewrite <- !Nat.iter_succ_r.
Qed.

Lemma notify_feedback body (K : string) (c : cbid) (f : value → value) es :
  (∀ w, body c w = SetState K (f w) Ret) →
  (∀ w, strict_neq w (f w) = true) →
  es !! 0 = Some (Some c) →
  ∀ fuel v s,
    listeners s !! K = Some es → getState K s = v →
    (notify_from body fuel K v 0 s).1 = OutOfFuel ∧
    trace (notify_from body fuel K v 0 s).2
    = trace s ++ ((λ i, Called c K (Nat.iter i f v) (Nat.iter i f v)) <$> seq 0 fuel) ∧
    getState K (notify_from body fuel K v 0 s).2 = Nat.iter fuel f v.
Proof.
  intros Hbody Hf Hc. induction fuel as [|fuel IH]; intros v s Hes Hv.
  { cbn. by rewrite app_nil_r. }
  cbn [notify_from]. rewrite Hes, Hc, Hbody. cbn [run]. unfold setState_with.
  rewrite getState_record, Hv, Hf.
  destruct (IH (f v) (write K (f v) (record (Called c K v v) s)) Hes
              (getState_write_eq K (f v) _)) as (Ho & Htrace & Hget).
  destruct (notify_from body fuel K (f v) 0 _) as [o s']; cbn [fst snd] in *. subst o.
  cbn [fst snd].
  split_and!; [done| |by rewrite Hget, Nat.iter_succ_r].
  rewrite Htrace. change (trace (write K (f v) (record (Called c K v v) s)))
    with (trace (record (Called c K v v) s)).
  rewrite trace_record, <- app_assoc. cbn [app]. by rewrite calls_along.
Qed.

(** X6: there is no cycle detection.  If the first subscriber of a key
    answers every value it is told with a [setState] of another value on the
    same key, a [setState] that changes the key starts a chain of nested
    notifications that the store never ends: whatever the budget of nested
    steps, it is used up, by that many calls of this subscriber, with the
    values [v], [f v], [f (f v)], ..., each stored when it is passed. *)
Theorem feedback_uses_up_every_budget body (K : string) (c : cbid) (f : value → value)
    fuel (v : value) (s : store) es :
  (∀ w, body c w = SetState K (f w) Ret) →
  (∀ w, strict_neq w (f w) = true) →
  listeners s !! K = Some es → es !! 0 = Some (Some c) →
  strict_neq (getState K s) v = true →
  (setState body fuel K v s).1 = OutOfFuel ∧
  trace (setState body fuel K v s).2
  = trace s ++ ((λ i, Called c K (Nat.iter i f v) (Nat.iter i f v)) <$> seq 0 fuel) ∧
  getState K (setState body fuel K v s).2 = Nat.iter fuel f v.
Proof.
  intros Hbody Hf Hes Hc Hne. unfold setState, setState_with. rewrite Hne.
  apply (notify_feedback body K c f es Hbody Hf Hc); [done|apply getState_write_eq].
Qed.

Lemma feedback_uses_up_every_budget_witness :
  (setCurrentAct count_up 3 (VNum 2) (three_on "currentAct")).1 = OutOfFuel ∧
  trace (setCurrentAct count_up 3 (VNum 2) (three_on "currentAct")).2
  = [Called 0 "currentAct" (VNum 2) (VNum 2); Called 0 "currentAct" (VNum 3) (VNum 3);
     Called 0 "currentAct" (VNum 4) (VNum 4)].
Proof.
  destruct (feedback_uses_up_every_budget count_up "currentAct" 0 successor 3 (VNum 2)
              (three_on "currentAct") [Some 0; Some 1; Some 2]) as (Ho & Htrace & _).
  - reflexivity.
  - intros w. destruct w; try reflexivity. unfold strict_neq; simpl.
    rewrite bool_decide_false; [done|]. intros [=]. lia.
  - reflexivity.
  - reflexivity.
  - reflexivity.
  - split; [exact Ho|]. etransitivity; [exact Htrace|reflexivity].
Defined.

(** One step of [forEach]. *)
Lemma notify_from_end body fuel (k : string) v i s es :
  listeners s !! k = Some es → es !! i = None →
  notify_from body (S fuel) k v i s = (Normal, s).
Proof. intros Hes Hi. simpl. by rewrite Hes, Hi. Qed.

Lemma notify_from_hole body fuel (k : string) v i s es :
  listeners s !! k = Some es → es !! i = Some None →
  notify_from body (S fuel) k v i s = notify_from body fuel k v (S i) s.
Proof. intros Hes Hi. simpl. by rewrite Hes, Hi. Qed.

Lemma notify_from_call body fuel (k : string) v i s es c :
  listeners s !! k = Some es → es !! i = Some (Some c) →
  notify_from body (S fuel) k v i s
  = match run (λ k' v' s', notify_from body fuel k' v' 0 s') (body c v)
            (record (Called c k v (getState k s)) s) with
    | (Normal, s') => notify_from body fuel k v (S i) s'
    | (Thrown, s') => notify_from body fuel k v (S i) (record (Logged k) s')
    | (OutOfFuel, s') => (OutOfFuel, s')
    end.
Proof. intros Hes Hi. simpl. by rewrite Hes, Hi. Qed.

(** X7: what a callback does to the [Set] of the key being notified takes
    effect within the pass.  With subscribers [c0, c1], if [c0] unsubscribes
    [c1], this very notification skips [c1]; with the one subscriber [c0], if
    [c0] subscribes [c1], this very notification goes on to call [c1]. *)
Theorem set_changes_apply_within_the_pass body (K : string) (v : value) (c0 c1 : cbid)
    (s : store) fuel :
  c0 ≠ c1 →
  strict_neq (getState K s) v = true →
  2 < fuel →
  (listeners s !! K = Some [Some c0; Some c1] →
   body c0 v = Unsubscribe K c1 Ret →
   ∃ s', setState body fuel K v s = (Normal, s') ∧
         trace s' = trace s ++ [Called c0 K v v] ∧
         subscribers K s' = [c0]) ∧
  (listeners s !! K = Some [Some c0] →
   body c0 v = Subscribe K c1 Ret →
   passive (body c1 v) →
   ∃ s', setState body fuel K v s = (Normal, s') ∧
         subscribers K s' = [c0; c1] ∧
         Called c0 K v v ∈ trace s' ∧ Called c1 K v v ∈ trace s').
Proof.
  intros Hc Hne Hfuel.
  destruct fuel as [|[|[|fuel]]]; try lia.
  unfold setState, setState_with. rewrite Hne. unfold notify.
  set (s1 := write K v s).
  assert (Hv : getState K s1 = v) by apply getState_write_eq.
  split.
  - intros Hes Hbody.
    rewrite (notify_from_call _ _ _ _ _ _ [Some c0; Some c1] c0) by done.
    rewrite Hbody, Hv.
    set (s2 := record (Called c0 K v v) s1).
    assert (Hun : unsubscribe K c1 s2
                  = (Normal, Store (state s2) (<[K := [Some c0; None]]> (listeners s2))
                               (trace s2))).
    { unfold unsubscribe. change (listeners s2) with (listeners s). rewrite Hes.
      unfold set_delete. simpl.
      rewrite (bool_decide_true (Some c1 = Some c1)) by done.
      by rewrite (bool_decide_false (Some c0 = Some c1)) by congruence. }
    cbn [run]. rewrite Hun.
    rewrite (notify_from_hole _ _ _ _ _ _ [Some c0; None])
      by (simpl; by rewrite ?lookup_insert_eq).
    rewrite (notify_from_end _ _ _ _ _ _ [Some c0; None])
      by (simpl; by rewrite ?lookup_insert_eq).
    eexists. split; [reflexivity|]. split; [done|].
    unfold subscribers; simpl. by rewrite lookup_insert_eq.
  - intros Hes Hbody Hpassive.
    rewrite (notify_from_call _ _ _ _ _ _ [Some c0] c0) by done.
    rewrite Hbody, Hv. cbn [run subscribe fst].
    set (s2 := add_listener K c1 (record (Called c0 K v v) s1)).
    assert (Hes2 : listeners s2 !! K = Some [Some c0; Some c1]).
    { unfold s2, add_listener; simpl. change (listeners (record _ s1)) with (listeners s).
      rewrite lookup_insert_eq, Hes. simpl. unfold set_add.
      rewrite bool_decide_false; [done|].
      intros [?|[]%elem_of_nil]%elem_of_cons. congruence. }
    assert (Hv2 : getState K s2 = v) by done.
    assert (Htr2 : trace s2 = trace s ++ [Called c0 K v v]) by done.
    rewrite (notify_from_call _ _ _ _ _ _ [Some c0; Some c1] c1) by done.
    rewrite run_passive, Hv2 by done.
    destruct (throws (body c1 v) _);
      rewrite (notify_from_end _ _ _ _ _ _ [Some c0; Some c1]) by done;
      (eexists; split; [reflexivity|]);
      (split; [rewrite ?subscribers_record; unfold subscribers; by rewrite Hes2|]);
      rewrite ?trace_record, Htr2; split; set_solver.
Qed.

Lemma set_changes_apply_within_the_pass_witness :
  (∃ s', hoverSchool jealous 3 (VRef 9)
           (subscribe "hoveredSchool" 1 (subscribe "hoveredSchool" 0 initial_store).1).1
         = (Normal, s') ∧ subscribers "hoveredSchool" s' = [0]) ∧
  (∃ s', hoverSchool recruiting 3 (VRef 9) (subscribe "hoveredSchool" 0 initial_store).1
         = (Normal, s') ∧ subscribers "hoveredSchool" s' = [0; 1]).
Proof.
  split.
  - destruct (set_changes_apply_within_the_pass jealous "hoveredSchool" (VRef 9) 0 1
                (subscribe "hoveredSchool" 1 (subscribe "hoveredSchool" 0 initial_store).1).1 3)
      as [H _]; [lia|reflexivity|lia|].
    destruct H as (s' & Hrun & _ & Hsub); [reflexivity|reflexivity|].
    exists s'. split; [exact Hrun|exact Hsub].
  - destruct (set_changes_apply_within_the_pass recruiting "hoveredSchool" (VRef 9) 0 1
                (subscribe "hoveredSchool" 0 initial_store).1 3)
      as [_ H]; [lia|reflexivity|lia|].
    destruct H as (s' & Hrun & Hsub & _); [reflexivity|reflexivity|simpl; done|].
    exists s'. split; [exact Hrun|exact Hsub].
Defined.

End StoreMore.

Module QueriesFacts.
Import Store Utils Views StoreFacts UtilsFacts Queries.

Local Open Scope Q_scope.

Lemma strict_eq_VStr (a b : string) : strict_eq (VStr a) (VStr b) = String.eqb a b.
Proof.
  simpl. destruct (String.eqb_spec a b) as [->|Hne].
  - by rewrite bool_decide_true.
  - rewrite bool_decide_false; [done|]. by intros [= ?].
Qed.

(** X8: [getFilteredSchools] returns the whole array, in order, when the
    filter is ['all'], and otherwise the schools of that conference, in
    order; they are exactly the schools the map shows at full opacity under
    that filter.  A filter value that is not a string selects nothing. *)
Theorem getFilteredSchools_agrees_with_views (F : string) (schools : list School) :
  getFilteredSchools (VStr "all") schools = schools ∧
  (F ≠ "all" →
   getFilteredSchools (VStr F) schools = filter (λ s, conference s = F) schools) ∧
  (∀ d, d ∈ getFilteredSchools (VStr F) schools ↔
        d ∈ schools ∧ USAMap.filterByConference F d = 1) ∧
  (∀ v, (∀ c, v ≠ VStr c) → getFilteredSchools v schools = []).
Proof.
  assert (Hfilter : ∀ G, G ≠ "all" →
    getFilteredSchools (VStr G) schools = filter (λ s, conference s = G) schools).
  { intros G HG. unfold getFilteredSchools. rewrite strict_eq_VStr.
    apply String.eqb_neq in HG as ->.
    apply list_filter_iff. intros s. rewrite strict_eq_VStr. apply String.eqb_eq. }
  split_and!; [done|apply Hfilter| |].
  - intros d. unfold USAMap.filterByConference, matches.
    destruct (String.eqb_spec F "all") as [->|HF]; simpl.
    + change (getFilteredSchools (VStr "all") schools) with schools. tauto.
    + rewrite (Hfilter F HF). rewrite list_elem_of_filter.
      destruct (String.eqb_spec (conference d) F); split; intros [? ?]; try done.
  - intros v Hv. unfold getFilteredSchools.
    assert (strict_eq v (VStr "all") = false) as ->.
    { destruct v; try done. by destruct (Hv s). }
    clear Hfilter. induction schools as [|s schools IH]; [done|].
    rewrite filter_cons, IH. rewrite decide_False; [done|].
    rewrite not_true_iff_false. destruct v; try done. by destruct (Hv s0).
Qed.

(** X9: [findSchool] returns the first school of that name and [undefined]
    exactly when there is none; [getPurdue] is the first school [isPurdue]
    accepts. *)
Theorem findSchool_first_match (name : string) (schools : list School) :
  match findSchool name schools with
  | Some s =>
      ∃ i, schools !! i = Some s ∧ school s = name ∧
           ∀ j s', (j < i)%nat → schools !! j = Some s' → school s' ≠ name
  | None => ∀ s, s ∈ schools → school s ≠ name
  end ∧
  (∀ p, getPurdue schools = Some p → p ∈ schools ∧ isPurdue p = true) ∧
  (getPurdue schools = None ↔ ∀ s, s ∈ schools → isPurdue s = false).
Proof.
  assert (Hfind : ∀ n,
    match findSchool n schools with
    | Some s =>
        ∃ i, schools !! i = Some s ∧ school s = n ∧
             ∀ j s', (j < i)%nat → schools !! j = Some s' → school s' ≠ n
    | None => ∀ s, s ∈ schools → school s ≠ n
    end).
  { intros n. unfold findSchool.
    induction schools as [|s schools IH]; simpl.
    - by intros s ?%elem_of_nil.
    - destruct (String.eqb_spec (school s) n) as [Heq|Hne].
      + exists 0%nat. split_and!; try done. intros j s' Hj. lia.
      + destruct (find _ schools) as [s0|].
        * destruct IH as (i & Hi & Hn & Hfirst). exists (S i). split_and!; try done.
          intros [|j] s' Hj Hs'; simpl in Hs'; [by simplify_eq|].
          apply (Hfirst j s'); [lia|done].
        * intros s' [->|Hs']%elem_of_cons; [done|by apply IH]. }
  split; [apply Hfind|]. unfold getPurdue, isPurdue.
  pose proof (Hfind "Purdue") as HP. split.
  - intros p Hp. rewrite Hp in HP. destruct HP as (i & Hi & Hn & _). split.
    + by eapply list_elem_of_lookup_2.
    + by apply String.eqb_eq.
  - split.
    + intros Hnone s Hs. rewrite Hnone in HP. by apply String.eqb_neq, HP.
    + intros Hall. destruct (findSchool "Purdue" schools) as [p|]; [|done].
      destruct HP as (i & Hi & Hn & _).
      assert (p ∈ schools) as Hp by (by eapply list_elem_of_lookup_2).
      apply Hall, String.eqb_neq in Hp. done.
Qed.

End QueriesFacts.

Module HelpersFacts.
Import Utils Views UtilsFacts Helpers.

Local Open Scope Q_scope.

(** X10: [clamp] never exceeds [max]; when [min <= max] its result lies
    between them, a value already between them is returned as it is, and
    clamping twice is clamping once; when [min > max] the result is [max]. *)
Theorem clamp_within (value min max : Q) :
  clamp value min max <= max ∧
  (min <= max →
   min <= clamp value min max ∧
   (min <= value <= max → clamp value min max == value) ∧
   clamp (clamp value min max) min max == clamp value min max) ∧
  (max < min → clamp value min max == max).
Proof.
  unfold clamp.
  assert (Hc : ∀ v, Qmin (Qmax v min) max <= max ∧
                 (min <= max → min <= Qmin (Qmax v min) max) ∧
                 (min <= v <= max → Qmin (Qmax v min) max == v) ∧
                 (max < min → Qmin (Qmax v min) max == max)).
  { intros v.
    destruct (Q.max_spec v min) as [[? Hmax]|[? Hmax]],
             (Q.min_spec (Qmax v min) max) as [[? Hmin]|[? Hmin]];
      split_and!; intros; lra. }
  destruct (Hc value) as (H1 & H2 & H3 & H4).
  split_and!; try done.
  - intros Hle. split_and!; [by apply H2|done|].
    apply Hc. split; [by apply H2|done].
Qed.

(** X11: [lerp] starts at [a], ends at [b] and stays between them for [t] in
    [0, 1]; [mapRange] is [lerp] at the position of the value in the input
    range, so it sends [inMin] to [outMin] and [inMax] to [outMax], keeps a
    value of the input range inside the output range, and mapping back
    returns the value. *)
Theorem mapRange_is_linear (value inMin inMax outMin outMax : Q) :
  ¬ inMin == inMax →
  (∀ a b, lerp a b 0 == a ∧ lerp a b 1 == b) ∧
  (∀ a b t, a <= b → 0 <= t <= 1 → a <= lerp a b t <= b) ∧
  mapRange value inMin inMax outMin outMax
    == lerp outMin outMax ((value - inMin) / (inMax - inMin)) ∧
  mapRange inMin inMin inMax outMin outMax == outMin ∧
  mapRange inMax inMin inMax outMin outMax == outMax ∧
  (inMin < inMax → outMin <= outMax → inMin <= value <= inMax →
   outMin <= mapRange value inMin inMax outMin outMax <= outMax) ∧
  (¬ outMin == outMax →
   mapRange (mapRange value inMin inMax outMin outMax) outMin outMax inMin inMax
     == value).
Proof.
  intros Hin.
  assert (Hd : ¬ inMax - inMin == 0) by (intros H; apply Hin; lra).
  split_and!.
  - intros a b. unfold lerp. split; ring.
  - intros a b t Hab Ht. unfold lerp. split; nra.
  - unfold mapRange, lerp. ring.
  - unfold mapRange. field. done.
  - unfold mapRange. field. done.
  - intros Hlt Hout Hv. unfold mapRange.
    assert (0 <= (value - inMin) / (inMax - inMin)) by (apply Qle_shift_div_l; lra).
    assert ((value - inMin) / (inMax - inMin) <= 1) by (apply Qle_shift_div_r; lra).
    split; nra.
  - intros Hout. unfold mapRange. field. split; [done|]. intros H; apply Hout; lra.
Qed.

Lemma mapRange_is_linear_witness :
  mapRange 150 100 200 0 10 == 5.
Proof.
  destruct (mapRange_is_linear 150 100 200 0 10) as (_ & _ & Hlerp & _);
    [discriminate|].
  rewrite Hlerp. reflexivity.
Defined.

(** X12: the energy score lies between 0 and 1, as its comment says, for a
    tempo between 0 and 180 and a trope count between 0 and 8, and the star
    the poster draws for the school then has a size between 1 and 4; the
    score is at most 1 only if [bpm/180 + trope_count/8] is at most 2. *)
Theorem energy_score_range (s : School) :
  0 <= bpm s <= 180 →
  0 <= trope_count s <= 8 →
  0 <= calculateEnergyScore s <= 1 ∧
  starMinSize <= particleSize s <= starMaxSize ∧
  (∀ s', calculateEnergyScore s' <= 1 ↔ bpm s' / 180 + trope_count s' / 8 <= 2).
Proof.
  intros Hb Ht.
  assert (He : ∀ s', calculateEnergyScore s' == bpm s' * (1 # 360) + trope_count s' * (1 # 16)).
  { intros s'. unfold calculateEnergyScore. field. }
  assert (H01 : 0 <= calculateEnergyScore s <= 1) by (rewrite He; lra).
  split_and!; try apply H01.
  - unfold particleSize, starMinSize, starMaxSize. lra.
  - unfold particleSize, starMinSize, starMaxSize. lra.
  - intros s'. rewrite He.
    assert (Hq : bpm s' / 180 + trope_count s' / 8
                 == bpm s' * (1 # 180) + trope_count s' * (1 # 8)) by field.
    rewrite Hq. split; lra.
Qed.

Lemma energy_score_range_witness :
  0 <= calculateEnergyScore purdue <= 1.
Proof.
  destruct (energy_score_range purdue) as (H & _).
  - split; discriminate.
  - split; discriminate.
  - exact H.
Defined.

End HelpersFacts.

Module SortFacts.
Import Utils Views UtilsFacts Helpers.

Local Open Scope Q_scope.

Lemma sortSchools_sorted_array localeCompare (h : heap) (schools : nat) (sortBy : string) :
  ∃ f : list School → list School,
    array_at (sortSchools localeCompare h schools sortBy).1
             (sortSchools localeCompare h schools sortBy).2
    = f (array_at h schools) ∧
    (∀ l, f l ≡ₚ l) ∧
    (sortBy ∉ ["conference"; "trope_count"; "year"; "bpm"] → ∀ l, f l = l) ∧
    (sortBy = "trope_count" → f = array_sort by_trope_count) ∧
    (sortBy = "bpm" → f = array_sort by_bpm).
Proof.
  unfold sortSchools, array_copy, sort_in_place; simpl.
  set (a' := fresh (dom h)).
  assert (Hsort : ∀ c, array_at (alter (array_sort c) a' (<[a':=array_at h schools]> h)) a'
                       = array_sort c (array_at h schools)).
  { intros c. unfold array_at at 1. by rewrite lookup_alter_eq, lookup_insert_eq. }
  destruct (String.eqb_spec sortBy "conference") as [->|H1].
  { eexists. split; [apply Hsort|]. split_and!; try done.
    - apply array_sort_Permutation.
    - intros Hn. exfalso. apply Hn. set_solver. }
  destruct (String.eqb_spec sortBy "trope_count") as [->|H2].
  { eexists. split; [apply Hsort|]. split_and!; try done.
    - apply array_sort_Permutation.
    - intros Hn. exfalso. apply Hn. set_solver. }
  destruct (String.eqb_spec sortBy "year") as [->|H3].
  { eexists. split; [apply Hsort|]. split_and!; try done.
    - apply array_sort_Permutation.
    - intros Hn. exfalso. apply Hn. set_solver. }
  destruct (String.eqb_spec sortBy "bpm") as [->|H4].
  { eexists. split; [apply Hsort|]. split_and!; try done.
    - apply array_sort_Permutation.
    - intros Hn. exfalso. apply Hn. set_solver. }
  exists (λ l, l). split_and!; try done.
  unfold array_at at 1. by rewrite lookup_insert_eq.
Qed.

(** X13: whatever the criterion, [sortSchools] returns a new array holding
    the same records and leaves every other array as it was; for a criterion
    it does not know the new array is a plain copy, in the order of the
    input. *)
Theorem sortSchools_copies localeCompare (h : heap) (schools : nat) (sortBy : string)
    (l : list School) :
  h !! schools = Some l →
  ∃ h' sorted,
    sortSchools localeCompare h schools sortBy = (h', sorted) ∧
    sorted ≠ schools ∧ h !! sorted = None ∧
    (∀ a, a ≠ sorted → h' !! a = h !! a) ∧
    array_at h' sorted ≡ₚ l ∧
    (sortBy ∉ ["conference"; "trope_count"; "year"; "bpm"] → array_at h' sorted = l).
Proof.
  intros Hl.
  destruct (sortSchools_copy localeCompare h schools sortBy)
    as (h' & sorted & Hsort & _ & Hne & Hnew & Hother & _); [by eauto|].
  destruct (sortSchools_sorted_array localeCompare h schools sortBy)
    as (f & Hf & Hperm & Hid & _).
  rewrite Hsort in Hf. simpl in Hf. unfold array_at at 2 in Hf. rewrite Hl in Hf. simpl in Hf.
  exists h', sorted. split_and!; try done.
  - rewrite Hf. apply Hperm.
  - intros Hn. rewrite Hf. by apply Hid.
Qed.

Lemma sortSchools_copies_witness :
  ∃ h' sorted,
    sortSchools localeCompare_ascii four_schools 0 "name" = (h', sorted) ∧
    array_at h' sorted = [army; alabama; indiana; purdue].
Proof.
  destruct (sortSchools_copies localeCompare_ascii four_schools 0 "name"
              [army; alabama; indiana; purdue])
    as (h' & sorted & Hsort & _ & _ & _ & _ & Hcopy); [reflexivity|].
  exists h', sorted. split; [exact Hsort|]. apply Hcopy.
  apply (bool_decide_unpack _). vm_compute. exact I.
Defined.

Lemma by_trope_count_precedes pivot x :
  negative (by_trope_count pivot x) = true → trope_count x <= trope_count pivot.
Proof. rewrite negative_lt. unfold by_trope_count. lra. Qed.

Lemma by_trope_count_follows pivot x :
  negative (by_trope_count pivot x) = false → trope_count pivot <= trope_count x.
Proof. rewrite not_negative_le. unfold by_trope_count. lra. Qed.

(** X14: [sortSchools(schools, 'trope_count')] puts the records in
    non-increasing order of trope count. *)
Theorem sortSchools_trope_count_sorted localeCompare (h : heap) (schools : nat)
    (l : list School) :
  h !! schools = Some l →
  ∃ h' sorted,
    sortSchools localeCompare h schools "trope_count" = (h', sorted) ∧
    array_at h' sorted ≡ₚ l ∧
    ∀ i j a b,
      (i < j)%nat → array_at h' sorted !! i = Some a → array_at h' sorted !! j = Some b →
      trope_count b <= trope_count a.
Proof.
  intros Hl.
  destruct (sortSchools_sorted_array localeCompare h schools "trope_count")
    as (f & Hf & Hperm & _ & Hcmp & _).
  destruct (sortSchools localeCompare h schools "trope_count") as [h' sorted].
  simpl in Hf. unfold array_at at 2 in Hf. rewrite Hl in Hf. simpl in Hf.
  rewrite Hcmp in Hf by done.
  exists h', sorted. split_and!; try done.
  - rewrite Hf. apply array_sort_Permutation.
  - intros i j a b Hij Ha Hb. rewrite Hf in Ha, Hb.
    eapply (StronglySorted_lookup (λ a b, trope_count b <= trope_count a));
      [|exact Hij|exact Ha|exact Hb].
    apply array_sort_StronglySorted.
    + intros x y z. simpl. lra.
    + apply by_trope_count_precedes.
    + apply by_trope_count_follows.
Qed.

Lemma sortSchools_trope_count_sorted_witness :
  ∃ h' sorted,
    sortSchools localeCompare_ascii four_schools 0 "trope_count" = (h', sorted) ∧
    array_at h' sorted ≡ₚ [army; alabama; indiana; purdue].
Proof.
  destruct (sortSchools_trope_count_sorted localeCompare_ascii four_schools 0
              [army; alabama; indiana; purdue])
    as (h' & sorted & Hsort & Hperm & _); [reflexivity|].
  exists h', sorted. split; [exact Hsort|exact Hperm].
Defined.

(** ** Stability *)

Lemma same_bpm_iff v s : same_bpm v s ↔ bpm s == v.
Proof. unfold same_bpm. apply Qeq_bool_iff. Qed.

Lemma filter_none {A} (P : A → Prop) `{!∀ x, Decision (P x)} (l : list A) :
  Forall (λ x, ¬ P x) l → filter P l = [].
Proof.
  induction 1 as [|x l Hx Hl IH]; [done|]. by rewrite filter_cons_False.
Qed.

Lemma insert_by_bpm_stable v pivot l :
  StronglySorted faster_first l →
  filter (same_bpm v) (insert by_bpm pivot l)
  = filter (same_bpm v) l ++ filter (same_bpm v) [pivot].
Proof.
  induction l as [|x l IH]; intros Hl; [done|].
  apply StronglySorted_cons in Hl as [Hx Hl]. simpl.
  destruct (negative (by_bpm pivot x)) eqn:E.
  - apply negative_lt in E. unfold by_bpm in E.
    rewrite !(filter_cons _ pivot), filter_nil.
    destruct (decide (same_bpm v pivot)) as [Hp|Hp].
    + apply same_bpm_iff in Hp.
      rewrite (filter_none (same_bpm v) (x :: l)); [done|].
      constructor.
      * rewrite same_bpm_iff. lra.
      * eapply Forall_impl; [exact Hx|]. intros y Hy. unfold faster_first in Hy.
        rewrite same_bpm_iff. lra.
    + by rewrite app_nil_r.
  - rewrite !(filter_cons _ x). destruct (decide (same_bpm v x)).
    + by rewrite IH.
    + by apply IH.
Qed.

(** X15: the sort by tempo is stable: schools of equal tempo stand in the
    sorted array in the order they had in the input. *)
Theorem sort_by_bpm_is_stable (v : Q) (l : list School) :
  filter (same_bpm v) (array_sort by_bpm l) = filter (same_bpm v) l.
Proof.
  unfold array_sort.
  assert (H : ∀ sorted, StronglySorted faster_first sorted →
            filter (same_bpm v) (fold_left (λ sorted pivot, insert by_bpm pivot sorted) l sorted)
            = filter (same_bpm v) sorted ++ filter (same_bpm v) l).
  { induction l as [|x l IH]; intros sorted Hs; simpl.
    - by rewrite app_nil_r.
    - rewrite IH.
      + rewrite insert_by_bpm_stable by done. by rewrite <- app_assoc, <- filter_app.
      + apply insert_StronglySorted;
          eauto using faster_first_trans, by_bpm_precedes, by_bpm_follows. }
  rewrite H by constructor. done.
Qed.

(** ** Purdue on top *)

Section FeaturedLast.
Context {A : Type}.
Variable featured : A → bool.


Lemma insert_featured_last (pivot : A) (l : list A) :
  insert (featured_last featured) pivot (filter (λ x, featured x = false) l ++ filter (λ x, featured x = true) l)
  = filter (λ x, featured x = false) (l ++ [pivot])
    ++ filter (λ x, featured x = true) (l ++ [pivot]).
Proof.
  rewrite !filter_app, !(filter_cons _ pivot []), !filter_nil.
  assert (Hplain : ∀ l1 l2, Forall (λ x, featured x = false) l1 →
            Forall (λ x, featured x = true) l2 →
            insert (featured_last featured) pivot (l1 ++ l2)
            = if featured pivot then l1 ++ l2 ++ [pivot] else l1 ++ pivot :: l2).
  { intros l1 l2 H1 H2. induction H1 as [|x l1 Hx H1 IH]; simpl.
    - destruct H2 as [|y l2 Hy H2]; simpl.
      + unfold featured_last. by destruct (featured pivot).
      + unfold featured_last at 1. destruct (featured pivot) eqn:Hp; simpl.
        * f_equal. clear Hy. induction H2 as [|z l2 Hz H2 IH]; simpl; [done|].
          unfold featured_last at 1. rewrite Hp. simpl. by rewrite IH.
        * by rewrite Hy.
    - unfold featured_last at 1. destruct (featured pivot) eqn:Hp; simpl.
      + by rewrite IH.
      + rewrite Hx. simpl. by rewrite IH. }
  rewrite Hplain.
  - destruct (featured pivot) eqn:Hp.
    + rewrite decide_False, decide_True by (by rewrite ?Hp). by rewrite app_nil_r.
    + rewrite decide_True, decide_False by (by rewrite ?Hp).
      by rewrite app_nil_r, <- app_assoc.
  - apply Forall_forall. by intros x [? _]%list_elem_of_filter.
  - apply Forall_forall. by intros x [? _]%list_elem_of_filter.
Qed.

Lemma array_sort_featured_last (l : list A) :
  array_sort (featured_last featured) l
  = filter (λ x, featured x = false) l ++ filter (λ x, featured x = true) l.
Proof.
  unfold array_sort.
  assert (H : ∀ done_,
    fold_left (λ sorted pivot, insert (featured_last featured) pivot sorted) l
      (filter (λ x, featured x = false) done_ ++ filter (λ x, featured x = true) done_)
    = filter (λ x, featured x = false) (done_ ++ l)
      ++ filter (λ x, featured x = true) (done_ ++ l)).
  { induction l as [|x l IH]; intros done_; simpl.
    - by rewrite app_nil_r.
    - rewrite insert_featured_last, IH. by rewrite <- app_assoc. }
  apply (H []).
Qed.
End FeaturedLast.

Lemma filter_markers (b : bool) (schools : list School) :
  EnergyGalaxy.marker_school
    <$> filter (λ m, EnergyGalaxy.marker_isPurdue m = b) (EnergyGalaxy.marker_of <$> schools)
  = filter (λ s, isPurdue s = b) schools.
Proof.
  induction schools as [|s schools IH]; [done|].
  rewrite fmap_cons, !filter_cons.
  change (EnergyGalaxy.marker_isPurdue (EnergyGalaxy.marker_of s)) with (isPurdue s).
  destruct (decide (isPurdue s = b)); [rewrite fmap_cons|]; by rewrite IH.
Qed.

(** X16: the views that sort their elements for drawing put every school
    but Purdue first, in the order of the dataset, and Purdue last, so that
    it is painted on top: the markers of the map, the points of the scatter
    plot and the markers of the hero map. *)
Theorem purdue_is_drawn_last (schools : list School) :
  (USAMap.drawSchools schools).*1
  = filter (λ s, isPurdue s = false) schools ++ filter (λ s, isPurdue s = true) schools ∧
  (ScatterPlot.drawPoints schools).*1
  = filter (λ s, isPurdue s = false) schools ++ filter (λ s, isPurdue s = true) schools ∧
  EnergyGalaxy.marker_school <$> EnergyGalaxy.createMarkers schools
  = filter (λ s, isPurdue s = false) schools ++ filter (λ s, isPurdue s = true) schools.
Proof.
  assert (Hsort : array_sort purdue_last schools
    = filter (λ s, isPurdue s = false) schools ++ filter (λ s, isPurdue s = true) schools)
    by apply (array_sort_featured_last isPurdue).
  split_and!.
  - unfold USAMap.drawSchools. rewrite <- Hsort. apply list_eq. intros i.
    rewrite !list_lookup_fmap. by destruct (array_sort purdue_last schools !! i).
  - unfold ScatterPlot.drawPoints. rewrite <- Hsort. apply list_eq. intros i.
    rewrite !list_lookup_fmap. by destruct (array_sort purdue_last schools !! i).
  - unfold EnergyGalaxy.createMarkers.
    rewrite (array_sort_featured_last EnergyGalaxy.marker_isPurdue).
    rewrite fmap_app. by rewrite !filter_markers.
Qed.

End SortFacts.

Module StatsFacts.
Import Utils Views UtilsFacts Helpers Stats.

Local Open Scope Q_scope.

Lemma fold_tally_lookup (schools : list FullSchool) (m : gmap string Totals) (conf : string) :
  fold_left tally schools m !! conf
  = match of_conference conf schools with
    | [] => m !! conf
    | l => Some (fold_left add_school l (default no_totals (m !! conf)))
    end.
Proof.
  revert m. induction schools as [|s schools IH]; intros m; [done|].
  simpl. rewrite IH. unfold of_conference. rewrite filter_cons. unfold tally.
  destruct (decide (conference (base s) = conf)) as [<-|Hne].
  - rewrite lookup_insert_eq. simpl. by destruct (filter _ schools).
  - by rewrite lookup_insert_ne.
Qed.

Lemma total_from (field : FullSchool → Q) (l : list FullSchool) (q : Q) :
  fold_left (λ sum s, sum + field s) l q == q + total field l.
Proof.
  unfold total. revert q. induction l as [|s l IH]; intros q; simpl.
  - ring.
  - rewrite IH, (IH (0 + field s)). ring.
Qed.

Lemma total_cons (field : FullSchool → Q) (s : FullSchool) (l : list FullSchool) :
  total field (s :: l) == field s + total field l.
Proof. unfold total at 1. simpl. rewrite total_from. ring. Qed.

Lemma fold_add_school (l : list FullSchool) (t0 : Totals) :
  tallied t0 (fold_left add_school l t0) l.
Proof.
  revert t0. induction l as [|s l IH]; intros t0.
  - split; simpl; try (unfold total; simpl; ring). by rewrite app_nil_r.
  - destruct (IH (add_school t0 s)) as [H1 H2 H3 H4 H5 H6 H7 H8 H9 H10].
    split; simpl; rewrite ?total_cons;
      try (first [rewrite H2|rewrite H3|rewrite H4|rewrite H5|rewrite H6
                 |rewrite H7|rewrite H8|rewrite H9|rewrite H10]; simpl; ring).
    rewrite H1. simpl. by rewrite <- app_assoc.
Qed.

Lemma total_flags_range (flag : FullSchool → bool) (l : list FullSchool) :
  0 <= total (λ s, one_if (flag s)) l <= inject_Z (Z.of_nat (length l)).
Proof.
  induction l as [|s l IH].
  - unfold total; simpl. split; discriminate.
  - rewrite total_cons. simpl length. rewrite Nat2Z.inj_succ, <- Z.add_1_r, inject_Z_plus.
    assert (0 <= one_if (flag s) <= 1) by (unfold one_if; destruct (flag s); split; lra).
    change (inject_Z 1) with 1. split; lra.
Qed.

Lemma rate_range (n d : Q) : 0 < d → 0 <= n <= d → 0 <= n / d <= 1.
Proof.
  intros Hd [H0 H1]. split.
  - apply Qle_shift_div_l; lra.
  - apply Qle_shift_div_r; lra.
Qed.

(** X17: [generateConferenceStats] has an entry exactly for the conferences
    that occur in the dataset.  The entry of a conference lists its schools
    in the order of the dataset, so [count] is at least 1 and nothing is
    divided by zero; the totals are the sums over these schools, each average
    times [count] is its total, and every rate lies between 0 and 1. *)
Theorem generateConferenceStats_summarises (schools : list FullSchool) (conf : string) :
  (generateConferenceStats schools !! conf = None ↔ of_conference conf schools = []) ∧
  ∀ st, generateConferenceStats schools !! conf = Some st →
    let mine := of_conference conf schools in
    t_schools (totals st) = mine ∧ mine ≠ [] ∧
    count st = inject_Z (Z.of_nat (length mine)) ∧ 1 <= count st ∧
    totalBpm (totals st) == total (λ s, bpm (base s)) mine ∧
    totalDuration (totals st) == total (λ s, sec_duration (base s)) mine ∧
    totalTropes (totals st) == total (λ s, trope_count (base s)) mine ∧
    avgBpm st * count st == totalBpm (totals st) ∧
    avgDuration st * count st == totalDuration (totals st) ∧
    avgTropes st * count st == totalTropes (totals st) ∧
    0 <= fightRate st <= 1 ∧ 0 <= victoryRate st <= 1 ∧
    0 <= studentWriterRate st <= 1 ∧ 0 <= spellingRate st <= 1 ∧
    0 <= winWonRate st <= 1 ∧ 0 <= rahRate st <= 1.
Proof.
  unfold generateConferenceStats. rewrite lookup_fmap, fold_tally_lookup, lookup_empty.
  split.
  - by destruct (of_conference conf schools).
  - intros st Hst. cbv zeta.
    destruct (of_conference conf schools) as [|s0 l0] eqn:Hmine; [done|].
    simpl in Hst. injection Hst as <-.
    destruct (fold_add_school (s0 :: l0) no_totals)
      as [H1 H2 H3 H4 H5 H6 H7 H8 H9 H10].
    simpl fold_left in *.
    set (t := fold_left add_school l0 (add_school no_totals s0)) in *.
    simpl in H1.
    assert (Hcount : count (averages t) = inject_Z (Z.of_nat (length (s0 :: l0)))).
    { unfold averages; simpl. by rewrite H1. }
    assert (Hpos : 1 <= count (averages t)).
    { rewrite Hcount. simpl length. rewrite Nat2Z.inj_succ, <- Z.add_1_r, inject_Z_plus.
      assert (0 <= inject_Z (Z.of_nat (length l0))).
      { change 0 with (inject_Z 0). rewrite <- Zle_Qle. lia. }
      change (inject_Z 1) with 1. lra. }
    assert (Hnz : ¬ count (averages t) == 0) by lra.
    assert (Hrate : ∀ flag n, n == 0 + total (λ s, one_if (flag s)) (s0 :: l0) →
                    0 <= n / count (averages t) <= 1).
    { intros flag n Hn. apply rate_range; [lra|].
      pose proof (total_flags_range flag (s0 :: l0)). rewrite Hcount, Hn. lra. }
    split_and!;
      first
        [ exact H1 | done | exact Hcount | exact Hpos
        | change (totalBpm (totals (averages t))) with (totalBpm t);
          rewrite H2; simpl; ring
        | change (totalDuration (totals (averages t))) with (totalDuration t);
          rewrite H3; simpl; ring
        | change (totalTropes (totals (averages t))) with (totalTropes t);
          rewrite H4; simpl; ring
        | change (avgBpm (averages t)) with (totalBpm t / count (averages t));
          simpl totals; by field
        | change (avgDuration (averages t)) with (totalDuration t / count (averages t));
          simpl totals; by field
        | change (avgTropes (averages t)) with (totalTropes t / count (averages t));
          simpl totals; by field
        | by apply (Hrate fight)
        | by apply (Hrate (λ s, victory s || win_won s))
        | by apply (Hrate student_writer)
        | by apply (Hrate spelling)
        | by apply (Hrate win_won)
        | by apply (Hrate rah) ].
Qed.

End StatsFacts.

(* ===================================================================== *)
(** * More facts about the views: layout *)
(* ===================================================================== *)

Module LayoutFacts.
Import Utils Views UtilsFacts ViewsFacts Helpers HelpersFacts Stats StatsFacts Layout.

Local Open Scope Q_scope.

Lemma gtb_gt a b : gtb a b = true ↔ b < a.
Proof.
  unfold gtb. rewrite negb_true_iff, <- not_true_iff_false, Qle_bool_iff.
  split; [apply Qnot_le_lt|apply Qlt_not_le].
Qed.

Lemma gtb_le a b : gtb a b = false ↔ a <= b.
Proof. unfold gtb. by rewrite negb_false_iff, Qle_bool_iff. Qed.

Lemma ltb_lt a b : ltb a b = true ↔ a < b.
Proof. unfold ltb. apply gtb_gt. Qed.

Lemma ltb_ge a b : ltb a b = false ↔ b <= a.
Proof. unfold ltb. apply gtb_le. Qed.

Ltac compared :=
  repeat match goal with
  | H : gtb _ _ = true |- _ => apply gtb_gt in H
  | H : gtb _ _ = false |- _ => apply gtb_le in H
  | H : ltb _ _ = true |- _ => apply ltb_lt in H
  | H : ltb _ _ = false |- _ => apply ltb_ge in H
  end.

(** X18: the tooltip is never placed closer than the padding to the left or
    the top edge of the viewport; and when it is no wider than the viewport
    minus twice the padding and the pointer is inside the viewport, it ends
    at least the padding before the right edge, and likewise for its height
    and the bottom edge. *)
Theorem tooltip_stays_in_viewport (x y width height viewportWidth viewportHeight : Q) :
  let at_ := Tooltip.move x y width height viewportWidth viewportHeight in
  Tooltip.padding <= at_.1 ∧ Tooltip.padding <= at_.2 ∧
  (width <= viewportWidth - 2 * Tooltip.padding → x <= viewportWidth →
   at_.1 + width <= viewportWidth - Tooltip.padding) ∧
  (height <= viewportHeight - 2 * Tooltip.padding → y <= viewportHeight →
   at_.2 + height <= viewportHeight - Tooltip.padding).
Proof.
  unfold Tooltip.move, Tooltip.padding. cbv zeta.
  destruct (gtb (x + 15 + width) (viewportWidth - 15)) eqn:E1;
    destruct (gtb (y + 15 + height) (viewportHeight - 15)) eqn:E2;
    match goal with |- context [ltb ?a 15] => destruct (ltb a 15) eqn:E3 end;
    match goal with |- context [if ltb ?a 15 then _ else _] =>
      destruct (ltb a 15) eqn:E4 end;
    compared; simpl fst; simpl snd; split_and!; intros; lra.
Qed.

Lemma mapRange_range v inMin inMax outMin outMax :
  inMin < inMax → outMin <= outMax → inMin <= v <= inMax →
  outMin <= mapRange v inMin inMax outMin outMax <= outMax.
Proof.
  intros Hlt Hout Hv. unfold mapRange.
  assert (0 <= (v - inMin) / (inMax - inMin)) by (apply Qle_shift_div_l; lra).
  assert ((v - inMin) / (inMax - inMin) <= 1) by (apply Qle_shift_div_r; lra).
  split; nra.
Qed.

Lemma mapRange_mono v w inMin inMax outMin outMax :
  inMin < inMax → outMin <= outMax → v <= w →
  mapRange v inMin inMax outMin outMax <= mapRange w inMin inMax outMin outMax.
Proof.
  intros Hlt Hout Hv. unfold mapRange.
  assert ((v - inMin) / (inMax - inMin) <= (w - inMin) / (inMax - inMin)).
  { apply Qle_shift_div_l; [lra|].
    assert (E : (v - inMin) / (inMax - inMin) * (inMax - inMin) == v - inMin)
      by (field; lra).
    rewrite E. lra. }
  nra.
Qed.

Lemma inject_nat_S (k : nat) :
  inject_Z (Z.of_nat (S k)) == inject_Z (Z.of_nat k) + 1.
Proof. rewrite Nat2Z.inj_succ. unfold Z.succ. rewrite inject_Z_plus. reflexivity. Qed.

Lemma inject_nat_le (a b : nat) :
  (a ≤ b)%nat → inject_Z (Z.of_nat a) <= inject_Z (Z.of_nat b).
Proof. intros H. rewrite <- Zle_Qle. lia. Qed.

Lemma inject_nat_lt (a b : nat) :
  (a < b)%nat → inject_Z (Z.of_nat a) < inject_Z (Z.of_nat b).
Proof. intros H. rewrite <- Zlt_Qlt. lia. Qed.

Lemma sectors_from_lookup sr gr conferences a k sec :
  Clock.sectors_from sr gr conferences a !! k = Some sec →
  conferences !! k = Some (Clock.sector_conf sec) ∧
  Clock.start sec == a + inject_Z (Z.of_nat k) * (sr + gr) ∧
  Clock.stop sec == Clock.start sec + sr ∧
  Clock.mid sec == Clock.start sec + sr / 2.
Proof.
  revert a k. induction conferences as [|conf rest IH]; intros a k Hk; [done|].
  destruct k as [|k]; simpl in Hk.
  - simplify_eq. simpl. split_and!; [done|ring|reflexivity|reflexivity].
  - destruct (IH _ _ Hk) as (H1 & H2 & H3 & H4).
    split_and!; [done| |done|done].
    rewrite H2, inject_nat_S. ring.
Qed.

Lemma sectors_from_length sr gr conferences a :
  length (Clock.sectors_from sr gr conferences a) = length conferences.
Proof.
  revert a. induction conferences as [|conf rest IH]; intros a; [done|].
  simpl. by rewrite IH.
Qed.

(** X19: for a list of [n >= 1] conferences, [getSectorAngles] gives one
    sector per conference in order; sector [k] starts at [-PI/2 + k*2*PI/n],
    is [(360 - 3n)/n] degrees wide with its [mid] half way, and the next
    sector starts a gap of 3 degrees after its end, so the [n] sectors with
    their gaps fill the circle exactly once. *)
Theorem sectors_fill_the_circle (PI : Q) (conferences : list string) :
  conferences ≠ [] →
  let n := inject_Z (Z.of_nat (length conferences)) in
  let angles := Clock.getSectorAngles PI conferences in
  length angles = length conferences ∧
  n * (Clock.sectorRad PI conferences + Clock.gapRad PI) == 2 * PI ∧
  Clock.sectorRad PI conferences == (360 - 3 * n) / n * (PI / 180) ∧
  ∀ k sec, angles !! k = Some sec →
    conferences !! k = Some (Clock.sector_conf sec) ∧
    Clock.start sec == - PI / 2 + inject_Z (Z.of_nat k) * (2 * PI / n) ∧
    Clock.stop sec == Clock.start sec + Clock.sectorRad PI conferences ∧
    Clock.mid sec == (Clock.start sec + Clock.stop sec) / 2 ∧
    ∀ next, angles !! S k = Some next →
      Clock.start next == Clock.stop sec + Clock.gapRad PI.
Proof.
  intros Hne n angles.
  assert (Hn : ¬ n == 0).
  { subst n. destruct conferences as [|c l]; [done|].
    pose proof (inject_nat_lt 0 (length (c :: l)) ltac:(simpl; lia)) as H.
    change (inject_Z (Z.of_nat 0)) with 0 in H. lra. }
  assert (Hstep : Clock.sectorRad PI conferences + Clock.gapRad PI == 2 * PI / n).
  { unfold Clock.sectorRad, Clock.gapRad, Clock.sectorGap. fold n. cbv zeta.
    field. done. }
  split_and!.
  - apply sectors_from_length.
  - rewrite Hstep. field. done.
  - unfold Clock.sectorRad, Clock.sectorGap. fold n. cbv zeta. field. done.
  - intros k sec Hk.
    destruct (sectors_from_lookup _ _ _ _ _ _ Hk) as (H1 & H2 & H3 & H4).
    split_and!; [done| |done| |].
    + rewrite H2, Hstep. reflexivity.
    + rewrite H4, H3. field.
    + intros next Hnext.
      destruct (sectors_from_lookup _ _ _ _ _ _ Hnext) as (_ & H2' & _).
      rewrite H2', H3, H2, inject_nat_S. ring.
Qed.

Lemma sectors_fill_the_circle_witness :
  length (Clock.getSectorAngles 3 FightSongClock.conferences) = 6%nat.
Proof.
  destruct (sectors_fill_the_circle 3 FightSongClock.conferences) as [Hlen _];
    [discriminate|].
  exact Hlen.
Defined.

Lemma foldr_min_le (ns : list nat) (d n : nat) :
  n ∈ ns → (foldr Nat.min d ns ≤ n)%nat.
Proof.
  induction ns as [|m ns IH]; [by intros ?%elem_of_nil|].
  intros [->|Hn]%elem_of_cons; simpl; [lia|].
  specialize (IH Hn). lia.
Qed.

Lemma foldr_max_ge (ns : list nat) (d n : nat) :
  n ∈ ns → (n ≤ foldr Nat.max d ns)%nat.
Proof.
  induction ns as [|m ns IH]; [by intros ?%elem_of_nil|].
  intros [->|Hn]%elem_of_cons; simpl; [lia|].
  specialize (IH Hn). lia.
Qed.

Lemma count_in_extent (conferences : list string) (schools : list School) (conf : string) :
  conf ∈ conferences →
  ((Clock.extent (Clock.counts conferences schools)).1
   ≤ length (filter (λ s, conference s = conf) schools)
   ≤ (Clock.extent (Clock.counts conferences schools)).2)%nat.
Proof.
  intros Hconf.
  assert (length (filter (λ s, conference s = conf) schools)
          ∈ Clock.counts conferences schools).
  { unfold Clock.counts. apply list_elem_of_fmap. by exists conf. }
  split; [by apply foldr_min_le|by apply foldr_max_ge].
Qed.

Lemma outerRadius_mapRange (maxRadius : Q) (conferences : list string)
    (schools : list School) (conf : string) :
  let least := (Clock.extent (Clock.counts conferences schools)).1 in
  let most := (Clock.extent (Clock.counts conferences schools)).2 in
  (least < most)%nat → conf ∈ conferences →
  Clock.outerRadius maxRadius conferences schools conf
  == maxRadius * mapRange (inject_Z (Z.of_nat (length (filter (λ s, conference s = conf) schools))))
                          (inject_Z (Z.of_nat least)) (inject_Z (Z.of_nat most)) 0.5 1.
Proof.
  intros least most Hlt Hconf. unfold Clock.outerRadius. cbv zeta.
  fold least. fold most.
  pose proof (inject_nat_lt _ _ Hlt).
  destruct (0 <? length (filter (λ s, conference s = conf) schools))%nat eqn:E;
    [unfold mapRange, Clock.minOuterRadius; field; lra|].
  apply Nat.ltb_ge in E.
  destruct (count_in_extent conferences schools conf Hconf) as [Hl _]. fold least in Hl.
  assert (Hc : length (filter (λ s, conference s = conf) schools) = 0%nat) by lia.
  assert (Hz : least = 0%nat) by lia.
  rewrite Hc. rewrite Hz in *. unfold mapRange, Clock.minOuterRadius.
  change (inject_Z (Z.of_nat 0)) with 0 in *. field. lra.
Qed.

Lemma outerRadius_range (maxRadius : Q) (conferences : list string)
    (schools : list School) (conf : string) :
  0 <= maxRadius →
  ((Clock.extent (Clock.counts conferences schools)).1
   < (Clock.extent (Clock.counts conferences schools)).2)%nat →
  conf ∈ conferences →
  maxRadius * 0.5 <= Clock.outerRadius maxRadius conferences schools conf <= maxRadius.
Proof.
  intros Hmax Hlt Hconf.
  rewrite (outerRadius_mapRange maxRadius conferences schools conf Hlt Hconf).
  destruct (count_in_extent conferences schools conf Hconf) as [Hl Hm].
  destruct (mapRange_range
              (inject_Z (Z.of_nat (length (filter (λ s, conference s = conf) schools))))
              _ _ 0.5 1 (inject_nat_lt _ _ Hlt)) as [Hlo Hhi];
    [lra|split; by apply inject_nat_le|].
  revert Hlo Hhi. generalize (mapRange
    (inject_Z (Z.of_nat (length (filter (λ s, conference s = conf) schools))))
    (inject_Z (Z.of_nat (Clock.extent (Clock.counts conferences schools)).1))
    (inject_Z (Z.of_nat (Clock.extent (Clock.counts conferences schools)).2)) 0.5 1).
  intros m Hlo Hhi.
  assert (0 <= maxRadius * (m - 0.5)) by (apply Qmult_le_0_compat; lra).
  assert (0 <= maxRadius * (1 - m)) by (apply Qmult_le_0_compat; lra).
  split; lra.
Qed.

(** X20: when the conferences of the rose chart do not all have the same
    number of schools, the outer radius of every sector lies between half
    of [maxRadius] and [maxRadius]; a conference with the most schools gets
    [maxRadius], one with the fewest (or none) gets half of it, and a
    conference with more schools never gets a smaller sector. *)
Theorem sector_radius_grows_with_school_count (maxRadius : Q)
    (conferences : list string) (schools : list School) :
  let count conf := length (filter (λ s, conference s = conf) schools) in
  let least := (Clock.extent (Clock.counts conferences schools)).1 in
  let most := (Clock.extent (Clock.counts conferences schools)).2 in
  0 <= maxRadius →
  (least < most)%nat →
  ∀ conf, conf ∈ conferences →
    maxRadius / 2 <= Clock.outerRadius maxRadius conferences schools conf <= maxRadius ∧
    (count conf = most →
     Clock.outerRadius maxRadius conferences schools conf == maxRadius) ∧
    (count conf = least →
     Clock.outerRadius maxRadius conferences schools conf == maxRadius / 2) ∧
    ∀ conf', conf' ∈ conferences → (count conf ≤ count conf')%nat →
      Clock.outerRadius maxRadius conferences schools conf
        <= Clock.outerRadius maxRadius conferences schools conf'.
Proof.
  intros count least most Hmax Hlt conf Hconf.
  pose proof (inject_nat_lt _ _ Hlt) as Hlt'.
  pose proof (outerRadius_range maxRadius conferences schools conf Hmax Hlt Hconf) as Hrange.
  assert (Eh : maxRadius / 2 == maxRadius * 0.5) by field.
  split_and!.
  - rewrite Eh. apply Hrange.
  - apply Hrange.
  - intros Hc. rewrite (outerRadius_mapRange _ _ _ _ Hlt Hconf). fold (count conf).
    rewrite Hc. unfold mapRange. fold least. fold most. field. lra.
  - intros Hc. rewrite (outerRadius_mapRange _ _ _ _ Hlt Hconf). fold (count conf).
    rewrite Hc. unfold mapRange. fold least. fold most. field. lra.
  - intros conf' Hconf' Hle.
    rewrite (outerRadius_mapRange _ _ _ _ Hlt Hconf),
            (outerRadius_mapRange _ _ _ _ Hlt Hconf').
    assert (Hhalf : 0.5 <= 1) by (unfold Qle; simpl; lia).
    set (m := mapRange (inject_Z (Z.of_nat (length (filter (λ s, conference s = conf) schools)))) _ _ _ _).
    set (m' := mapRange (inject_Z (Z.of_nat (length (filter (λ s, conference s = conf') schools)))) _ _ _ _).
    assert (Hmono : m <= m').
    { subst m m'. apply mapRange_mono; [done|done|]. by apply inject_nat_le. }
    clearbody m m'.
    assert (0 <= maxRadius * (m' - m)) by (apply Qmult_le_0_compat; lra).
    lra.
Qed.

Lemma sector_radius_grows_with_school_count_witness :
  200 / 2 <= Clock.outerRadius 200 FightSongClock.conferences [army; alabama; indiana; purdue] "SEC" <= 200.
Proof.
  apply (sector_radius_grows_with_school_count 200 FightSongClock.conferences
           [army; alabama; indiana; purdue]).
  - discriminate.
  - vm_compute. lia.
  - apply (bool_decide_unpack _). vm_compute. exact I.
Defined.

(** X29: in a container at least 120 wide and high, when the conferences
    differ in size and the tempos in the dataset differ, the arc of every
    school lies inside its sector: at least 10 outside the inner radius and
    at least 5 inside the outer radius of its conference, the slowest tempo
    on the inner bound, the fastest on the outer one, and a faster school of
    the same conference never nearer the centre. *)
Theorem school_arcs_stay_in_their_sector (width height bpmMin bpmMax : Q)
    (conferences : list string) (schools : list School) (conf : string) (s : School) :
  let maxRadius := Clock.maxRadius width height in
  let inner := Clock.innerRadius maxRadius in
  let outer := Clock.outerRadius maxRadius conferences schools conf in
  120 <= width → 120 <= height →
  ((Clock.extent (Clock.counts conferences schools)).1
   < (Clock.extent (Clock.counts conferences schools)).2)%nat →
  conf ∈ conferences →
  bpmMin < bpmMax → bpmMin <= bpm s <= bpmMax →
  inner + 10 <= Clock.schoolRadius inner outer bpmMin bpmMax s <= outer - 5 ∧
  (bpm s == bpmMin → Clock.schoolRadius inner outer bpmMin bpmMax s == inner + 10) ∧
  (bpm s == bpmMax → Clock.schoolRadius inner outer bpmMin bpmMax s == outer - 5) ∧
  ∀ s', bpm s <= bpm s' →
    Clock.schoolRadius inner outer bpmMin bpmMax s
      <= Clock.schoolRadius inner outer bpmMin bpmMax s'.
Proof.
  intros maxRadius inner outer Hw Hh Hlt Hconf Hbpm Hs.
  assert (Hmax : 43 <= maxRadius).
  { subst maxRadius. unfold Clock.maxRadius.
    assert (120 <= Qmin width height) by (by apply Q.min_glb).
    assert (E : Qmin width height / 2 * 1.3 == Qmin width height * 0.65) by field.
    rewrite E. lra. }
  assert (Hroom : inner + 10 <= outer - 5).
  { pose proof (outerRadius_range maxRadius conferences schools conf ltac:(lra) Hlt Hconf)
      as [Hlo _].
    fold outer in Hlo. subst inner. unfold Clock.innerRadius, Clock.innerRadiusFraction.
    lra. }
  unfold Clock.schoolRadius.
  split_and!.
  - by apply mapRange_range.
  - by apply mapRange_range.
  - intros E. unfold mapRange. rewrite E. field. lra.
  - intros E. unfold mapRange. rewrite E. field. lra.
  - intros s' Hs'. by apply mapRange_mono.
Qed.

Lemma school_arcs_stay_in_their_sector_witness :
  Clock.innerRadius (Clock.maxRadius 400 400) + 10
  <= Clock.schoolRadius (Clock.innerRadius (Clock.maxRadius 400 400))
       (Clock.outerRadius (Clock.maxRadius 400 400) FightSongClock.conferences
          [army; alabama; indiana; purdue] "SEC")
       60 180 purdue.
Proof.
  assert (H120 : 120 <= 400) by discriminate.
  assert (Hcounts : ((Clock.extent (Clock.counts FightSongClock.conferences
                                      [army; alabama; indiana; purdue])).1
                     < (Clock.extent (Clock.counts FightSongClock.conferences
                                        [army; alabama; indiana; purdue])).2)%nat)
    by (vm_compute; lia).
  assert (Hconf : "SEC" ∈ FightSongClock.conferences)
    by (apply (bool_decide_unpack _); vm_compute; exact I).
  assert (Hext : 60 < 180) by reflexivity.
  assert (Hbpm : 60 <= bpm purdue <= 180) by (split; discriminate).
  destruct (school_arcs_stay_in_their_sector 400 400 60 180 FightSongClock.conferences
              [army; alabama; indiana; purdue] "SEC" purdue
              H120 H120 Hcounts Hconf Hext Hbpm) as [[Hlow _] _].
  exact Hlow.
Defined.

Lemma findIndex_first {A : Type} (p : A → bool) (l : list A) (i : nat) (x : A) :
  l !! i = Some x → p x = true →
  (∀ j y, (j < i)%nat → l !! j = Some y → p y = false) →
  Matrix.findIndex p l = Z.of_nat i.
Proof.
  revert i. induction l as [|a l IH]; intros i Hi Hp Hbefore; [done|].
  destruct i as [|i]; simpl in *.
  - simplify_eq. by rewrite Hp.
  - rewrite (Hbefore 0%nat a); [|lia|done].
    rewrite (IH i Hi Hp); [|intros j y Hj Hy; apply (Hbefore (S j) y); [lia|done]].
    destruct (Z.of_nat i <? 0)%Z eqn:E; [apply Z.ltb_lt in E; lia|lia].
Qed.

Lemma findIndex_none {A : Type} (p : A → bool) (l : list A) :
  (∀ x, x ∈ l → p x = false) → Matrix.findIndex p l = (-1)%Z.
Proof.
  induction l as [|a l IH]; intros Hl; [done|].
  simpl. rewrite (Hl a) by apply list_elem_of_here.
  rewrite IH; [done|]. intros x Hx. apply Hl. by apply list_elem_of_further.
Qed.

(** X23: the cells of the matrix are at least 12 wide.  When the container
    gives every school at least 14 units, the columns with their gaps fill
    the inner width exactly; otherwise the cells stay at 12 and the matrix is
    wider than the container.  The gold box is put where the first column of
    Purdue is, 3 units to its left, and with no Purdue in the array the
    computed position is left of the first column. *)
Theorem matrix_columns_and_highlight (width : Q) (h : heap) (m : TropeMatrix.t) :
  let n := length (array_at h (TropeMatrix.schools m)) in
  let innerWidth := width - TropeMatrix.margin_left - TropeMatrix.margin_right in
  let step := TropeMatrix.cellWidth m + TropeMatrix.cellGap in
  (0 < n)%nat →
  TropeMatrix.cellWidth m = TropeMatrix.init_cellWidth width n →
  12 <= TropeMatrix.cellWidth m ∧
  (14 * inject_Z (Z.of_nat n) <= innerWidth → inject_Z (Z.of_nat n) * step == innerWidth) ∧
  (innerWidth < 14 * inject_Z (Z.of_nat n) →
   TropeMatrix.cellWidth m == 12 ∧ innerWidth < inject_Z (Z.of_nat n) * step) ∧
  (∀ i p x, TropeMatrix.columns h m !! i = Some (p, x) → isPurdue p = true →
     (∀ j q y, (j < i)%nat → TropeMatrix.columns h m !! j = Some (q, y) →
               isPurdue q = false) →
     Matrix.highlight_x (TropeMatrix.cellWidth m) (array_at h (TropeMatrix.sortedSchools m))
       == x - 3) ∧
  ((∀ p x, (p, x) ∈ TropeMatrix.columns h m → isPurdue p = false) →
   Matrix.highlight_x (TropeMatrix.cellWidth m) (array_at h (TropeMatrix.sortedSchools m))
     < 0).
Proof.
  intros n innerWidth step Hn Hcw.
  assert (Hpos : 0 < inject_Z (Z.of_nat n)).
  { change 0 with (inject_Z (Z.of_nat 0)). by apply inject_nat_lt. }
  assert (Hdiv : innerWidth / inject_Z (Z.of_nat n) * inject_Z (Z.of_nat n) == innerWidth)
    by (field; lra).
  assert (Hcases :
    (12 <= innerWidth / inject_Z (Z.of_nat n) - 2 ∧
     TropeMatrix.cellWidth m == innerWidth / inject_Z (Z.of_nat n) - 2) ∨
    (innerWidth / inject_Z (Z.of_nat n) - 2 < 12 ∧ TropeMatrix.cellWidth m == 12)).
  { rewrite Hcw. unfold TropeMatrix.init_cellWidth. cbv zeta. fold innerWidth.
    unfold TropeMatrix.minCellWidth, TropeMatrix.cellGap.
    destruct (Q.max_spec 12 (innerWidth / inject_Z (Z.of_nat n) - 2)) as [[? ->]|[? ->]].
    - left. split; [lra|reflexivity].
    - destruct (Qlt_le_dec (innerWidth / inject_Z (Z.of_nat n) - 2) 12).
      + right. split; [done|reflexivity].
      + left. split; [done|lra]. }
  assert (Hquot : 14 * inject_Z (Z.of_nat n) <= innerWidth ↔
                  12 <= innerWidth / inject_Z (Z.of_nat n) - 2).
  { split; intros H.
    - assert (14 <= innerWidth / inject_Z (Z.of_nat n)) by (apply Qle_shift_div_l; lra).
      lra.
    - assert (14 * inject_Z (Z.of_nat n)
              <= innerWidth / inject_Z (Z.of_nat n) * inject_Z (Z.of_nat n))
        by (apply Qmult_le_compat_r; lra).
      lra. }
  subst step. unfold TropeMatrix.cellGap.
  split_and!.
  - destruct Hcases as [[? ->]|[? ->]]; lra.
  - intros Hfit. apply Hquot in Hfit.
    destruct Hcases as [[? ->]|[? Hc]]; [|lra].
    rewrite <- Hdiv at 2. ring.
  - intros Hnarrow.
    destruct Hcases as [[Hge ?]|[? Hc]]; [apply Hquot in Hge; lra|].
    split; [done|]. rewrite Hc. lra.
  - intros i p x Hi Hp Hfirst.
    apply columns_lookup in Hi as [Hi ->].
    unfold Matrix.highlight_x. cbv zeta.
    rewrite (findIndex_first _ _ i p Hi Hp); [reflexivity|].
    intros j q Hj Hq.
    apply (Hfirst j q (inject_Z (Z.of_nat j) * (TropeMatrix.cellWidth m + TropeMatrix.cellGap)));
      [done|]. by apply columns_lookup.
  - intros Hnone. unfold Matrix.highlight_x. cbv zeta.
    rewrite findIndex_none.
    + assert (12 <= TropeMatrix.cellWidth m) by (destruct Hcases as [[? ->]|[? ->]]; lra).
      change (inject_Z (-1)) with (-1). unfold TropeMatrix.cellGap. lra.
    + intros q Hq. apply list_elem_of_lookup in Hq as [j Hj].
      apply (Hnone q (inject_Z (Z.of_nat j) * (TropeMatrix.cellWidth m + TropeMatrix.cellGap))).
      apply list_elem_of_lookup. exists j. by apply columns_lookup.
Qed.

Lemma matrix_columns_and_highlight_witness :
  12 <= TropeMatrix.cellWidth matrix_of_four.
Proof.
  apply (matrix_columns_and_highlight 1000 four_schools matrix_of_four).
  - vm_compute. lia.
  - reflexivity.
Defined.

Lemma stats_rates (schools : list FullSchool) (conf : string) (st : ConferenceStats) :
  generateConferenceStats schools !! conf = Some st →
  0 <= studentWriterRate st <= 1 ∧ 0 <= spellingRate st <= 1 ∧
  0 <= winWonRate st <= 1 ∧ 0 <= rahRate st <= 1.
Proof.
  unfold generateConferenceStats. rewrite lookup_fmap, fold_tally_lookup, lookup_empty.
  destruct (of_conference conf schools) as [|s0 l0] eqn:Hmine; [done|].
  simpl. intros [= <-].
  destruct (fold_add_school (s0 :: l0) no_totals)
    as [H1 H2 H3 H4 H5 H6 H7 H8 H9 H10].
  simpl fold_left in *.
  set (t := fold_left add_school l0 (add_school no_totals s0)) in *.
  simpl in H1.
  assert (Hcount : Stats.count (averages t) = inject_Z (Z.of_nat (length (s0 :: l0)))).
  { unfold averages; simpl. by rewrite H1. }
  assert (Hpos : 0 < Stats.count (averages t)).
  { rewrite Hcount. change 0 with (inject_Z (Z.of_nat 0)).
    apply inject_nat_lt. simpl. lia. }
  assert (Hrate : ∀ flag n, n == 0 + total (λ s, one_if (flag s)) (s0 :: l0) →
                  0 <= n / Stats.count (averages t) <= 1).
  { intros flag n Hn. apply rate_range; [done|].
    pose proof (total_flags_range flag (s0 :: l0)). rewrite Hcount, Hn. lra. }
  split_and!;
    first [ by apply (Hrate student_writer) | by apply (Hrate spelling)
          | by apply (Hrate win_won) | by apply (Hrate rah) ].
Qed.

Lemma dataRadius_range (radius max value : Q) (normalize : bool) :
  0 <= radius → 0 <= Radar.dataRadius radius normalize max value <= radius.
Proof.
  intros Hr. unfold Radar.dataRadius. cbv zeta.
  generalize (if normalize then value / max else value). intros v.
  assert (Hw : 0 <= Qmin (Qmax v 0) 1 <= 1).
  { destruct (Q.max_spec v 0) as [[? Hmax]|[? Hmax]],
             (Q.min_spec (Qmax v 0) 1) as [[? Hmin]|[? Hmin]];
      rewrite Hmin; rewrite ?Hmax; split; lra. }
  revert Hw. generalize (Qmin (Qmax v 0) 1). intros w Hw.
  assert (0 <= radius * w) by (apply Qmult_le_0_compat; lra).
  assert (0 <= radius * (1 - w)) by (apply Qmult_le_0_compat; lra).
  split; lra.
Qed.

Lemma dataRadius_rate (radius value : Q) :
  0 <= value <= 1 → Radar.dataRadius radius false 1 value == radius * value.
Proof.
  intros Hv. unfold Radar.dataRadius. cbv zeta.
  assert (Hw : Qmin (Qmax value 0) 1 == value).
  { destruct (Q.max_spec value 0) as [[? Hmax]|[? Hmax]],
             (Q.min_spec (Qmax value 0) 1) as [[? Hmin]|[? Hmin]];
      rewrite Hmin; rewrite ?Hmax; lra. }
  by rewrite Hw.
Qed.

(** X24: a radar chart is at least 80 wide and its axes are 20 shorter than
    half its side, at least 20 long.  For a conference with schools in the
    dataset, [createRadar] draws one corner per dimension, none further from
    the centre than the axis is long, and the four rates are drawn at exactly
    their share of the axis; for a conference without schools there are no
    statistics and it fails. *)
Theorem radar_polygon_stays_on_its_axes (schools : list FullSchool)
    (width height : Q) (conference : string) :
  let stats := generateConferenceStats schools in
  let radius := Radar.radius width height in
  80 <= Radar.size width height ∧
  radius == Radar.size width height / 2 - 20 ∧ 20 <= radius ∧
  (Radar.createRadar stats width height conference = None ↔
   of_conference conference schools = []) ∧
  ∀ corners, Radar.createRadar stats width height conference = Some corners →
    length corners = 5%nat ∧
    (∀ r, r ∈ corners → 0 <= r <= radius) ∧
    ∃ st, stats !! conference = Some st ∧
      Radar.corner_at corners 0 (radius * studentWriterRate st) ∧
      Radar.corner_at corners 1 (radius * spellingRate st) ∧
      Radar.corner_at corners 2 (radius * winWonRate st) ∧
      Radar.corner_at corners 3 (radius * rahRate st).
Proof.
  intros stats radius.
  assert (Hsize : 80 <= Radar.size width height).
  { unfold Radar.size. apply Q.le_max_r. }
  assert (Hradius : radius == Radar.size width height / 2 - 20).
  { subst radius. unfold Radar.radius.
    destruct (Q.max_spec (Radar.size width height / 2 - 20) 20) as [[? ->]|[? ->]];
      [|reflexivity].
    assert (E : Radar.size width height / 2 == Radar.size width height * (1 # 2)) by field.
    rewrite E in *. lra. }
  assert (H20 : 20 <= radius) by (subst radius; unfold Radar.radius; apply Q.le_max_r).
  split_and!; try done.
  - unfold Radar.createRadar. subst stats. unfold generateConferenceStats.
    rewrite lookup_fmap, fold_tally_lookup, lookup_empty.
    by destruct (of_conference conference schools).
  - intros corners. unfold Radar.createRadar.
    destruct (stats !! conference) as [st|] eqn:Hst; [|done].
    intros [= <-]. fold radius.
    destruct (stats_rates _ _ _ Hst) as (H1 & H2 & H3 & H4).
    split_and!.
    + reflexivity.
    + intros r Hr. repeat (apply elem_of_cons in Hr as [->|Hr]);
        [apply dataRadius_range; lra ..|by apply elem_of_nil in Hr].
    + exists st. split; [done|]. simpl.
      split_and!; (eexists; split; [reflexivity|by apply dataRadius_rate]).
Qed.

End LayoutFacts.

(* ===================================================================== *)
(** * Facts about hovering *)
(* ===================================================================== *)

Module HoverFacts.
Import Utils Views Hover.

Local Open Scope Q_scope.

Lemma listener_frame (v : view) (school : option School) (p : page) :
  hoveredSchool (listener v school p) = hoveredSchool p ∧
  activeConference (listener v school p) = activeConference p ∧
  own (listener v school p) = own p ∧
  ∀ w, w ≠ v → opacity (listener v school p) w = opacity p w.
Proof.
  assert (Hset : ∀ o,
    hoveredSchool (set_opacity v o p) = hoveredSchool p ∧
    activeConference (set_opacity v o p) = activeConference p ∧
    own (set_opacity v o p) = own p ∧
    ∀ w, w ≠ v → opacity (set_opacity v o p) w = opacity p w).
  { intros o. split_and!; try done. intros w Hw. unfold set_opacity, update; cbn.
    by rewrite decide_False. }
  unfold listener, externalUnhighlight.
  destruct v, school as [s|];
    repeat match goal with
    | |- context [decide ?P] => destruct (decide P)
    | |- context [own p ?v] => destruct (own p v)
    end; first [apply Hset|done].
Qed.

Lemma listener_local (v : view) (school : option School) (p q : page) :
  activeConference p = activeConference q → own p v = own q v →
  opacity p v = opacity q v →
  opacity (listener v school p) v = opacity (listener v school q) v.
Proof.
  intros Ha Ho Hop.
  assert (Hset : ∀ o r, opacity (set_opacity v o r) v = o).
  { intros o r. unfold set_opacity, update; cbn. by rewrite decide_True. }
  unfold listener, externalUnhighlight, current_filter.
  destruct v, school as [s|]; rewrite <- ?Ho, <- ?Ha, <- ?Hop;
    repeat match goal with
    | |- context [decide ?P] => destruct (decide P)
    | |- context [own p ?v] => destruct (own p v)
    end; rewrite ?Hset; done.
Qed.

Lemma notify_views (vs : list view) (school : option School) (p : page) :
  NoDup vs →
  let p' := foldl (λ p v, listener v school p) p vs in
  hoveredSchool p' = hoveredSchool p ∧ activeConference p' = activeConference p ∧
  own p' = own p ∧
  ∀ w, opacity p' w = if decide (w ∈ vs) then opacity (listener w school p) w
                      else opacity p w.
Proof.
  intros Hvs. revert p. induction Hvs as [|v vs Hv Hvs IH]; intros p; cbv zeta.
  - split_and!; try done; intros w; by rewrite decide_False by apply not_elem_of_nil.
  - cbn [foldl].
    destruct (IH (listener v school p)) as (H1 & H2 & H3 & H4).
    destruct (listener_frame v school p) as (F1 & F2 & F3 & F4).
    rewrite H1, H2, H3. split_and!; try done.
    intros w. rewrite H4.
    destruct (decide (w ∈ vs)) as [Hw|Hw].
    + rewrite decide_True by (by apply list_elem_of_further).
      assert (w ≠ v) by (intros ->; done).
      apply listener_local; [done|by rewrite F3|by apply F4].
    + destruct (decide (w = v)) as [->|Hne].
      * rewrite decide_True by apply list_elem_of_here. done.
      * rewrite decide_False by (intros [?|?]%elem_of_cons; done). by apply F4.
Qed.

Lemma subscribers_all : NoDup subscribers ∧ ∀ w, w ∈ subscribers.
Proof.
  split.
  - apply (bool_decide_unpack _). vm_compute. exact I.
  - intros w. unfold subscribers. destruct w; set_solver.
Qed.

Lemma hoverSchool_fields (school : option School) (p : page) :
  hoveredSchool p ≠ school →
  hoveredSchool (hoverSchool school p) = school ∧
  activeConference (hoverSchool school p) = activeConference p ∧
  own (hoverSchool school p) = own p ∧
  ∀ w, opacity (hoverSchool school p) w
       = opacity (listener w school (set_hoveredSchool school p)) w.
Proof.
  intros Hnew. unfold hoverSchool. rewrite decide_False by done.
  destruct subscribers_all as [Hnodup Hall].
  destruct (notify_views subscribers school (set_hoveredSchool school p) Hnodup)
    as (H1 & H2 & H3 & H4).
  split_and!; [by rewrite H1|by rewrite H2|by rewrite H3|].
  intros w. rewrite H4. by rewrite decide_True.
Qed.

Lemma enter_fields (v : view) (school : School) (p : page) :
  quiet p →
  let p' := handleMouseEnter v school p in
  hoveredSchool p' = Some school ∧ activeConference p' = activeConference p ∧
  (∀ w, w ≠ v → keeps_hovered w = true → own p' w = None) ∧
  (∀ w, w ≠ v →
     opacity p' w = match w with
                    | Map | Scatter | Matrix => externalHighlight w school
                    | Parallel | Clock => highlight w school (opacity p w)
                    end).
Proof.
  intros [Hh Hown]. unfold handleMouseEnter. cbv zeta.
  set (p1 := if keeps_hovered v then set_own v (Some school) p else p).
  assert (Hp1 : hoveredSchool p1 = None ∧ activeConference p1 = activeConference p ∧
                opacity p1 = opacity p ∧
                ∀ w, w ≠ v → own p1 w = own p w).
  { subst p1. destruct (keeps_hovered v); [|done].
    split_and!; try done. intros w Hw. unfold set_own, update; cbn.
    by rewrite decide_False. }
  destruct Hp1 as (P1 & P2 & P3 & P4).
  destruct (hoverSchool_fields (Some school) p1) as (H1 & H2 & H3 & H4);
    [by rewrite P1|].
  split_and!.
  - done.
  - cbn. by rewrite H2.
  - intros w Hw Hk. cbn. rewrite H3, P4 by done. by apply Hown.
  - intros w Hw. unfold set_opacity, update; cbn. rewrite decide_False by done.
    rewrite H4.
    assert (Hnone : keeps_hovered w = true → own (set_hoveredSchool (Some school) p1) w = None).
    { intros Hk. cbn. rewrite P4 by done. by apply Hown. }
    unfold listener. destruct w; cbn in Hnone |- *;
      rewrite ?Hnone by done; rewrite ?decide_True by done;
      unfold set_opacity, update; cbn; rewrite ?P3; done.
Qed.

Lemma leave_fields (v : view) (school : School) (p : page) :
  hoveredSchool p ≠ None →
  (∀ w, w ≠ v → keeps_hovered w = true → own p w = None) →
  let after := handleMouseLeave v school p in
  quiet after ∧ activeConference after = activeConference p ∧
  opacity after v = unhighlight v (current_filter p) ∧
  (∀ w, w ≠ v →
     opacity after w = match w with
                       | Matrix => filterByConference Matrix (current_filter p)
                       | _ => opacity p w
                       end).
Proof.
  intros Hh Hown. unfold handleMouseLeave. cbv zeta.
  set (p1 := if keeps_hovered v then set_own v None p else p).
  assert (Hp1 : hoveredSchool p1 = hoveredSchool p ∧
                activeConference p1 = activeConference p ∧
                opacity p1 = opacity p ∧
                ∀ w, keeps_hovered w = true → own p1 w = None).
  { subst p1. destruct (keeps_hovered v) eqn:Hk.
    - split_and!; try done. intros w Hw. unfold set_own, update; cbn.
      destruct (decide (w = v)); [done|by apply Hown].
    - split_and!; try done. intros w Hw. apply Hown; [|done]. intros ->. congruence. }
  destruct Hp1 as (P1 & P2 & P3 & P4).
  destruct (hoverSchool_fields None p1) as (H1 & H2 & H3 & H4); [by rewrite P1|].
  assert (Hfilter : current_filter (hoverSchool None p1) = current_filter p).
  { unfold current_filter. by rewrite H2, P2. }
  rewrite Hfilter.
  split_and!.
  - split; [done|]. intros w Hk. cbn. rewrite H3. by apply P4.
  - cbn. by rewrite H2.
  - unfold set_opacity, update; cbn. by rewrite decide_True.
  - intros w Hw. unfold set_opacity, update; cbn. rewrite decide_False by done.
    rewrite H4.
    assert (Hnone : keeps_hovered w = true → own (set_hoveredSchool None p1) w = None).
    { intros Hk. cbn. by apply P4. }
    unfold listener, externalUnhighlight, current_filter.
    destruct w; cbn in Hnone |- *; rewrite ?Hnone by done;
      unfold set_opacity, update; cbn; rewrite ?P2, ?P3; done.
Qed.

(** X21: from a page on which nothing is hovered, moving the pointer onto a
    school of one view and off again leaves nothing hovered, but not the
    page as the filter drew it: the map and the matrix, when they were the
    hovered view, show every school at opacity 1 whatever the filter, where
    the scatter plot, the parallel coordinates and the rose chart return to
    the opacities of their [filterByConference]; and of the other views only
    the matrix returns to its filter opacities, the others keep the
    highlight of the school that was hovered. *)
Theorem hover_leaves_highlights_behind (v : view) (school : School) (p : page) :
  quiet p →
  let after := handleMouseLeave v school (handleMouseEnter v school p) in
  let F := current_filter p in
  quiet after ∧ activeConference after = activeConference p ∧
  (∀ d, opacity after v d =
     match v with
     | Map | Matrix => 1
     | _ => filterByConference v F d
     end) ∧
  (∀ w d, w ≠ v →
     opacity after w d =
       match w with
       | Matrix => filterByConference Matrix F d
       | Map | Scatter => externalHighlight w school d
       | Parallel | Clock => highlight w school (opacity p w) d
       end).
Proof.
  intros Hquiet. cbv zeta.
  destruct (enter_fields v school p Hquiet) as (E1 & E2 & E3 & E4).
  destruct (leave_fields v school (handleMouseEnter v school p)) as (L1 & L2 & L3 & L4);
    [by rewrite E1|done|].
  assert (Hfilter : current_filter (handleMouseEnter v school p) = current_filter p).
  { unfold current_filter. by rewrite E2. }
  rewrite Hfilter in L3, L4.
  split_and!.
  - done.
  - by rewrite L2.
  - intros d. rewrite L3. by destruct v.
  - intros w d Hw. rewrite (L4 w Hw).
    destruct w; try done; by rewrite (E4 _ Hw).
Qed.

Lemma hover_leaves_highlights_behind_witness :
  opacity (handleMouseLeave Matrix alabama (handleMouseEnter Matrix alabama (fresh_page "SEC")))
    Matrix army = 1 ∧
  opacity (handleMouseLeave Matrix alabama (handleMouseEnter Matrix alabama (fresh_page "SEC")))
    Map army = 0.3.
Proof.
  destruct (hover_leaves_highlights_behind Matrix alabama (fresh_page "SEC"))
    as (_ & _ & Hv & Hw).
  - split; [reflexivity|]. intros v _. reflexivity.
  - split; [apply Hv|]. rewrite (Hw Map army); [reflexivity|discriminate].
Defined.

Lemma card_invariant (schools : list School) (ns : list notification) :
  currentDisplayedSchool (card_after schools ns) = None → defaultSchool schools = None.
Proof.
  unfold card_after.
  assert (H0 : currentDisplayedSchool (setupSchoolCardSubscription schools) = None →
               defaultSchool schools = None).
  { unfold setupSchoolCardSubscription. by destruct (defaultSchool schools). }
  revert H0. generalize (setupSchoolCardSubscription schools) as c.
  induction ns as [|n ns IH]; intros c Hc; [done|].
  simpl. apply IH.
  destruct n as [[s|]|[s|]]; simpl; try done.
  - destruct (selectedSchool c); done.
  - destruct (currentDisplayedSchool c) eqn:E; simpl; [done|]. intros _. by apply Hc.
Qed.

Lemma card_selected (schools : list School) (ns : list notification) :
  selectedSchool (card_after schools ns) = selection_after ns.
Proof.
  unfold card_after, selection_after.
  assert (H0 : selectedSchool (setupSchoolCardSubscription schools) = None).
  { unfold setupSchoolCardSubscription. by destruct (defaultSchool schools). }
  revert H0. generalize (setupSchoolCardSubscription schools) as c.
  generalize (@None School) as sel.
  induction ns as [|n ns IH]; intros sel c Hc; [done|].
  simpl. apply IH.
  destruct n as [[s|]|[s|]]; simpl; try done.
  - by destruct (selectedSchool c).
  - by destruct (currentDisplayedSchool c).
Qed.

(** X22: the school card shows what the last notification decides, whatever
    came before it: a hovered or selected school when the notification
    carries one; when the hover ends, the selected school if there is one
    and the default school (Purdue, else the first school) otherwise; and
    when the selection is cleared, the default school, even while a school
    is still hovered.  It is empty only if the dataset is. *)
Theorem card_shows_last_notification (schools : list School)
    (ns : list notification) (n : notification) :
  let shown := currentDisplayedSchool (card_after schools (ns ++ [n])) in
  shown =
    match n with
    | Hovered (Some s) | Selected (Some s) => Some s
    | Hovered None =>
        match selection_after ns with
        | Some sel => Some sel
        | None => defaultSchool schools
        end
    | Selected None => defaultSchool schools
    end ∧
  (shown = None → schools = []).
Proof.
  cbv zeta.
  assert (Hshown : currentDisplayedSchool (card_after schools (ns ++ [n])) =
    match n with
    | Hovered (Some s) | Selected (Some s) => Some s
    | Hovered None =>
        match selection_after ns with
        | Some sel => Some sel
        | None => defaultSchool schools
        end
    | Selected None => defaultSchool schools
    end).
  { unfold card_after. rewrite foldl_app. simpl.
    fold (card_after schools ns).
    pose proof (card_invariant schools ns) as Hinv.
    pose proof (card_selected schools ns) as Hsel.
    destruct n as [[s|]|[s|]]; simpl; try done.
    - rewrite <- Hsel. by destruct (selectedSchool (card_after schools ns)).
    - destruct (currentDisplayedSchool (card_after schools ns)) eqn:E; simpl; [done|].
      symmetry. by apply Hinv. }
  split; [exact Hshown|].
  intros Hnone.
  pose proof (card_invariant schools (ns ++ [n]) Hnone) as Hd.
  unfold defaultSchool in Hd.
  destruct (List.find isPurdue schools); [done|].
  by destruct schools.
Qed.

End HoverFacts.

(* ===================================================================== *)
(** * Facts about pointing, brushing and ranking *)
(* ===================================================================== *)

Module InteractionFacts.
Import Utils Views UtilsFacts ViewsFacts Helpers Stats Queries Layout LayoutFacts Interaction.

Local Open Scope Q_scope.

Lemma sub_self (x : Binary64.float64) :
  Binary64.finite x = true → Binary64.sub x x = SpecFloat.S754_zero false.
Proof.
  destruct x as [s|s| |s m e]; try discriminate; intros _.
  - by destruct s.
  - unfold Binary64.sub, SpecFloat.SFsub. cbv zeta.
    rewrite Z.min_id. unfold SpecFloat.shl_align. rewrite Z.sub_diag. cbn [fst].
    reflexivity.
Qed.

(** X25: in doubles too, two records whose tempo, duration and trope count
    are the same finite numbers and whose conference is the same score the
    double nearest to 10/7: the three difference terms are exactly 1, and
    [prepareData] links the two records when it compares them. *)
Theorem identical_records_are_linked (s1 s2 : School) :
  Binary64.finite (Binary64.of_Q (bpm s1)) = true →
  Binary64.finite (Binary64.of_Q (sec_duration s1)) = true →
  Binary64.finite (Binary64.of_Q (trope_count s1)) = true →
  Binary64.of_Q (bpm s1) = Binary64.of_Q (bpm s2) →
  Binary64.of_Q (sec_duration s1) = Binary64.of_Q (sec_duration s2) →
  Binary64.of_Q (trope_count s1) = Binary64.of_Q (trope_count s2) →
  conference s1 = conference s2 →
  NetworkGraph64.bpmSim s1 s2 = Binary64.of_Z 1 ∧
  NetworkGraph64.durationSim s1 s2 = Binary64.of_Z 1 ∧
  NetworkGraph64.tropeSim s1 s2 = Binary64.of_Z 1 ∧
  NetworkGraph64.calculateSimilarity s1 s2 = Binary64.of_Q (10 # 7) ∧
  NetworkGraph64.prepareData [s1; s2]
  = [ {| NetworkGraph64.source := school s1; NetworkGraph64.target := school s2;
         NetworkGraph64.similarity := Binary64.of_Q (10 # 7) |} ].
Proof.
  intros Fb Fd Ft Hb Hd Ht Hc.
  assert (H1 : NetworkGraph64.bpmSim s1 s2 = Binary64.of_Z 1).
  { unfold NetworkGraph64.bpmSim. cbv zeta. rewrite <- Hb, sub_self by done.
    vm_compute. reflexivity. }
  assert (H2 : NetworkGraph64.durationSim s1 s2 = Binary64.of_Z 1).
  { unfold NetworkGraph64.durationSim. cbv zeta. rewrite <- Hd, sub_self by done.
    vm_compute. reflexivity. }
  assert (H3 : NetworkGraph64.tropeSim s1 s2 = Binary64.of_Z 1).
  { unfold NetworkGraph64.tropeSim. cbv zeta. rewrite <- Ht, sub_self by done.
    vm_compute. reflexivity. }
  assert (H4 : NetworkGraph64.calculateSimilarity s1 s2 = Binary64.of_Q (10 # 7)).
  { unfold NetworkGraph64.calculateSimilarity, NetworkGraph64.confSim.
    rewrite H1, H2, H3, Hc, String.eqb_refl. vm_compute. reflexivity. }
  split_and!; try done.
  cbn [NetworkGraph64.prepareData NetworkGraph64.links_from]. rewrite H4.
  replace (Binary64.gt (Binary64.of_Q (10 # 7)) NetworkGraph64.similarityThreshold)
    with true by (vm_compute; reflexivity).
  reflexivity.
Qed.

Lemma identical_records_are_linked_witness :
  NetworkGraph64.prepareData [purdue; indiana]
  = [ {| NetworkGraph64.source := "Purdue"; NetworkGraph64.target := "Indiana";
         NetworkGraph64.similarity := Binary64.of_Q (10 # 7) |} ].
Proof.
  destruct (identical_records_are_linked purdue indiana) as (_ & _ & _ & _ & H);
    [reflexivity|reflexivity|reflexivity|reflexivity|reflexivity|reflexivity|reflexivity|].
  exact H.
Defined.
Lemma find_in_prefix {A : Type} (f : A → bool) (l1 l2 : list A) (x : A) :
  x ∈ l1 → f x = true →
  ∃ y, List.find f (l1 ++ l2) = Some y ∧ y ∈ l1 ∧ f y = true.
Proof.
  induction l1 as [|a l1 IH]; [by intros ?%elem_of_nil|].
  intros Hx Hf. simpl. destruct (f a) eqn:Ha.
  - exists a. split_and!; [done|apply list_elem_of_here|done].
  - apply elem_of_cons in Hx as [->|Hx]; [congruence|].
    destruct (IH Hx Hf) as (y & Hy & Hin & Hfy).
    exists y. split_and!; [done|by apply list_elem_of_further|done].
Qed.

(** X26: the hover of the hero map takes the last marker of the array that
    the pointer is close enough to, and none when there is no such marker;
    as the markers of Purdue are the last of the array, a school named
    Purdue whose marker is within reach is the one hovered, whatever other
    markers overlap it. *)
Theorem hover_prefers_purdue (dist : EnergyGalaxy.Marker → Q) (schools : list School) :
  let markers := EnergyGalaxy.createMarkers schools in
  (∀ m, found dist markers = Some m →
     hit dist m = true ∧
     ∃ i, markers !! i = Some m ∧
          ∀ j m', (i < j)%nat → markers !! j = Some m' → hit dist m' = false) ∧
  (found dist markers = None ↔ ∀ m, m ∈ markers → hit dist m = false) ∧
  (∀ p, p ∈ schools → isPurdue p = true → hit dist (EnergyGalaxy.marker_of p) = true →
     ∃ m, found dist markers = Some m ∧ EnergyGalaxy.marker_isPurdue m = true).
Proof.
  intros markers.
  assert (Hfound : ∀ l m, List.find (hit dist) (rev l) = Some m →
    hit dist m = true ∧
    ∃ i, l !! i = Some m ∧
         ∀ j m', (i < j)%nat → l !! j = Some m' → hit dist m' = false).
  { intros l. induction l as [|a l IH] using rev_ind; intros m; [done|].
    rewrite rev_app_distr. simpl. destruct (hit dist a) eqn:Ha.
    - intros [= <-]. split; [done|]. exists (length l). split.
      + by rewrite lookup_app_r, Nat.sub_diag.
      + intros j m' Hj Hm'. apply lookup_lt_Some in Hm'.
        rewrite length_app in Hm'. simpl in Hm'. lia.
    - intros Hm. destruct (IH m Hm) as (Hhit & i & Hi & Hlater).
      split; [done|]. exists i. split.
      + by apply lookup_app_l_Some.
      + intros j m' Hj Hm'.
        destruct (decide (j < length l)%nat) as [Hlt|Hge].
        * rewrite lookup_app_l in Hm' by done. by apply (Hlater j).
        * rewrite lookup_app_r in Hm' by lia.
          destruct (j - length l)%nat; simpl in Hm'; [by simplify_eq|done]. }
  split_and!.
  - intros m. apply Hfound.
  - unfold found. split.
    + intros Hnone m Hm. apply (find_none _ _ Hnone).
      apply in_rev. rewrite rev_involutive. by apply list_elem_of_In.
    + intros Hall. destruct (List.find (hit dist) (rev markers)) as [m|] eqn:E; [|done].
      apply find_some in E as [Hin Hhit].
      apply in_rev, list_elem_of_In in Hin. rewrite (Hall m Hin) in Hhit. done.
  - intros p Hp Hpurdue Hhit. unfold found. subst markers.
    unfold EnergyGalaxy.createMarkers.
    rewrite (SortFacts.array_sort_featured_last EnergyGalaxy.marker_isPurdue).
    rewrite rev_app_distr.
    destruct (find_in_prefix (hit dist)
                (rev (filter (λ x, EnergyGalaxy.marker_isPurdue x = true)
                             (EnergyGalaxy.marker_of <$> schools)))
                (rev (filter (λ x, EnergyGalaxy.marker_isPurdue x = false)
                             (EnergyGalaxy.marker_of <$> schools)))
                (EnergyGalaxy.marker_of p)) as (m & Hm & Hin & _).
    + apply list_elem_of_In. apply -> in_rev. apply list_elem_of_In.
      apply list_elem_of_filter. split; [done|].
      apply list_elem_of_fmap. by exists p.
    + done.
    + exists m. split; [done|].
      apply list_elem_of_In, in_rev, list_elem_of_In in Hin.
      by apply list_elem_of_filter in Hin as [? _].
Qed.

Lemma hover_prefers_purdue_witness :
  ∃ m, found (λ _, 0) (EnergyGalaxy.createMarkers [purdue; army]) = Some m ∧
       EnergyGalaxy.marker_isPurdue m = true.
Proof.
  destruct (hover_prefers_purdue (λ _, 0) [purdue; army]) as (_ & _ & H).
  apply (H purdue).
  - apply list_elem_of_here.
  - reflexivity.
  - reflexivity.
Defined.

Lemma isVisible_spec (scales : dimension → Q → Q) (b : brushes) (d : FullSchool) :
  isVisible scales b d = true ↔ ∀ dim, within scales b d dim = true.
Proof.
  unfold isVisible. rewrite forallb_forall. split.
  - intros H dim. apply H. destruct dim; simpl; tauto.
  - intros H dim _. apply H.
Qed.

(** X27: brushing the parallel coordinates never touches Purdue's line,
    which stays at 0.8; without a brush every other line is at 0.3; a line is
    shown when on every brushed axis its value lies within the selection,
    and hidden at 0.05 otherwise, so a further brush only hides lines and
    clearing a brush only shows them.  The opacities do not depend on the
    conference filter: a line the filter had dimmed to 0.1 comes back at 0.3
    with the next brush that includes it. *)
Theorem brushing_hides_all_but_purdue (scales : dimension → Q → Q)
    (b : brushes) (d : FullSchool) :
  (isPurdue (base d) = true → filterLines scales b d = 0.8) ∧
  (isPurdue (base d) = false →
   filterLines scales no_brushes d = ParallelCoordinates.lineOpacity ∧
   (filterLines scales b d = ParallelCoordinates.lineOpacity ↔
    ∀ dim y0 y1, b dim = Some (y0, y1) →
      y0 <= scales dim (value_on dim d) <= y1) ∧
   (filterLines scales b d ≠ ParallelCoordinates.lineOpacity →
    filterLines scales b d = 0.05) ∧
   (∀ dim selection,
      filterLines scales (on_brush dim selection b) d = ParallelCoordinates.lineOpacity →
      filterLines scales (on_brush dim None b) d = ParallelCoordinates.lineOpacity) ∧
   (∀ F, filterLines scales b d = ParallelCoordinates.lineOpacity →
         matches F (base d) = false →
         ParallelCoordinates.filterByConference F (base d) = 0.1)).
Proof.
  split; [by unfold filterLines; intros ->|].
  intros Hnp.
  assert (Hshown : ∀ b', filterLines scales b' d = ParallelCoordinates.lineOpacity ↔
                         isVisible scales b' d = true).
  { intros b'. unfold filterLines. rewrite Hnp.
    destruct (isVisible scales b' d); [done|]. split; [|done].
    unfold ParallelCoordinates.lineOpacity. discriminate. }
  assert (Hwithin : ∀ b' dim, within scales b' d dim = true ↔
            ∀ y0 y1, b' dim = Some (y0, y1) → y0 <= scales dim (value_on dim d) <= y1).
  { intros b' dim. unfold within. destruct (b' dim) as [[y0 y1]|].
    - cbv zeta. rewrite andb_true_iff, !Qle_bool_iff. split.
      + intros H ?? [= <- <-]. done.
      + intros H. by apply H.
    - split; [done|]. done. }
  split_and!.
  - by apply Hshown.
  - rewrite Hshown, isVisible_spec. split.
    + intros H dim y0 y1. by apply Hwithin.
    + intros H dim. apply Hwithin. intros y0 y1. apply H.
  - unfold filterLines. rewrite Hnp. by destruct (isVisible scales b d).
  - intros dim selection. rewrite !Hshown, !isVisible_spec.
    intros H dim'. specialize (H dim'). unfold within, on_brush in *.
    destruct (decide (dim' = dim)); done.
  - intros F _ HF. unfold ParallelCoordinates.filterByConference. by rewrite Hnp, HF.
Qed.

Lemma sorted_faster_prefix (v : School) (l : list School) :
  StronglySorted faster_first l →
  ∀ i s, l !! i = Some s →
    ((i < length (filter (faster v) l))%nat ↔ bpm v < bpm s).
Proof.
  induction 1 as [|x l Hl IH Hx]; intros i s Hi; [done|].
  rewrite filter_cons. destruct (decide (faster v x)) as [Hf|Hf].
  - destruct i as [|i]; simpl in *.
    + simplify_eq. unfold faster in Hf. apply gtb_gt in Hf. split; [done|lia].
    + rewrite <- (IH i s Hi). lia.
  - assert (Hxv : bpm x <= bpm v).
    { unfold faster in Hf. apply not_true_is_false in Hf. by apply gtb_le in Hf. }
    assert (Hnil : filter (faster v) l = []).
    { apply SortFacts.filter_none. eapply Forall_impl; [exact Hx|].
      intros y Hy Hfy. unfold faster_first in Hy.
      unfold faster in Hfy. apply gtb_gt in Hfy. lra. }
    rewrite Hnil. simpl. split; [lia|]. intros Hs.
    destruct i as [|i]; simpl in Hi; [simplify_eq; lra|].
    eapply Forall_forall in Hx; [|by eapply list_elem_of_lookup_2].
    unfold faster_first in Hx. lra.
Qed.

(** X28: the poster prints no rank when the dataset has no Purdue.
    Otherwise its ranks are at least 1, the rank among the Big Ten is at most
    the overall tempo rank, and none exceeds the number of schools; and the
    overall tempo rank is Purdue's place in the array the matrix shows when
    sorted by tempo: the schools before that place are faster than Purdue,
    the one at that place has Purdue's tempo, and none from there on is
    faster. *)
Theorem poster_ranks_are_places (schools : list School) :
  (populatePosterStats schools = None ↔ ∀ s, s ∈ schools → isPurdue s = false) ∧
  ∀ r, populatePosterStats schools = Some r →
    (1 ≤ bigTenBpmRank r ≤ bpmRank r)%nat ∧ (bpmRank r ≤ length schools)%nat ∧
    (1 ≤ tropeRank r ≤ length schools)%nat ∧
    ∃ purdue, getPurdue schools = Some purdue ∧
      let sorted := array_sort by_bpm schools in
      (∀ i s, sorted !! i = Some s → (i < bpmRank r - 1)%nat → bpm purdue < bpm s) ∧
      (∀ i s, sorted !! i = Some s → (bpmRank r - 1 ≤ i)%nat → bpm s <= bpm purdue) ∧
      ∃ s, sorted !! (bpmRank r - 1)%nat = Some s ∧ bpm s == bpm purdue.
Proof.
  unfold populatePosterStats, getPurdue, findSchool.
  change (λ s, (school s =? "Purdue")%string) with isPurdue.
  destruct (List.find isPurdue schools) as [purdue|] eqn:Hfind.
  - apply find_some in Hfind as [Hin Hp]. apply list_elem_of_In in Hin.
    split.
    { split; [done|]. intros H. rewrite (H purdue Hin) in Hp. done. }
    intros r [= <-]. simpl.
    assert (Hself : ¬ faster purdue purdue).
    { unfold faster. intros H%gtb_gt. lra. }
    assert (Hself' : ¬ more_tropes purdue purdue).
    { unfold more_tropes. intros H%gtb_gt. lra. }
    pose proof (length_filter_lt (faster purdue) schools purdue Hin Hself) as Hb.
    pose proof (length_filter_lt (more_tropes purdue) schools purdue Hin Hself') as Ht.
    assert (Hg : (length (filter (faster purdue) (filter (λ s, conference s = "Big Ten") schools))
                  ≤ length (filter (faster purdue) schools))%nat).
    { rewrite list_filter_filter.
      clear. induction schools as [|s l IH]; [done|].
      rewrite !filter_cons.
      destruct (decide (faster purdue s ∧ conference s = "Big Ten")) as [[? ?]|Hn].
      - rewrite decide_True by done. simpl. lia.
      - destruct (decide (faster purdue s)); simpl; lia. }
    split_and!; try lia.
    exists purdue. split; [done|]. cbv zeta.
    set (sorted := array_sort by_bpm schools).
    assert (Hsorted : StronglySorted faster_first sorted).
    { apply array_sort_StronglySorted;
        [apply faster_first_trans|apply by_bpm_precedes|apply by_bpm_follows]. }
    assert (Hperm : sorted ≡ₚ schools) by apply array_sort_Permutation.
    assert (Hk : length (filter (faster purdue) sorted)
                 = length (filter (faster purdue) schools)).
    { by rewrite Hperm. }
    replace (length (filter (faster purdue) schools) + 1 - 1)%nat
      with (length (filter (faster purdue) sorted)) by lia.
    pose proof (sorted_faster_prefix purdue sorted Hsorted) as Hprefix.
    split_and!.
    + intros i s Hi Hlt. by apply (Hprefix i s Hi).
    + intros i s Hi Hge.
      destruct (Qlt_le_dec (bpm purdue) (bpm s)) as [Hlt|Hle]; [|done].
      apply (Hprefix i s Hi) in Hlt. lia.
    + assert (Hin' : purdue ∈ sorted) by (by rewrite Hperm).
      apply list_elem_of_lookup in Hin' as [j Hj].
      assert (Hjk : (length (filter (faster purdue) sorted) ≤ j)%nat).
      { destruct (decide (j < length (filter (faster purdue) sorted))%nat) as [Hlt|]; [|lia].
        apply (Hprefix j purdue Hj) in Hlt. lra. }
      destruct (sorted !! length (filter (faster purdue) sorted)) as [s|] eqn:Hs.
      * exists s. split; [done|].
        assert (bpm s <= bpm purdue).
        { destruct (Qlt_le_dec (bpm purdue) (bpm s)) as [Hlt|Hle]; [|done].
          apply (Hprefix _ s Hs) in Hlt. lia. }
        assert (bpm purdue <= bpm s).
        { destruct (decide (length (filter (faster purdue) sorted) = j)) as [E|Hne].
          - rewrite E in Hs. simplify_eq. lra.
          - change (faster_first s purdue).
            apply (StronglySorted_lookup faster_first sorted
                     (length (filter (faster purdue) sorted)) j s purdue Hsorted);
              [lia|done|done]. }
        lra.
      * apply lookup_ge_None in Hs. apply lookup_lt_Some in Hj. lia.
  - split; [|done]. split; [|done]. intros _ s Hs.
    apply (find_none _ _ Hfind). by apply list_elem_of_In.
Qed.

End InteractionFacts.

(* ===================================================================== *)
(** * Facts about the timers *)
(* ===================================================================== *)

Module TimersFacts.
Import Timers.

Lemma debounce_burst {Args : Type} (s : @debounced Args) (burst : list Args) (a : Args) :
  foldl debounce_step s (Call <$> (burst ++ [a]))
  = {| timeout := Some a; d_calls := d_calls s |}.
Proof.
  revert s. induction burst as [|b burst IH]; intros s; [done|].
  simpl. by rewrite IH.
Qed.

Lemma throttle_burst {Args : Type} (s : @throttled Args) (burst : list Args) :
  inThrottle s = true → foldl throttle_step s (Call <$> burst) = s.
Proof.
  intros Hs. induction burst as [|b burst IH]; [done|].
  simpl. by rewrite Hs.
Qed.

(** X30: a debounced function calls [func] once per burst, when the timer
    fires, with the arguments of the last call of the burst, and not as long
    as calls keep coming; a throttled function calls [func] at once for the
    first call and drops every further call until its timer has fired, the
    last call of a burst included. *)
Theorem debounce_keeps_last_throttle_keeps_first {Args : Type}
    (events : list (@event Args)) (a : Args) (burst : list Args) :
  d_calls (debounce (events ++ (Call <$> (burst ++ [a])) ++ [Fire]))
    = d_calls (debounce events) ++ [a] ∧
  d_calls (debounce (events ++ (Call <$> burst))) = d_calls (debounce events) ∧
  t_calls (throttle (events ++ [Fire] ++ (Call <$> (a :: burst))))
    = t_calls (throttle events) ++ [a] ∧
  t_calls (throttle (Call <$> (a :: burst))) = [a].
Proof.
  unfold debounce, throttle. split_and!.
  - rewrite !foldl_app, debounce_burst. done.
  - rewrite foldl_app. destruct burst as [|b burst _] using rev_ind; [done|].
    by rewrite debounce_burst.
  - rewrite !foldl_app. simpl. by rewrite throttle_burst.
  - simpl. by rewrite throttle_burst.
Qed.

End TimersFacts.
